(** * run_database: batch driver of the QUBO penalty experiments

    Shallow embedding of [scripts/improved/run_database.py] and the
    properties of its bookkeeping: which slot of the results collection
    receives which value, what the feasibility evaluator records, when the
    batch driver stops.

    Conventions of the model.
    - numpy's float64 values are idealised as exact rationals ([Q]); every
      finite float is a rational, only the rounding of the arithmetic is left
      out.  A division never raises in numpy: a zero divisor yields inf or
      nan together with a warning.  The quotient of the normalized gap is
      modelled so ([np_divide], a [float64] with its three values that are
      not numbers).  The two other quotients stay in [Q]: that of the minimal
      gap, whose divisor is the distance between two distinct eigenvalues,
      and that of the coupling strength, whose divisor is the number of
      variables of the size, positive for every problem.
    - The cast [.astype(int)] is to 64-bit signed integers; a value out of
      their range becomes the least of them, as on x86-64.
    - Exceptions are values ([Raise]); the results collection is mutated in
      place, so the state reached so far survives a raise.
    - The solvers, the model reader, the Hamiltonian builders, the
      eigen-solver and the file system are collaborators of the script and
      appear as fields of [Problem.t] or as variables of a section.
    - The assignment of a solution to its row of [xs] stretches a vector of
      one entry over the row, as numpy does.  The operands of the sums of
      Hamiltonians must have the same shape; numpy's stretching of
      one-element operands is not covered there (a shape mismatch raises).
    - The progress lines printed on standard output and the wall-clock
      timing around each size are not part of the data and are left out. *)

From Stdlib Require Import QArith Qround Qabs Qminmax Lqa Sorted.
From stdpp Require Import gmap strings list pretty sorting.

Local Open Scope Q_scope.

(** ** Exceptions and results *)

Inductive exn : Type :=
  | ValueError (msg : string)
  | IndexError
  | OSError.

Inductive result (A : Type) : Type :=
  | Ok (a : A)
  | Raise (e : exn).
Arguments Ok {A} a.
Arguments Raise {A} e.

(** ** numpy on rationals *)

(** [np.rint]: round to the nearest integer, ties to the even one. *)
Definition rint (q : Q) : Z :=
  let f := Qfloor q in
  match Qcompare (q - inject_Z f) (1 # 2) with
  | Lt => f
  | Gt => (f + 1)%Z
  | Eq => if Z.even f then f else (f + 1)%Z
  end.

(** A float cell holding an integral value. *)
Definition rintQ (q : Q) : Q := inject_Z (rint q).

(** The least 64-bit signed integer. *)
Definition int64_min : Z := (- 2 ^ 63)%Z.

(** [.astype(int)] on a float that holds the integer [z]: the 64-bit
    signed integer [z] when there is one.  Otherwise the conversion is out
    of range: numpy warns and the entry is what the conversion instruction
    of the x86-64 processor leaves, the least 64-bit integer. *)
Definition astype_int (z : Z) : Z :=
  if ((int64_min <=? z) && (z <? 2 ^ 63))%Z then z else int64_min.

(** [np.rint(x).astype(int)] on a vector. *)
Definition rint_astype_int (x : list Q) : list Z :=
  map (fun v => astype_int (rint v)) x.

(** [a > b] on floats, as a boolean. *)
Definition Qgtb (a b : Q) : bool := negb (Qle_bool a b).

(** A float64 value: a finite one, idealised as a rational, or one of
    [inf], [-inf] and [nan]. *)
Inductive float64 : Type :=
  | Finite (q : Q)
  | Inf
  | NegInf
  | NaN.

(** [x / y] on numpy floats.  A zero divisor raises nothing: numpy warns
    and the quotient is [inf] or [-inf] by the sign of the dividend, [nan]
    for a zero dividend. *)
Definition np_divide (x y : Q) : float64 :=
  if Qeq_bool y 0
  then match Qcompare x 0 with
       | Gt => Inf
       | Lt => NegInf
       | Eq => NaN
       end
  else Finite (x / y).

(** [np.min], [np.max] of a vector: a [ValueError] on an empty one. *)
Definition np_min (v : list Q) : result Q :=
  match v with
  | [] => Raise (ValueError "zero-size array to reduction operation minimum which has no identity")
  | a :: r => Ok (foldl Qmin a r)
  end.

Definition np_max (v : list Q) : result Q :=
  match v with
  | [] => Raise (ValueError "zero-size array to reduction operation maximum which has no identity")
  | a :: r => Ok (foldl Qmax a r)
  end.

(** [a + b] on vectors of one shape. *)
Definition np_add (a b : list Q) : result (list Q) :=
  if (length a =? length b)%nat then Ok (zip_with Qplus a b)
  else Raise (ValueError "operands could not be broadcast together").

(** [c * v], a scalar times a vector. *)
Definition np_scale (c : Q) (v : list Q) : list Q := map (Qmult c) v.

(** Matrices are lists of rows. *)
Definition matrix : Type := list (list Q).

Definition mat_shape (m : matrix) : list nat := map length m.

Definition mat_scale (c : Q) (m : matrix) : matrix := map (np_scale c) m.

Definition mat_add (a b : matrix) : result matrix :=
  if decide (mat_shape a = mat_shape b)
  then Ok (zip_with (zip_with Qplus) a b)
  else Raise (ValueError "operands could not be broadcast together").

(** [np.diag] of a vector: the square matrix with it on the diagonal. *)
Definition np_diag (v : list Q) : matrix :=
  imap (fun i a => <[i := a]> (replicate (length v) 0)) v.

(** [np.unique]: the distinct values in ascending order.  [uinsert] puts
    one value in its place in an ascending list without repetition. *)
Fixpoint uinsert (a : Q) (l : list Q) : list Q :=
  match l with
  | [] => [a]
  | b :: r =>
      match Qcompare a b with
      | Lt => a :: l
      | Eq => l
      | Gt => b :: uinsert a r
      end
  end.

Definition np_unique (v : list Q) : list Q := foldr uinsert [] v.



(** [v[k]] and [v[-1]] on a vector. *)
Definition item {A} (v : list A) (k : nat) : result A :=
  match v !! k with
  | Some a => Ok a
  | None => Raise IndexError
  end.

Definition item_last {A} (v : list A) : result A :=
  match last v with
  | Some a => Ok a
  | None => Raise IndexError
  end.

(** ** Fixed-shape arrays *)

(** An array has a shape, the value its cells were allocated with, and the
    cells written since. *)
Record ndarray (V : Type) : Type := {
  shape : list nat;
  fill : V;
  cells : gmap (list nat) V
}.
Arguments shape {V} _.
Arguments fill {V} _.
Arguments cells {V} _.

Fixpoint in_bounds (shp idx : list nat) : bool :=
  match shp, idx with
  | [], [] => true
  | n :: shp', i :: idx' => (i <? n)%nat && in_bounds shp' idx'
  | _, _ => false
  end.

(** [a[idx]] with one index per axis. *)
Definition nd_get {V} (a : ndarray V) (idx : list nat) : result V :=
  if in_bounds (shape a) idx
  then Ok (default (fill a) (cells a !! idx))
  else Raise IndexError.

(** [a[idx] = v]. *)
Definition nd_set {V} (a : ndarray V) (idx : list nat) (v : V) : result (ndarray V) :=
  if in_bounds (shape a) idx
  then Ok {| shape := shape a; fill := fill a; cells := <[idx := v]> (cells a) |}
  else Raise IndexError.

Definition nd_alloc {V} (shp : list nat) (v0 : V) : ndarray V :=
  {| shape := shp; fill := v0; cells := ∅ |}.

(** ** The collaborators' objects *)

Inductive OptimizationResultStatus : Type := SUCCESS | FAILURE | INFEASIBLE.

(** What a solver returns: [res.status], [res.fval], [res.x]. *)
Module OptimizationResult.
Record t : Type := {
  status : OptimizationResultStatus;
  fval : Q;
  x : list Q
}.
End OptimizationResult.

(** A constraint of the program: [cons.evaluate(x)] and [cons.rhs]. *)
Module Constraint.
Record t : Type := {
  evaluate : list Z -> Q;
  rhs : Q
}.
End Constraint.

(** The quadratic program [p.qp].  [get_feasibility_info(x)] returns the
    verdict, the violated variables (by position) and the violated
    constraints. *)
Module QuadraticProgram.
Record t : Type := {
  name : string;
  is_feasible : list Z -> bool;
  get_feasibility_info : list Z -> bool * list nat * list Constraint.t
}.

Definition with_name (qp : t) (s : string) : t :=
  {| name := s;
     is_feasible := is_feasible qp;
     get_feasibility_info := get_feasibility_info qp |}.
End QuadraticProgram.

(** The problem instance [p], of the class [Problem] of the module [ds]:
    its methods are functions of the instance, given with it.
    [solve_quantum] returns the result, the penalty [M] and the elapsed
    time. *)
Module Problem.
Record t : Type := {
  qp : QuadraticProgram.t;
  solve_exact : OptimizationResult.t;
  solve_quantum : string -> OptimizationResult.t * Q * Q;
  get_obj_hamiltonian : list Q;
  get_constraint_hamiltonian : list Q;
  get_gap_total : list Q -> list Q -> Q -> Q
}.

Definition with_qp (p : t) (q : QuadraticProgram.t) : t :=
  {| qp := q;
     solve_exact := solve_exact p;
     solve_quantum := solve_quantum p;
     get_obj_hamiltonian := get_obj_hamiltonian p;
     get_constraint_hamiltonian := get_constraint_hamiltonian p;
     get_gap_total := get_gap_total p |}.
End Problem.

(** ** The results collection *)

(** The arrays of the collection, by name. *)
Inductive field : Type :=
  | Ffval | FM | Ftime | Fgap | Fgap_norm | Fgap_minimal
  | Fis_feasible | Fn_violations | Fmax_violation.

Global Instance field_eq_dec : EqDecision field.
Proof. solve_decision. Defined.

(** Modelled from the spec: the class [Datas] of the module [ds], of which
    the script has the import only.  It holds the sizes of the batch and
    one fixed-shape array for each quantity recorded: objective values,
    penalties, solve times, raw, normalized and minimal gaps, feasibility
    flags, violation counts and maximum violations. *)
Module Datas.
Record t : Type := {
  bvars : list nat;
  fval : ndarray Q;
  M : ndarray Q;
  time : ndarray Q;
  gap : ndarray Q;
  gap_norm : ndarray float64;
  gap_minimal : ndarray Q;
  is_feasible : ndarray bool;
  n_violations : ndarray nat;
  max_violation : ndarray Q
}.

Definition with_fval (d : t) (a : ndarray Q) : t :=
  {| bvars := bvars d; fval := a; M := M d; time := time d; gap := gap d;
     gap_norm := gap_norm d; gap_minimal := gap_minimal d;
     is_feasible := is_feasible d; n_violations := n_violations d;
     max_violation := max_violation d |}.
Definition with_M (d : t) (a : ndarray Q) : t :=
  {| bvars := bvars d; fval := fval d; M := a; time := time d; gap := gap d;
     gap_norm := gap_norm d; gap_minimal := gap_minimal d;
     is_feasible := is_feasible d; n_violations := n_violations d;
     max_violation := max_violation d |}.
Definition with_time (d : t) (a : ndarray Q) : t :=
  {| bvars := bvars d; fval := fval d; M := M d; time := a; gap := gap d;
     gap_norm := gap_norm d; gap_minimal := gap_minimal d;
     is_feasible := is_feasible d; n_violations := n_violations d;
     max_violation := max_violation d |}.
Definition with_gap (d : t) (a : ndarray Q) : t :=
  {| bvars := bvars d; fval := fval d; M := M d; time := time d; gap := a;
     gap_norm := gap_norm d; gap_minimal := gap_minimal d;
     is_feasible := is_feasible d; n_violations := n_violations d;
     max_violation := max_violation d |}.
Definition with_gap_norm (d : t) (a : ndarray float64) : t :=
  {| bvars := bvars d; fval := fval d; M := M d; time := time d; gap := gap d;
     gap_norm := a; gap_minimal := gap_minimal d;
     is_feasible := is_feasible d; n_violations := n_violations d;
     max_violation := max_violation d |}.
Definition with_gap_minimal (d : t) (a : ndarray Q) : t :=
  {| bvars := bvars d; fval := fval d; M := M d; time := time d; gap := gap d;
     gap_norm := gap_norm d; gap_minimal := a;
     is_feasible := is_feasible d; n_violations := n_violations d;
     max_violation := max_violation d |}.
Definition with_is_feasible (d : t) (a : ndarray bool) : t :=
  {| bvars := bvars d; fval := fval d; M := M d; time := time d; gap := gap d;
     gap_norm := gap_norm d; gap_minimal := gap_minimal d;
     is_feasible := a; n_violations := n_violations d;
     max_violation := max_violation d |}.
Definition with_n_violations (d : t) (a : ndarray nat) : t :=
  {| bvars := bvars d; fval := fval d; M := M d; time := time d; gap := gap d;
     gap_norm := gap_norm d; gap_minimal := gap_minimal d;
     is_feasible := is_feasible d; n_violations := a;
     max_violation := max_violation d |}.
Definition with_max_violation (d : t) (a : ndarray Q) : t :=
  {| bvars := bvars d; fval := fval d; M := M d; time := time d; gap := gap d;
     gap_norm := gap_norm d; gap_minimal := gap_minimal d;
     is_feasible := is_feasible d; n_violations := n_violations d;
     max_violation := a |}.
End Datas.

(** Modelled from the spec: the constructor [Datas(bvars, n_samples,
    n_M_strategies)] of the module [ds], of which the script only has the
    call.  The collection is a set of fixed-shape arrays allocated once,
    indexed by (size, sample, strategy), the objective values by (size,
    sample, classical or quantum, strategy).  The spec names no initial
    value: the cells start at zero (false for the flags), and a cell never
    written is absent from [cells]. *)
Definition Datas_new (bvars : list nat) (n_samples n_M_strategies : nat) : Datas.t :=
  let shp := [length bvars; n_samples; n_M_strategies] in
  {| Datas.bvars := bvars;
     Datas.fval := nd_alloc [length bvars; n_samples; 2%nat; n_M_strategies] 0;
     Datas.M := nd_alloc shp 0;
     Datas.time := nd_alloc shp 0;
     Datas.gap := nd_alloc shp 0;
     Datas.gap_norm := nd_alloc shp (Finite 0);
     Datas.gap_minimal := nd_alloc shp 0;
     Datas.is_feasible := nd_alloc shp false;
     Datas.n_violations := nd_alloc shp 0%nat;
     Datas.max_violation := nd_alloc shp 0 |}.

(** ** Running the script: state and exceptions *)

(** A write into the collection: the array and the index. *)
Definition write : Type := field * list nat.

(** The collection, and the writes made into it so far, oldest first. *)
Record State : Type := {
  data : Datas.t;
  written : list write
}.

Definition Exec (A : Type) : Type := State -> result A * State.

Definition ret {A} (a : A) : Exec A := fun st => (Ok a, st).

Definition raise {A} (e : exn) : Exec A := fun st => (Raise e, st).

Definition bind {A B} (c : Exec A) (k : A -> Exec B) : Exec B := fun st =>
  match c st with
  | (Ok a, st') => k a st'
  | (Raise e, st') => (Raise e, st')
  end.

Definition lift {A} (r : result A) : Exec A := fun st => (r, st).

Notation "x <- c ;; k" := (bind c (fun x => k))
  (at level 100, c at next level, right associativity).
Notation "c ;;; k" := (bind c (fun _ => k))
  (at level 100, right associativity).

(** [for k in l: acc = body(k, acc)]. *)
Fixpoint for_acc {A} (l : list nat) (body : nat -> A -> Exec A) (acc : A) : Exec A :=
  match l with
  | [] => ret acc
  | k :: r => acc' <- body k acc ;; for_acc r body acc'
  end.

(** [for k in range(n): body(k)]. *)
Definition for_range (n : nat) (body : nat -> Exec unit) : Exec unit :=
  for_acc (seq 0 n) (fun k _ => body k) tt.

(** [data.<array>[idx] = v]: the write is recorded when it succeeds. *)
Definition store {V} (f : field) (proj : Datas.t -> ndarray V)
    (upd : Datas.t -> ndarray V -> Datas.t) (idx : list nat) (v : V) : Exec unit :=
  fun st =>
    match nd_set (proj (data st)) idx v with
    | Ok a => (Ok tt, {| data := upd (data st) a; written := written st ++ [(f, idx)] |})
    | Raise e => (Raise e, st)
    end.

(** [data.<array>[idx]] *)
Definition load {V} (proj : Datas.t -> ndarray V) (idx : list nat) : Exec V :=
  fun st => (nd_get (proj (data st)) idx, st).

(** [data.bvars[i]] *)
Definition load_bvars (i : nat) : Exec nat :=
  fun st => (item (Datas.bvars (data st)) i, st).

Definition store_fval := store Ffval Datas.fval Datas.with_fval.
Definition store_M := store FM Datas.M Datas.with_M.
Definition store_time := store Ftime Datas.time Datas.with_time.
Definition store_gap := store Fgap Datas.gap Datas.with_gap.
Definition store_gap_norm := store Fgap_norm Datas.gap_norm Datas.with_gap_norm.
Definition store_gap_minimal := store Fgap_minimal Datas.gap_minimal Datas.with_gap_minimal.
Definition store_is_feasible := store Fis_feasible Datas.is_feasible Datas.with_is_feasible.
Definition store_n_violations := store Fn_violations Datas.n_violations Datas.with_n_violations.
Definition store_max_violation := store Fmax_violation Datas.max_violation Datas.with_max_violation.

(** ** The script *)

(** [sorted] on file names: insertion into an ascending list, by code
    point. *)
Fixpoint sorted_insert (s : string) (l : list string) : list string :=
  match l with
  | [] => [s]
  | t :: r => if String.leb s t then s :: l else t :: sorted_insert s r
  end.

Definition sorted (l : list string) : list string := foldr sorted_insert [] l.

(** The degree of mixture between [H_0] and [H] in the adiabatic
    computation. *)
Definition alpha : Q := 0.98.

(** The local variables the strategy loop of [run_instance] carries from
    one iteration to the next. *)
Record locals : Type := {
  xs : list (list Z);
  beta_fixed : Q
}.

(** A vector as numpy puts it into a row of [bvars] entries: a vector of
    one entry is stretched over the row, any other must have the length of
    the row. *)
Definition broadcast_row (bvars : nat) (row : list Z) : result (list Z) :=
  match row with
  | [v] => Ok (replicate bvars v)
  | _ => if (length row =? bvars)%nat then Ok row
         else Raise (ValueError "could not broadcast input array")
  end.

(** [xs[M_idx] = row] on an array of rows of length [bvars]. *)
Definition assign_row (bvars : nat) (xs : list (list Z)) (M_idx : nat) (row : list Z)
    : result (list (list Z)) :=
  if (M_idx <? length xs)%nat
  then match broadcast_row bvars row with
       | Ok row' => Ok (<[M_idx := row']> xs)
       | Raise e => Raise e
       end
  else Raise IndexError.

(** The largest violation among the violated constraints, as the loop of
    [evaluate_feasibility] accumulates it. *)
Definition max_viol_step (x : list Z) (max_viol : Q) (cons : Constraint.t) : Q :=
  let violation := Qabs (Constraint.evaluate cons x - Constraint.rhs cons) in
  if Qgtb violation max_viol then violation else max_viol.

Definition max_viol_loop (x : list Z) (violated_cons : list Constraint.t) : Q :=
  foldl (max_viol_step x) 0 violated_cons.

Definition evaluate_feasibility (p : Problem.t) (x : list Z) (indexes : nat * nat * nat)
    : Exec unit :=
  let '(i0, i1, i2) := indexes in
  if QuadraticProgram.is_feasible (Problem.qp p) x
  then store_is_feasible [i0; i1; i2] true
  else
    let violated_cons := (QuadraticProgram.get_feasibility_info (Problem.qp p) x).2 in
    store_n_violations [i0; i1; i2] (length violated_cons) ;;;
    store_max_violation [i0; i1; i2] (max_viol_loop x violated_cons).

(** The spectral gap of [H_mix] shifted and squeezed so that the spectrum
    is in [0,1]: [(evs[1] - evs[0])/(evs[-1] - evs[0])]. *)
Definition squeezed_gap (evs : list Q) : result Q :=
  match item evs 1, item evs 0, item_last evs with
  | Ok e1, Ok e0, Ok elast => Ok ((e1 - e0) / (elast - e0))
  | Raise e, _, _ => Raise e
  | _, Raise e, _ => Raise e
  | _, _, Raise e => Raise e
  end.

Section Script.

(** [Problem(from_docplex_mp(ModelReader.read(filename, ignore_names=True)))] *)
Variable read_problem : string -> Problem.t.
(** [ds.initial_hamiltonian_adiabatic] *)
Variable initial_hamiltonian_adiabatic : nat -> matrix.
(** [np.linalg.eigvalsh] *)
Variable eigvalsh : matrix -> list Q.
(** [os.listdir] *)
Variable listdir : string -> result (list string).

(** [beta = np.max(np.abs([min_e, max_e])) / bvars] *)
Definition coupling (min_e max_e : Q) (bvars : nat) : Q :=
  Qmax (Qabs min_e) (Qabs max_e) / inject_Z (Z.of_nat bvars).

(** [H_mix = (1-alpha)*H_0 + alpha*np.diag(H)] with
    [H_0 = beta_fixed*initial_hamiltonian_adiabatic(bvars)] *)
Definition mixed_hamiltonian (beta_fixed : Q) (bvars : nat) (H : list Q) : result matrix :=
  let H_0 := mat_scale beta_fixed (initial_hamiltonian_adiabatic bvars) in
  mat_add (mat_scale (1 - alpha) H_0) (mat_scale alpha (np_diag H)).

(** The gap analysis of one strategy (the body of [if analyze_gaps:]);
    it returns the value of [beta_fixed] after it. *)
Definition analyze (p : Problem.t) (bvars : nat) (i0 i1 M_idx : nat) (M : Q)
    (analyze_gaps_qite analyze_gaps_adiabatic : bool) (beta_fixed : Q) : Exec Q :=
  let H := Problem.get_obj_hamiltonian p in
  let Hc := Problem.get_constraint_hamiltonian p in
  store_gap [i0; i1; M_idx] (Problem.get_gap_total p H Hc M) ;;;
  if analyze_gaps_qite then
    H <- lift (np_add H (np_scale M Hc)) ;;
    min_e <- lift (np_min H) ;;
    max_e <- lift (np_max H) ;;
    g <- load Datas.gap [i0; i1; M_idx] ;;
    store_gap_norm [i0; i1; M_idx] (np_divide g (max_e - min_e)) ;;;
    if analyze_gaps_adiabatic then
      let beta := coupling min_e max_e bvars in
      let beta_fixed := if (M_idx =? 0)%nat then beta else beta_fixed in
      H_mix <- lift (mixed_hamiltonian beta_fixed bvars H) ;;
      let evs := np_unique (eigvalsh H_mix) in
      gm <- lift (squeezed_gap evs) ;;
      store_gap_minimal [i0; i1; M_idx] gm ;;;
      ret beta_fixed
    else ret beta_fixed
  else ret beta_fixed.

(** One iteration of [for M_idx in range(len(M_strategies))]. *)
Definition strategy_step (p : Problem.t) (c_res : OptimizationResult.t) (bvars : nat)
    (M_strategies : list string) (i0 i1 : nat)
    (analyze_gaps analyze_gaps_qite analyze_gaps_adiabatic : bool)
    (M_idx : nat) (loc : locals) : Exec locals :=
  strategy <- lift (item M_strategies M_idx) ;;
  let '(q_res, M, t) := Problem.solve_quantum p strategy in
  store_fval [i0; i1; 0%nat; M_idx] (rintQ (OptimizationResult.fval c_res)) ;;;
  store_fval [i0; i1; 1%nat; M_idx] (rintQ (OptimizationResult.fval q_res)) ;;;
  store_M [i0; i1; M_idx] M ;;;
  store_time [i0; i1; M_idx] t ;;;
  xs' <- lift (assign_row bvars (xs loc) M_idx
                 (rint_astype_int (OptimizationResult.x q_res))) ;;
  if analyze_gaps then
    b <- analyze p bvars i0 i1 M_idx M analyze_gaps_qite analyze_gaps_adiabatic
           (beta_fixed loc) ;;
    ret {| xs := xs'; beta_fixed := b |}
  else ret {| xs := xs'; beta_fixed := beta_fixed loc |}.

Definition run_instance (filename : string) (M_strategies : list string)
    (indexes : nat * nat)
    (analyze_gaps analyze_gaps_qite analyze_gaps_adiabatic : bool)
    : Exec (Problem.t * list (list Z)) :=
  let '(i0, i1) := indexes in
  bvars <- load_bvars i0 ;;
  let p := read_problem filename in
  let p := Problem.with_qp p (QuadraticProgram.with_name (Problem.qp p) filename) in
  let c_res := Problem.solve_exact p in
  let loc := {| xs := replicate (length M_strategies) (replicate bvars 0%Z);
                beta_fixed := 0 |} in
  loc <- for_acc (seq 0 (length M_strategies))
           (strategy_step p c_res bvars M_strategies i0 i1
              analyze_gaps analyze_gaps_qite analyze_gaps_adiabatic) loc ;;
  ret (p, xs loc).

(** [test_set+"/"+str(n_qubs)+"/"] *)
Definition folder_of (test_set : string) (n_qubs : nat) : string :=
  test_set +:+ "/" +:+ pretty n_qubs +:+ "/".

Definition too_few_instances (folder : string) (n_files n_samples : nat) : string :=
  "Folder " +:+ folder +:+ " contains only " +:+ pretty n_files
    +:+ " instances, " +:+ pretty n_samples +:+ " were requested".

(** One iteration of [for sample in range(n_samples)]. *)
Definition sample_step (M_strategies : list string)
    (analyze_gaps analyze_gaps_qite analyze_gaps_adiabatic : bool)
    (i : nat) (folder : string) (files : list string) (sample : nat) : Exec unit :=
  file <- lift (item files sample) ;;
  let filename := folder +:+ file in
  r <- run_instance filename M_strategies (i, sample)
         analyze_gaps analyze_gaps_qite analyze_gaps_adiabatic ;;
  let '(p, xs) := r in
  for_range (length M_strategies) (fun bigM_idx =>
    x <- lift (item xs bigM_idx) ;;
    evaluate_feasibility p x (i, sample, bigM_idx)).

(** One iteration of [for i in range(len(bvars))]. *)
Definition size_step (test_set : string) (bvars : list nat) (n_samples : nat)
    (M_strategies : list string)
    (analyze_gaps analyze_gaps_qite analyze_gaps_adiabatic : bool)
    (i : nat) : Exec unit :=
  n_qubs <- lift (item bvars i) ;;
  let folder := folder_of test_set n_qubs in
  listed <- lift (listdir folder) ;;
  let files := sorted listed in
  if (length files <? n_samples)%nat
  then raise (ValueError (too_few_instances folder (length files) n_samples))
  else
    for_range n_samples
      (sample_step M_strategies analyze_gaps analyze_gaps_qite analyze_gaps_adiabatic
         i folder files).

(** The loop of [run_test] over the sizes, on the collection in the
    state. *)
Definition size_loop (test_set : string) (bvars : list nat) (n_samples : nat)
    (M_strategies : list string)
    (analyze_gaps analyze_gaps_qite analyze_gaps_adiabatic : bool) : Exec unit :=
  for_range (length bvars)
    (size_step test_set bvars n_samples M_strategies
       analyze_gaps analyze_gaps_qite analyze_gaps_adiabatic).

(** [run_test]: the collection is allocated, filled by the loop and
    returned.  The collection as it is when an exception leaves the loop
    is kept in the second component. *)
Definition run_test (test_set : string) (bvars : list nat) (n_samples : nat)
    (M_strategies : list string)
    (analyze_gaps analyze_gaps_qite analyze_gaps_adiabatic : bool)
    : result Datas.t * State :=
  let n_M_strategies := length M_strategies in
  let st0 := {| data := Datas_new bvars n_samples n_M_strategies; written := [] |} in
  match size_loop test_set bvars n_samples M_strategies
          analyze_gaps analyze_gaps_qite analyze_gaps_adiabatic st0 with
  | (Ok _, st) => (Ok (data st), st)
  | (Raise e, st) => (Raise e, st)
  end.

End Script.

(** ** Notions the statements use *)

(** [|cons.evaluate(x) - cons.rhs|] *)
Definition violation_of (x : list Z) (cons : Constraint.t) : Q :=
  Qabs (Constraint.evaluate cons x - Constraint.rhs cons).

(** What a cell of the collection holds. *)
Inductive cell : Type :=
  | CNum (q : Q)
  | CFloat (x : float64)
  | CFlag (b : bool)
  | CCount (n : nat).

(** The content of the cell a write addresses, once it has been written. *)
Definition peek (d : Datas.t) (w : write) : option cell :=
  match w.1 with
  | Ffval => CNum <$> cells (Datas.fval d) !! w.2
  | FM => CNum <$> cells (Datas.M d) !! w.2
  | Ftime => CNum <$> cells (Datas.time d) !! w.2
  | Fgap => CNum <$> cells (Datas.gap d) !! w.2
  | Fgap_norm => CFloat <$> cells (Datas.gap_norm d) !! w.2
  | Fgap_minimal => CNum <$> cells (Datas.gap_minimal d) !! w.2
  | Fis_feasible => CFlag <$> cells (Datas.is_feasible d) !! w.2
  | Fn_violations => CCount <$> cells (Datas.n_violations d) !! w.2
  | Fmax_violation => CNum <$> cells (Datas.max_violation d) !! w.2
  end.

(** The shape of an array and the value it was allocated with. *)
Definition layout (d : Datas.t) (f : field) : list nat * cell :=
  match f with
  | Ffval => (shape (Datas.fval d), CNum (fill (Datas.fval d)))
  | FM => (shape (Datas.M d), CNum (fill (Datas.M d)))
  | Ftime => (shape (Datas.time d), CNum (fill (Datas.time d)))
  | Fgap => (shape (Datas.gap d), CNum (fill (Datas.gap d)))
  | Fgap_norm => (shape (Datas.gap_norm d), CFloat (fill (Datas.gap_norm d)))
  | Fgap_minimal => (shape (Datas.gap_minimal d), CNum (fill (Datas.gap_minimal d)))
  | Fis_feasible => (shape (Datas.is_feasible d), CFlag (fill (Datas.is_feasible d)))
  | Fn_violations => (shape (Datas.n_violations d), CCount (fill (Datas.n_violations d)))
  | Fmax_violation => (shape (Datas.max_violation d), CNum (fill (Datas.max_violation d)))
  end.

Definition same_layout (d d' : Datas.t) : Prop :=
  Datas.bvars d' = Datas.bvars d /\ forall f, layout d' f = layout d f.

(** [touches c ws]: whatever the outcome of [c], the writes it makes are
    some of [ws], in that order, and no cell outside [ws] changes. *)
Definition touches {A} (c : Exec A) (ws : list write) : Prop :=
  forall st,
    (exists evs, written (c st).2 = written st ++ evs /\ evs `sublist_of` ws)
    /\ same_layout (data st) (data (c st).2)
    /\ forall w, w ∉ ws -> peek (data (c st).2) w = peek (data st) w.

(** The writes one strategy of one sample can make in [run_instance]. *)
Definition strategy_writes (i0 i1 M_idx : nat) : list write :=
  [ (Ffval, [i0; i1; 0%nat; M_idx]); (Ffval, [i0; i1; 1%nat; M_idx]);
    (FM, [i0; i1; M_idx]); (Ftime, [i0; i1; M_idx]); (Fgap, [i0; i1; M_idx]);
    (Fgap_norm, [i0; i1; M_idx]); (Fgap_minimal, [i0; i1; M_idx]) ].

(** The writes [evaluate_feasibility] can make at one index. *)
Definition feasibility_writes (i0 i1 i2 : nat) : list write :=
  [ (Fis_feasible, [i0; i1; i2]); (Fn_violations, [i0; i1; i2]);
    (Fmax_violation, [i0; i1; i2]) ].

Definition instance_writes (n_M_strategies i0 i1 : nat) : list write :=
  seq 0 n_M_strategies ≫= strategy_writes i0 i1.

Definition sample_writes (n_M_strategies i sample : nat) : list write :=
  instance_writes n_M_strategies i sample
    ++ (seq 0 n_M_strategies ≫= feasibility_writes i sample).

Definition size_writes (n_samples n_M_strategies i : nat) : list write :=
  seq 0 n_samples ≫= sample_writes n_M_strategies i.

Definition batch_writes (n_sizes n_samples n_M_strategies : nat) : list write :=
  seq 0 n_sizes ≫= size_writes n_samples n_M_strategies.

(** The (size, sample, strategy) slot a write belongs to. *)
Definition addressed (w : write) : option (nat * nat * nat) :=
  match w.2 with
  | [i0; i1; i2] => Some (i0, i1, i2)
  | [i0; i1; _; i2] => Some (i0, i1, i2)
  | _ => None
  end.

(** The arrays [evaluate_feasibility] writes, as opposed to those
    [run_instance] writes. *)
Definition feasibility_field (f : field) : bool :=
  match f with
  | Fis_feasible | Fn_violations | Fmax_violation => true
  | _ => false
  end.

(** [H + M*Hc], the combined Hamiltonian of [run_instance]. *)
Definition combined_hamiltonian (p : Problem.t) (M : Q) : result (list Q) :=
  np_add (Problem.get_obj_hamiltonian p)
         (np_scale M (Problem.get_constraint_hamiltonian p)).

(** The raw gap of a strategy with penalty [M]. *)
Definition raw_gap (p : Problem.t) (M : Q) : Q :=
  Problem.get_gap_total p (Problem.get_obj_hamiltonian p)
    (Problem.get_constraint_hamiltonian p) M.


Section Post.

Variable initial_hamiltonian_adiabatic : nat -> matrix.
Variable eigvalsh : matrix -> list Q.

(** What the slot of strategy number [k] holds once its iteration of the
    strategy loop is over, [beta] being the value of [beta_fixed] at the
    end of that iteration. *)
Definition strategy_post (p : Problem.t) (c_res : OptimizationResult.t) (bvars : nat)
    (analyze_gaps analyze_gaps_qite analyze_gaps_adiabatic : bool)
    (i0 i1 k : nat) (strategy : string) (beta : Q) (d : Datas.t) : Prop :=
  let q_res := (Problem.solve_quantum p strategy).1.1 in
  let M := (Problem.solve_quantum p strategy).1.2 in
  let t := (Problem.solve_quantum p strategy).2 in
  peek d (Ffval, [i0; i1; 0%nat; k])
    = Some (CNum (rintQ (OptimizationResult.fval c_res)))
  /\ peek d (Ffval, [i0; i1; 1%nat; k])
     = Some (CNum (rintQ (OptimizationResult.fval q_res)))
  /\ peek d (FM, [i0; i1; k]) = Some (CNum M)
  /\ peek d (Ftime, [i0; i1; k]) = Some (CNum t)
  /\ (analyze_gaps = true ->
      peek d (Fgap, [i0; i1; k]) = Some (CNum (raw_gap p M))
      /\ (analyze_gaps_qite = true ->
          exists H' min_e max_e,
            combined_hamiltonian p M = Ok H'
            /\ np_min H' = Ok min_e /\ np_max H' = Ok max_e
            /\ peek d (Fgap_norm, [i0; i1; k])
               = Some (CFloat (np_divide (raw_gap p M) (max_e - min_e)))
            /\ (analyze_gaps_adiabatic = true ->
                exists H_mix gm,
                  (k = 0%nat -> beta = coupling min_e max_e bvars)
                  /\ mixed_hamiltonian initial_hamiltonian_adiabatic beta bvars H'
                     = Ok H_mix
                  /\ squeezed_gap (np_unique (eigvalsh H_mix)) = Ok gm
                  /\ peek d (Fgap_minimal, [i0; i1; k]) = Some (CNum gm)))).

End Post.

(** What [evaluate_feasibility] leaves in the slot [i0, i1, i2]. *)
Definition feasibility_post (p : Problem.t) (x : list Z) (i0 i1 i2 : nat) (d : Datas.t)
    : Prop :=
  if QuadraticProgram.is_feasible (Problem.qp p) x
  then peek d (Fis_feasible, [i0; i1; i2]) = Some (CFlag true)
  else
    let V := (QuadraticProgram.get_feasibility_info (Problem.qp p) x).2 in
    peek d (Fn_violations, [i0; i1; i2]) = Some (CCount (length V))
    /\ peek d (Fmax_violation, [i0; i1; i2]) = Some (CNum (max_viol_loop x V)).

Section BatchPost.

Variable read_problem : string -> Problem.t.
Variable initial_hamiltonian_adiabatic : nat -> matrix.
Variable eigvalsh : matrix -> list Q.
Variable listdir : string -> result (list string).

(** The problem instance [run_instance] builds from a file: the problem
    read, named after the file. *)
Definition instance_of (filename : string) : Problem.t :=
  Problem.with_qp (read_problem filename)
    (QuadraticProgram.with_name (Problem.qp (read_problem filename)) filename).

(** The solver's vector of a strategy, rounded and cast to integers. *)
Definition rounded_solution (p : Problem.t) (strategy : string) : list Z :=
  rint_astype_int (OptimizationResult.x (Problem.solve_quantum p strategy).1.1).

(** The row of [xs] that [run_instance] hands over for a strategy: the
    rounded solution, stretched over the [bvars] entries of the row when it
    has a single entry. *)
Definition solution_row (bvars : nat) (p : Problem.t) (strategy : string) : list Z :=
  match rounded_solution p strategy with
  | [v] => replicate bvars v
  | x => x
  end.

(** What the slots of one sample hold once the sample has been
    processed: those of every strategy, filled by [run_instance] and by
    [evaluate_feasibility], with one [beta] for all the strategies. *)
Definition sample_post (M_strategies : list string)
    (analyze_gaps analyze_gaps_qite analyze_gaps_adiabatic : bool)
    (bvars : nat) (filename : string) (i sample : nat) (d : Datas.t) : Prop :=
  let p := instance_of filename in
  exists beta,
    forall k strategy,
      M_strategies !! k = Some strategy ->
      strategy_post initial_hamiltonian_adiabatic eigvalsh p (Problem.solve_exact p)
        bvars analyze_gaps analyze_gaps_qite analyze_gaps_adiabatic
        i sample k strategy beta d
      /\ broadcast_row bvars (rounded_solution p strategy)
         = Ok (solution_row bvars p strategy)
      /\ feasibility_post p (solution_row bvars p strategy) i sample k d.

(** What the slots of one size hold once the size has been processed. *)
Definition size_post (test_set : string) (n_samples : nat) (M_strategies : list string)
    (analyze_gaps analyze_gaps_qite analyze_gaps_adiabatic : bool)
    (n_qubs : nat) (i : nat) (d : Datas.t) : Prop :=
  exists listed,
    listdir (folder_of test_set n_qubs) = Ok listed
    /\ (n_samples <= length (sorted listed))%nat
    /\ forall sample file,
         (sample < n_samples)%nat ->
         sorted listed !! sample = Some file ->
         sample_post M_strategies analyze_gaps analyze_gaps_qite analyze_gaps_adiabatic
           n_qubs (folder_of test_set n_qubs +:+ file) i sample d.

End BatchPost.

(** [has_value l e]: the number [e] occurs in [l]. *)
Definition has_value (l : list Q) (e : Q) : Prop := exists e', e' ∈ l /\ e' == e.

(** Whether a run returned rather than raised. *)
Definition is_ok {A} (r : result A) : bool :=
  match r with
  | Ok _ => true
  | Raise _ => false
  end.

(** [contains needle hay]: the text [needle] occurs in [hay]. *)
Definition contains (needle hay : string) : Prop :=
  exists pre post, hay = pre +:+ needle +:+ post.

Section BatchSample.

Variable read_problem : string -> Problem.t.
Variable listdir : string -> result (list string).

(** [batch_sample test_set bvars n_samples i sample n_qubs p]: in a batch
    over the sizes [bvars], the sample number [sample] of the size number
    [i] is the problem [p] on [n_qubs] variables, read from the file of
    that rank in the sorted folder of the size. *)
Definition batch_sample (test_set : string) (bvars : list nat) (n_samples : nat)
    (i sample : nat) (n_qubs : nat) (p : Problem.t) : Prop :=
  bvars !! i = Some n_qubs
  /\ (sample < n_samples)%nat
  /\ exists listed file,
       listdir (folder_of test_set n_qubs) = Ok listed
       /\ sorted listed !! sample = Some file
       /\ p = instance_of read_problem (folder_of test_set n_qubs +:+ file).

End BatchSample.

(** ** A small test set *)

(** One folder, [toys/2/], with two instances on two variables; two
    strategies; two constraints which an infeasible solution violates by
    0.3 and by 0.7; an eigen-solver that answers 0, 0, 1, 2. *)
Module Toy.

Definition con_a : Constraint.t :=
  {| Constraint.evaluate := fun _ => 13 # 10; Constraint.rhs := 1 |}.

Definition con_b : Constraint.t :=
  {| Constraint.evaluate := fun _ => 0.7; Constraint.rhs := 0 |}.

Definition feasible (x : list Z) : bool := bool_decide (x = [1%Z; 0%Z]).

Definition qp : QuadraticProgram.t :=
  {| QuadraticProgram.name := "";
     QuadraticProgram.is_feasible := feasible;
     QuadraticProgram.get_feasibility_info := fun x =>
       (feasible x, [], if feasible x then [] else [con_a; con_b]) |}.

Definition exact : OptimizationResult.t :=
  {| OptimizationResult.status := SUCCESS;
     OptimizationResult.fval := 5 # 2;
     OptimizationResult.x := [1; 0] |}.

Definition quantum (strategy : string) : OptimizationResult.t * Q * Q :=
  if String.eqb strategy "our_M"
  then ({| OptimizationResult.status := SUCCESS;
           OptimizationResult.fval := 7 # 2;
           OptimizationResult.x := [0.9; 0.2] |}, 2, 1 # 3)
  else ({| OptimizationResult.status := SUCCESS;
           OptimizationResult.fval := 2.6;
           OptimizationResult.x := [1; 1] |}, 3, 1 # 4).

Definition problem (raw : Q) (H Hc : list Q) : Problem.t :=
  {| Problem.qp := qp;
     Problem.solve_exact := exact;
     Problem.solve_quantum := quantum;
     Problem.get_obj_hamiltonian := H;
     Problem.get_constraint_hamiltonian := Hc;
     Problem.get_gap_total := fun _ _ _ => raw |}.

(** Every file holds the same problem: gap metric 1, H and Hc on the four
    states of two variables. *)
Definition read_problem (filename : string) : Problem.t :=
  problem 1 [0; 1; 2; 3] [0; 1; 0; 1].





Definition initial_hamiltonian_adiabatic (bvars : nat) : matrix :=
  [ [0; 1; 1; 0]; [1; 0; 0; 1]; [1; 0; 0; 1]; [0; 1; 1; 0] ].

Definition eigvalsh (m : matrix) : list Q := [0; 0; 1; 2].

Definition listdir (folder : string) : result (list string) :=
  if String.eqb folder "toys/2/" then Ok ["b.lp"; "a.lp"]
  else if String.eqb folder "few/2/" then Ok ["a.lp"; "b.lp"; "c.lp"]
  else Raise OSError.

Definition M_strategies : list string := ["our_M"; "qiskit_M"].

(** The batch over [toys] with the three analyses. *)
Definition batch : result Datas.t * State :=
  run_test read_problem initial_hamiltonian_adiabatic eigvalsh listdir
    "toys" [2%nat] 2 M_strategies true true true.

(** The state a call of [run_instance] or of [evaluate_feasibility]
    starts from. *)
Definition fresh : State :=
  {| data := Datas_new [2%nat] 2 2; written := [] |}.

End Toy.

(** ** The sweep over the mixing weights and the script's own run *)

(** Sequencing of computations that may raise but touch no state. *)
Definition result_bind {A B} (r : result A) (k : A -> result B) : result B :=
  match r with
  | Ok a => k a
  | Raise e => Raise e
  end.

(** [for k in l: acc = body(k, acc)] without state. *)
Fixpoint for_result {A} (l : list nat) (body : nat -> A -> result A) (acc : A)
    : result A :=
  match l with
  | [] => Ok acc
  | k :: r => result_bind (body k acc) (for_result r body)
  end.

(** [np.linspace(start, stop, num)]: [arange(0, num)*step + start] with
    [step = (stop - start)/(num - 1)], the last entry set to [stop]; with one
    entry there is no step and the entry is [0*(stop - start) + start]. *)
Definition np_linspace (start stop : Q) (num : nat) : list Q :=
  match num with
  | O => []
  | S O => [0 * (stop - start) + start]
  | S div =>
      let step := (stop - start) / inject_Z (Z.of_nat div) in
      map (fun i => inject_Z (Z.of_nat i) * step + start) (seq 0 div) ++ [stop]
  end.

(** [(1-a)*H_0 + a*np.diag(H)] *)
Definition mix_at (a : Q) (H_0 : matrix) (H : list Q) : result matrix :=
  mat_add (mat_scale (1 - a) H_0) (mat_scale a (np_diag H)).

Section Sweep.

Variable eigvalsh : matrix -> list Q.

(** The squeezed gap of the mixture at the weight [a]. *)
Definition gap_at (H_0 : matrix) (H : list Q) (a : Q) : result Q :=
  result_bind (mix_at a H_0 H) (fun H_mix =>
  squeezed_gap (np_unique (eigvalsh H_mix))).

(** One iteration of [for i in range(n_alphas)] in [gaps_various_alphas]. *)
Definition sweep_step (H_0 : matrix) (H : list Q) (alphas : list Q)
    (i : nat) (gaps : list Q) : result (list Q) :=
  result_bind (item alphas i) (fun a =>
  result_bind (gap_at H_0 H a) (fun g =>
  if (i <? length gaps)%nat then Ok (<[i := g]> gaps) else Raise IndexError)).

Definition gaps_various_alphas (n_alphas : nat) (H_0 : matrix) (H : list Q)
    : result (list Q) :=
  let alphas := np_linspace 0.9 1 n_alphas in
  let gaps := replicate n_alphas 0 in
  for_result (seq 0 n_alphas) (sweep_step H_0 H alphas) gaps.

End Sweep.

(** [np.arange(start, stop, step)] on naturals, for a positive [step]. *)
Definition np_arange (start stop step : nat) : list nat :=
  map (fun k => (start + k * step)%nat) (seq 0 ((stop - start + step - 1) / step)).

Section Main.

Variable read_problem : string -> Problem.t.
Variable initial_hamiltonian_adiabatic : nat -> matrix.
Variable eigvalsh : matrix -> list Q.
Variable listdir : string -> result (list string).

(** The run at the bottom of the script: the sizes 6 and 16, five samples,
    the strategy [improved_M] (the second assignment of [M_strategies]
    replaces the first), no gap analysis. *)
Definition main : result Datas.t * State :=
  let bvars := np_arange 6 17 10 in
  let n_samples := 5%nat in
  let M_strategies := ["improved_M"] in
  let test_set := "../../toys/NN_linear_deg5" in
  run_test read_problem initial_hamiltonian_adiabatic eigvalsh listdir
    test_set bvars n_samples M_strategies false false false.

End Main.

(** ** Notions of the further properties *)

(** [confined c P]: whatever the outcome of [c], every write it makes
    satisfies [P] and no cell whose write does not satisfy [P] changes. *)
Definition confined {A} (c : Exec A) (P : write -> Prop) : Prop :=
  forall st,
    (exists evs, written (c st).2 = written st ++ evs /\ Forall P evs)
    /\ same_layout (data st) (data (c st).2)
    /\ forall w, ~ P w -> peek (data (c st).2) w = peek (data st) w.

(** The writes the analysis flags allow: the raw gap needs
    [analyze_gaps], the normalized gap [analyze_gaps_qite] as well, the
    minimal gap the three of them. *)
Definition allowed (analyze_gaps analyze_gaps_qite analyze_gaps_adiabatic : bool)
    (w : write) : Prop :=
  match w.1 with
  | Fgap => analyze_gaps = true
  | Fgap_norm => analyze_gaps = true /\ analyze_gaps_qite = true
  | Fgap_minimal =>
      analyze_gaps = true /\ analyze_gaps_qite = true /\ analyze_gaps_adiabatic = true
  | _ => True
  end.


(** The collection still has the sizes, the shapes and the initial values
    it was allocated with. *)
Definition allocated (bvars : list nat) (n_samples n_M_strategies : nat) (d : Datas.t)
    : Prop :=
  Datas.bvars d = bvars
  /\ forall f, layout d f = layout (Datas_new bvars n_samples n_M_strategies) f.

Section Verdicts.

Variable read_problem : string -> Problem.t.
Variable listdir : string -> result (list string).

(** A write into a feasibility array agrees with the verdict on the
    solution of its slot: the flag is written for a feasible solution only,
    the count and the maximum violation for an infeasible one only. *)
Definition agrees_with_verdict (test_set : string) (bvars : list nat) (n_samples : nat)
    (M_strategies : list string) (w : write) : Prop :=
  forall i sample k n_qubs p strategy,
    addressed w = Some (i, sample, k) ->
    batch_sample read_problem listdir test_set bvars n_samples i sample n_qubs p ->
    M_strategies !! k = Some strategy ->
    match w.1 with
    | Fis_feasible =>
        QuadraticProgram.is_feasible (Problem.qp p) (solution_row n_qubs p strategy)
        = true
    | Fn_violations | Fmax_violation =>
        QuadraticProgram.is_feasible (Problem.qp p) (solution_row n_qubs p strategy)
        = false
    | _ => True
    end.

End Verdicts.

(** ** Further fixtures *)

Module Cases.

(** An eigen-solver that finds one eigenvalue only. *)
Definition eigvalsh_flat (m : matrix) : list Q := [1; 1].

(** A problem on two variables whose solver answers with three entries. *)
Definition long : Problem.t :=
  {| Problem.qp := Toy.qp;
     Problem.solve_exact := Toy.exact;
     Problem.solve_quantum := fun _ =>
       ({| OptimizationResult.status := SUCCESS;
           OptimizationResult.fval := 7 # 2;
           OptimizationResult.x := [1; 0; 1] |}, 2, 1 # 3);
     Problem.get_obj_hamiltonian := [0; 1; 2; 3];
     Problem.get_constraint_hamiltonian := [0; 1; 0; 1];
     Problem.get_gap_total := fun _ _ _ => 1 |}.

(** A problem whose two solvers find the integral objective values 3
    and 4. *)
Definition read_whole (filename : string) : Problem.t :=
  {| Problem.qp := Toy.qp;
     Problem.solve_exact :=
       {| OptimizationResult.status := SUCCESS;
          OptimizationResult.fval := 3;
          OptimizationResult.x := [1; 0] |};
     Problem.solve_quantum := fun _ =>
       ({| OptimizationResult.status := SUCCESS;
           OptimizationResult.fval := 4;
           OptimizationResult.x := [1; 1] |}, 2, 1 # 3);
     Problem.get_obj_hamiltonian := [0; 1; 2; 3];
     Problem.get_constraint_hamiltonian := [0; 1; 0; 1];
     Problem.get_gap_total := fun _ _ _ => 1 |}.

(** The file system of the small test set, every listing reversed. *)
Definition listdir_reversed (folder : string) : result (list string) :=
  match Toy.listdir folder with
  | Ok l => Ok (reverse l)
  | Raise e => Raise e
  end.

(** The file system of the small test set with other files after the
    first two of [few/2/]. *)
Definition listdir_surplus (folder : string) : result (list string) :=
  if String.eqb folder "few/2/" then Ok ["z.lp"; "b.lp"; "y.lp"; "a.lp"]
  else Toy.listdir folder.

(** The two folders the script's own run reads, with five and with six
    files. *)
Definition listdir_script (folder : string) : result (list string) :=
  if String.eqb folder "../../toys/NN_linear_deg5/6/"
  then Ok ["e.lp"; "d.lp"; "c.lp"; "b.lp"; "a.lp"]
  else if String.eqb folder "../../toys/NN_linear_deg5/16/"
  then Ok ["a.lp"; "b.lp"; "c.lp"; "d.lp"; "e.lp"; "f.lp"]
  else Raise OSError.

(** Problems whose solver answers with six entries for a file of the first
    folder and with sixteen for any other file. *)
Definition read_sized (filename : string) : Problem.t :=
  let n := if String.prefix "../../toys/NN_linear_deg5/6/" filename
           then 6%nat else 16%nat in
  {| Problem.qp := Toy.qp;
     Problem.solve_exact := Toy.exact;
     Problem.solve_quantum := fun _ =>
       ({| OptimizationResult.status := SUCCESS;
           OptimizationResult.fval := 7 # 2;
           OptimizationResult.x := replicate n 1 |}, 2, 1 # 3);
     Problem.get_obj_hamiltonian := [];
     Problem.get_constraint_hamiltonian := [];
     Problem.get_gap_total := fun _ _ _ => 1 |}.

End Cases.

(** [confined_on B c P]: [confined c P] on the states whose collection
    has the sizes [B]. *)
Definition confined_on {A} (B : list nat) (c : Exec A) (P : write -> Prop) : Prop :=
  forall st,
    Datas.bvars (data st) = B ->
    (exists evs, written (c st).2 = written st ++ evs /\ Forall P evs)
    /\ same_layout (data st) (data (c st).2)
    /\ forall w, ~ P w -> peek (data (c st).2) w = peek (data st) w.

(** * Properties *)

(** ** Rounding *)

Lemma astype_int_range (z : Z) : (int64_min <= astype_int z < 2 ^ 63)%Z.
Proof.
  unfold astype_int.
  destruct (Z.leb_spec int64_min z), (Z.ltb_spec z (2 ^ 63)); simpl;
    unfold int64_min in *; lia.
Qed.

Lemma astype_int_fits (z : Z) : (int64_min <= z < 2 ^ 63)%Z -> astype_int z = z.
Proof.
  intros [Hlo Hhi]. unfold astype_int.
  by rewrite (proj2 (Z.leb_le _ _) Hlo), (proj2 (Z.ltb_lt _ _) Hhi).
Qed.

Lemma rint_nearest (q : Q) : Qabs (q - inject_Z (rint q)) <= 1 # 2.
Proof.
  pose proof (Qfloor_le q) as Hlo. pose proof (Qlt_floor q) as Hhi.
  rewrite inject_Z_plus in Hhi. change (inject_Z 1) with 1 in Hhi.
  apply Qabs_Qle_condition. unfold rint.
  destruct (Qcompare_spec (q - inject_Z (Qfloor q)) (1 # 2)) as [He|Hl|Hg].
  - destruct (Z.even (Qfloor q)).
    + split; lra.
    + rewrite inject_Z_plus. change (inject_Z 1) with 1. split; lra.
  - split; lra.
  - rewrite inject_Z_plus. change (inject_Z 1) with 1. split; lra.
Qed.

(** ** Minimum, maximum and distinct values *)

Lemma Qmin_cases a b : Qmin a b = a \/ Qmin a b = b.
Proof. unfold Qmin, GenericMinMax.gmin. destruct (Qcompare a b); auto. Qed.

Lemma Qmax_cases a b : Qmax a b = a \/ Qmax a b = b.
Proof. unfold Qmax, GenericMinMax.gmax. destruct (Qcompare a b); auto. Qed.

Lemma foldl_Qmin_spec (r : list Q) (a : Q) :
  foldl Qmin a r ∈ a :: r /\ forall e, e ∈ a :: r -> foldl Qmin a r <= e.
Proof.
  revert a. induction r as [|b r IH]; intros a; cbn [foldl].
  - split; [left|]. intros e ->%list_elem_of_singleton. apply Qle_refl.
  - destruct (IH (Qmin a b)) as [Hin Hle]. split.
    + apply elem_of_cons in Hin as [->|Hin].
      * destruct (Qmin_cases a b) as [-> | ->]; [left | right; left].
      * by do 2 right.
    + intros e He. apply elem_of_cons in He as [->|He].
      * eapply Qle_trans; [apply Hle; left | apply Q.le_min_l].
      * apply elem_of_cons in He as [->|He].
        -- eapply Qle_trans; [apply Hle; left | apply Q.le_min_r].
        -- apply Hle. by right.
Qed.

Lemma foldl_Qmax_spec (r : list Q) (a : Q) :
  foldl Qmax a r ∈ a :: r /\ forall e, e ∈ a :: r -> e <= foldl Qmax a r.
Proof.
  revert a. induction r as [|b r IH]; intros a; cbn [foldl].
  - split; [left|]. intros e ->%list_elem_of_singleton. apply Qle_refl.
  - destruct (IH (Qmax a b)) as [Hin Hle]. split.
    + apply elem_of_cons in Hin as [->|Hin].
      * destruct (Qmax_cases a b) as [-> | ->]; [left | right; left].
      * by do 2 right.
    + intros e He. apply elem_of_cons in He as [->|He].
      * eapply Qle_trans; [apply Q.le_max_l | apply Hle; left].
      * apply elem_of_cons in He as [->|He].
        -- eapply Qle_trans; [apply Q.le_max_r | apply Hle; left].
        -- apply Hle. by right.
Qed.

(** [np.min] returns an entry that is below every entry. *)
Lemma np_min_spec (v : list Q) (m : Q) :
  np_min v = Ok m -> m ∈ v /\ forall e, e ∈ v -> m <= e.
Proof.
  destruct v as [|a r]; [discriminate|]. intros [= <-]. apply foldl_Qmin_spec.
Qed.

(** [np.max] returns an entry that is above every entry. *)
Lemma np_max_spec (v : list Q) (m : Q) :
  np_max v = Ok m -> m ∈ v /\ forall e, e ∈ v -> e <= m.
Proof.
  destruct v as [|a r]; [discriminate|]. intros [= <-]. apply foldl_Qmax_spec.
Qed.

Lemma spectral_width_nonneg (v : list Q) (min_e max_e : Q) :
  np_min v = Ok min_e -> np_max v = Ok max_e -> 0 <= max_e - min_e.
Proof.
  intros [Hin _]%np_min_spec [_ Hle]%np_max_spec.
  specialize (Hle _ Hin). lra.
Qed.

Lemma uinsert_Forall (P : Q -> Prop) (a : Q) (l : list Q) :
  P a -> Forall P l -> Forall P (uinsert a l).
Proof.
  intros Ha. induction 1 as [|b r Hb Hr IH]; simpl.
  - by repeat constructor.
  - destruct (Qcompare a b); repeat constructor; auto.
Qed.

Lemma uinsert_sorted (a : Q) (l : list Q) :
  StronglySorted Qlt l -> StronglySorted Qlt (uinsert a l).
Proof.
  induction 1 as [|b r Hr IH Hb]; simpl.
  - repeat constructor.
  - destruct (Qcompare_spec a b) as [He|Hl|Hg].
    + by constructor.
    + constructor; [by constructor|]. constructor; [done|].
      eapply Forall_impl; [exact Hb|]. intros e He. simpl in He. lra.
    + constructor; [done|]. by apply uinsert_Forall.
Qed.

Lemma uinsert_values (a : Q) (l : list Q) (e : Q) :
  has_value (uinsert a l) e <-> a == e \/ has_value l e.
Proof.
  unfold has_value. induction l as [|b r IH]; simpl.
  - split.
    + intros (e' & ->%list_elem_of_singleton & He). by left.
    + intros [He|(e' & []%elem_of_nil & _)]. exists a. split; [left | done].
  - destruct (Qcompare_spec a b) as [Hab|Hl|Hg].
    + split; [by right|]. intros [He|Hv]; [|done].
      exists b. split; [left|]. by rewrite <- Hab.
    + split.
      * intros (e' & [->|He']%elem_of_cons & He); [by left|]. right. by exists e'.
      * intros [He|(e' & He' & He)].
        -- exists a. split; [left | done].
        -- exists e'. split; [by right | done].
    + split.
      * intros (e' & [->|He']%elem_of_cons & He).
        -- right. exists b. split; [left | done].
        -- destruct (proj1 IH) as [Ha|(e'' & He'' & Hee)]; [by exists e' | by left|].
           right. exists e''. split; [by right | done].
      * intros [He|(e' & [->|He']%elem_of_cons & He)].
        -- destruct (proj2 IH) as (e'' & He'' & Hee); [by left|].
           exists e''. split; [by right | done].
        -- exists b. split; [left | done].
        -- destruct (proj2 IH) as (e'' & He'' & Hee); [right; by exists e'|].
           exists e''. split; [by right | done].
Qed.

(** [np.unique] is strictly ascending ... *)
Lemma np_unique_sorted (v : list Q) : StronglySorted Qlt (np_unique v).
Proof.
  induction v as [|a v IH]; simpl; [constructor | by apply uinsert_sorted].
Qed.

(** ... and holds the numbers of its argument and no other. *)
Lemma np_unique_values (v : list Q) (e : Q) : has_value (np_unique v) e <-> has_value v e.
Proof.
  induction v as [|a v IH]; simpl; [done|].
  rewrite uinsert_values, IH. unfold has_value. split.
  - intros [He|(e' & He' & He)].
    + exists a. split; [left | done].
    + exists e'. split; [by right | done].
  - intros (e' & [->|He']%elem_of_cons & He); [by left|]. right. by exists e'.
Qed.

Lemma sorted_last_max (l : list Q) (m : Q) :
  StronglySorted Qlt l -> last l = Some m -> forall e, e ∈ l -> e <= m.
Proof.
  induction 1 as [|b r Hr IH Hb]; [done|].
  intros Hlast e He. destruct r as [|c r].
  - injection Hlast as <-. apply list_elem_of_singleton in He as ->. apply Qle_refl.
  - change (last (b :: c :: r)) with (last (c :: r)) in Hlast.
    apply elem_of_cons in He as [->|He]; [|by apply IH].
    apply Qlt_le_weak. eapply Qlt_le_trans.
    + eapply Forall_forall in Hb; [exact Hb | left].
    + apply IH; [done | left].
Qed.

(** The entries 0, 1 and -1 of [np.unique(v)] are the smallest, the second
    smallest and the largest of the numbers of [v]. *)
Lemma np_unique_extremes (v : list Q) (e0 e1 elast : Q) :
  np_unique v !! 0%nat = Some e0 ->
  np_unique v !! 1%nat = Some e1 ->
  last (np_unique v) = Some elast ->
  has_value v e0 /\ has_value v e1 /\ has_value v elast
  /\ (forall e, e ∈ v -> e0 <= e /\ e <= elast)
  /\ e0 < e1
  /\ (forall e, e ∈ v -> e0 < e -> e1 <= e).
Proof.
  intros H0 H1 Hlast.
  pose proof (np_unique_sorted v) as Hs.
  pose proof (np_unique_values v) as Hv.
  assert (forall e, e ∈ np_unique v -> has_value v e) as Hfrom.
  { intros e He. apply Hv. exists e. split; [done | reflexivity]. }
  split; [apply Hfrom; by eapply list_elem_of_lookup_2|].
  split; [apply Hfrom; by eapply list_elem_of_lookup_2|].
  assert (elast ∈ np_unique v) as Hin_last.
  { apply last_Some in Hlast as [l' ->]. apply elem_of_app. right. left. }
  split; [by apply Hfrom|].
  pose proof (sorted_last_max _ _ Hs Hlast) as Hmax.
  destruct (np_unique v) as [|a [|b r]]; [done..|].
  injection H0 as ->. injection H1 as ->.
  inversion Hs as [|? ? Hs' Hall]; subst.
  inversion Hs' as [|? ? Hs'' Hall']; subst.
  assert (forall e, e ∈ v -> exists e', e' ∈ e0 :: e1 :: r /\ e' == e) as Hto.
  { intros e He. apply Hv. exists e. split; [done | reflexivity]. }
  split; [|split].
  - intros e He. destruct (Hto e He) as (e' & He' & Hee). split.
    + apply elem_of_cons in He' as [->|He']; [lra|].
      eapply Forall_forall in Hall; [|exact He']. lra.
    + specialize (Hmax e' He'). lra.
  - by inversion Hall.
  - intros e He Hlt. destruct (Hto e He) as (e' & He' & Hee).
    apply elem_of_cons in He' as [->|He']; [lra|].
    apply elem_of_cons in He' as [->|He']; [lra|].
    eapply Forall_forall in Hall'; [|exact He']. lra.
Qed.

Lemma squeezed_gap_Ok (evs : list Q) (gm : Q) :
  squeezed_gap evs = Ok gm ->
  exists e0 e1 elast,
    evs !! 0%nat = Some e0 /\ evs !! 1%nat = Some e1 /\ last evs = Some elast
    /\ gm = (e1 - e0) / (elast - e0).
Proof.
  unfold squeezed_gap, item, item_last.
  destruct (evs !! 1%nat) as [e1|]; [|discriminate].
  destruct (evs !! 0%nat) as [e0|]; [|discriminate].
  destruct (last evs) as [elast|]; [|discriminate].
  intros [= <-]. by exists e0, e1, elast.
Qed.

(** ** The largest violation *)

Lemma Qgtb_true (a b : Q) : Qgtb a b = true <-> b < a.
Proof.
  unfold Qgtb. rewrite negb_true_iff, <- not_true_iff_false, Qle_bool_iff.
  split; [apply Qnot_le_lt | apply Qlt_not_le].
Qed.

Lemma Qgtb_false (a b : Q) : Qgtb a b = false <-> a <= b.
Proof.
  unfold Qgtb. rewrite negb_false_iff. apply Qle_bool_iff.
Qed.

Lemma max_viol_from (x : list Z) (V : list Constraint.t) (m : Q) :
  m <= foldl (max_viol_step x) m V
  /\ (forall c, c ∈ V -> violation_of x c <= foldl (max_viol_step x) m V)
  /\ (foldl (max_viol_step x) m V = m
      \/ exists c, c ∈ V /\ foldl (max_viol_step x) m V = violation_of x c).
Proof.
  revert m. induction V as [|c V IH]; intros m; cbn [foldl].
  - split; [apply Qle_refl|]. split; [|by left]. intros c Hc. by apply elem_of_nil in Hc.
  - change (max_viol_step x m c)
      with (if Qgtb (violation_of x c) m then violation_of x c else m).
    destruct (Qgtb (violation_of x c) m) eqn:Hcmp.
    + apply Qgtb_true in Hcmp.
      destruct (IH (violation_of x c)) as (Hge & Hall & Hin).
      split; [lra|]. split.
      * intros c' [->|Hc']%elem_of_cons; [done | by apply Hall].
      * right. destruct Hin as [->|(c' & Hc' & ->)].
        -- exists c. split; [left | done].
        -- exists c'. split; [by right | done].
    + apply Qgtb_false in Hcmp.
      destruct (IH m) as (Hge & Hall & Hin).
      split; [done|]. split.
      * intros c' [->|Hc']%elem_of_cons; [lra | by apply Hall].
      * destruct Hin as [->|(c' & Hc' & ->)]; [by left|].
        right. exists c'. split; [by right | done].
Qed.

(** [max_viol_loop] returns the maximum of the violations: it bounds each
    of them and is one of them (it is 0 when there is none). *)
Lemma max_viol_loop_max (x : list Z) (V : list Constraint.t) :
  (forall c, c ∈ V -> violation_of x c <= max_viol_loop x V)
  /\ (V <> [] -> exists c, c ∈ V /\ max_viol_loop x V == violation_of x c)
  /\ (V = [] -> max_viol_loop x V = 0).
Proof.
  destruct (max_viol_from x V 0) as (Hge & Hall & Hin).
  unfold max_viol_loop. split; [done|]. split; [|by intros ->].
  intros Hne. destruct Hin as [H0|(c & Hc & Hr)].
  - destruct V as [|c V]; [done|]. exists c. split; [left|].
    pose proof (Hall c (list_elem_of_here _ _)) as Hle.
    pose proof (Qabs_nonneg (Constraint.evaluate c x - Constraint.rhs c)) as Hnn.
    fold (violation_of x c) in Hnn. rewrite H0 in Hle |- *. lra.
  - exists c. split; [done|]. rewrite Hr. reflexivity.
Qed.

(** ** Sequencing *)

Lemma bind_Ok {A B} (c : Exec A) (k : A -> Exec B) st b st' :
  bind c k st = (Ok b, st') ->
  exists a st1, c st = (Ok a, st1) /\ k a st1 = (Ok b, st').
Proof.
  unfold bind. destruct (c st) as [[a|e] st1]; [eauto | discriminate].
Qed.

Lemma lift_Ok {A} (r : result A) st a st' :
  lift r st = (Ok a, st') -> r = Ok a /\ st' = st.
Proof. unfold lift. by intros [= -> ->]. Qed.

Lemma ret_Ok {A} (a0 : A) st a st' : ret a0 st = (Ok a, st') -> a = a0 /\ st' = st.
Proof. unfold ret. by intros [= -> ->]. Qed.

Lemma store_Ok {V} f (proj : Datas.t -> ndarray V) upd idx v st u st' :
  store f proj upd idx v st = (Ok u, st') ->
  in_bounds (shape (proj (data st))) idx = true
  /\ st' = {| data := upd (data st)
                {| shape := shape (proj (data st)); fill := fill (proj (data st));
                   cells := <[idx := v]> (cells (proj (data st))) |};
              written := written st ++ [(f, idx)] |}.
Proof.
  unfold store, nd_set. destruct (in_bounds _ idx); [|discriminate].
  by intros [= _ <-].
Qed.

Lemma store_in_bounds {V} f (proj : Datas.t -> ndarray V) upd idx v st :
  in_bounds (shape (proj (data st))) idx = true ->
  store f proj upd idx v st
  = (Ok tt, {| data := upd (data st)
                 {| shape := shape (proj (data st)); fill := fill (proj (data st));
                    cells := <[idx := v]> (cells (proj (data st))) |};
               written := written st ++ [(f, idx)] |}).
Proof. intros Hb. unfold store, nd_set. by rewrite Hb. Qed.

(** ** What a computation can touch *)

Lemma same_layout_refl d : same_layout d d.
Proof. by split. Qed.

Lemma same_layout_trans d1 d2 d3 :
  same_layout d1 d2 -> same_layout d2 d3 -> same_layout d1 d3.
Proof.
  intros [Hb1 Hl1] [Hb2 Hl2]. split; [congruence|].
  intros f. by rewrite Hl2, Hl1.
Qed.

Lemma touches_pure {A} (r : State -> result A) ws : touches (fun st => (r st, st)) ws.
Proof.
  intros st. simpl. split; [|split; [apply same_layout_refl | done]].
  exists []. split; [by rewrite app_nil_r | apply sublist_nil_l].
Qed.

Lemma touches_ret {A} (a : A) ws : touches (ret a) ws.
Proof. apply (touches_pure (fun _ => Ok a)). Qed.

Lemma touches_raise {A} e ws : touches (@raise A e) ws.
Proof. apply (touches_pure (fun _ => Raise e)). Qed.

Lemma touches_lift {A} (r : result A) ws : touches (lift r) ws.
Proof. apply (touches_pure (fun _ => r)). Qed.

Lemma touches_load {V} (proj : Datas.t -> ndarray V) idx ws : touches (load proj idx) ws.
Proof. apply (touches_pure (fun st => nd_get (proj (data st)) idx)). Qed.

Lemma touches_weaken {A} (c : Exec A) ws ws' :
  ws `sublist_of` ws' -> touches c ws -> touches c ws'.
Proof.
  intros Hsub Hc st. destruct (Hc st) as ((evs & Hw & Hevs) & Hl & Hfr).
  split; [|split; [done|]].
  - exists evs. split; [done|]. by etrans.
  - intros w Hw'. apply Hfr. intros Hin. apply Hw'. by eapply elem_of_sublist.
Qed.

Lemma touches_bind {A B} (c : Exec A) (k : A -> Exec B) ws1 ws2 :
  touches c ws1 -> (forall a, touches (k a) ws2) -> touches (bind c k) (ws1 ++ ws2).
Proof.
  intros Hc Hk st. destruct (Hc st) as ((evs1 & Hw1 & Hs1) & Hl1 & Hfr1).
  unfold bind. destruct (c st) as [[a|e] st1]; simpl in *.
  - destruct (Hk a st1) as ((evs2 & Hw2 & Hs2) & Hl2 & Hfr2).
    split; [|split].
    + exists (evs1 ++ evs2). split; [by rewrite Hw2, Hw1, app_assoc|].
      by apply sublist_app.
    + by eapply same_layout_trans.
    + intros w Hw. rewrite Hfr2, Hfr1; [done| |];
        intros Hin; apply Hw, elem_of_app; auto.
  - split; [|split; [done|]].
    + exists evs1. split; [done|]. by apply sublist_inserts_r.
    + intros w Hw. apply Hfr1. intros Hin. apply Hw, elem_of_app; auto.
Qed.

Lemma touches_bind_last {A B} (c : Exec A) (k : A -> Exec B) ws :
  touches c ws -> (forall a, touches (k a) []) -> touches (bind c k) ws.
Proof.
  intros Hc Hk. rewrite <- (app_nil_r ws). by apply touches_bind.
Qed.

Lemma touches_for_acc {A} (l : list nat) (body : nat -> A -> Exec A)
    (ws : nat -> list write) :
  (forall k acc, k ∈ l -> touches (body k acc) (ws k)) ->
  forall acc, touches (for_acc l body acc) (l ≫= ws).
Proof.
  induction l as [|k l IH]; intros Hbody acc.
  - apply touches_ret.
  - simpl. apply touches_bind.
    + apply Hbody. left.
    + intros acc'. apply IH. intros k' acc'' Hk'. apply Hbody. by right.
Qed.

Lemma touches_for_range (n : nat) (body : nat -> Exec unit) (ws : nat -> list write) :
  (forall k, (k < n)%nat -> touches (body k) (ws k)) ->
  touches (for_range n body) (seq 0 n ≫= ws).
Proof.
  intros Hbody. apply touches_for_acc. intros k _ Hk. apply Hbody.
  apply elem_of_seq in Hk. lia.
Qed.

Ltac store_touches :=
  intros st;
  unfold store_fval, store_M, store_time, store_gap, store_gap_norm, store_gap_minimal,
    store_is_feasible, store_n_violations, store_max_violation, store, nd_set; simpl;
  match goal with |- context [in_bounds ?s ?i] => destruct (in_bounds s i) end; simpl;
  [ split; [eexists [_]; split; [reflexivity | apply sublist_skip, sublist_nil_l]|];
    split; [split; [reflexivity | by intros []]|];
    intros [f' idx'] Hw; unfold peek; destruct f'; simpl; try reflexivity;
    rewrite lookup_insert_ne; [reflexivity|];
    intros ->; apply Hw; left
  | split; [exists []; split; [by rewrite app_nil_r | apply sublist_nil_l]|];
    split; [apply same_layout_refl | done] ].

Lemma touches_store_fval idx v : touches (store_fval idx v) [(Ffval, idx)].
Proof. store_touches. Qed.
Lemma touches_store_M idx v : touches (store_M idx v) [(FM, idx)].
Proof. store_touches. Qed.
Lemma touches_store_time idx v : touches (store_time idx v) [(Ftime, idx)].
Proof. store_touches. Qed.
Lemma touches_store_gap idx v : touches (store_gap idx v) [(Fgap, idx)].
Proof. store_touches. Qed.
Lemma touches_store_gap_norm idx v : touches (store_gap_norm idx v) [(Fgap_norm, idx)].
Proof. store_touches. Qed.
Lemma touches_store_gap_minimal idx v :
  touches (store_gap_minimal idx v) [(Fgap_minimal, idx)].
Proof. store_touches. Qed.
Lemma touches_store_is_feasible idx v :
  touches (store_is_feasible idx v) [(Fis_feasible, idx)].
Proof. store_touches. Qed.
Lemma touches_store_n_violations idx v :
  touches (store_n_violations idx v) [(Fn_violations, idx)].
Proof. store_touches. Qed.
Lemma touches_store_max_violation idx v :
  touches (store_max_violation idx v) [(Fmax_violation, idx)].
Proof. store_touches. Qed.

Lemma touches_evaluate_feasibility p x i0 i1 i2 :
  touches (evaluate_feasibility p x (i0, i1, i2)) (feasibility_writes i0 i1 i2).
Proof.
  unfold evaluate_feasibility, feasibility_writes.
  destruct (QuadraticProgram.is_feasible (Problem.qp p) x).
  - eapply touches_weaken; [|apply touches_store_is_feasible].
    apply sublist_skip, sublist_nil_l.
  - eapply touches_weaken;
      [|apply (touches_bind _ _ [(Fn_violations, [i0; i1; i2])]
                 [(Fmax_violation, [i0; i1; i2])])].
    + apply sublist_cons. reflexivity.
    + apply touches_store_n_violations.
    + intros _. apply touches_store_max_violation.
Qed.

Section ScriptTouches.

Variable read_problem : string -> Problem.t.
Variable initial_hamiltonian_adiabatic : nat -> matrix.
Variable eigvalsh : matrix -> list Q.
Variable listdir : string -> result (list string).

Lemma touches_analyze p bvars i0 i1 M_idx M qite adiabatic b :
  touches (analyze initial_hamiltonian_adiabatic eigvalsh p bvars i0 i1 M_idx M
             qite adiabatic b)
    [ (Fgap, [i0; i1; M_idx]); (Fgap_norm, [i0; i1; M_idx]);
      (Fgap_minimal, [i0; i1; M_idx]) ].
Proof.
  unfold analyze.
  apply (touches_bind _ _ [(Fgap, [i0; i1; M_idx])]
           [(Fgap_norm, [i0; i1; M_idx]); (Fgap_minimal, [i0; i1; M_idx])]);
    [apply touches_store_gap|]. intros _.
  destruct qite; [|apply touches_ret].
  apply (touches_bind _ _ [] _); [apply touches_lift|]. intros H'.
  apply (touches_bind _ _ [] _); [apply touches_lift|]. intros min_e.
  apply (touches_bind _ _ [] _); [apply touches_lift|]. intros max_e.
  apply (touches_bind _ _ [] _); [apply touches_load|]. intros g.
  apply (touches_bind _ _ [(Fgap_norm, [i0; i1; M_idx])]
           [(Fgap_minimal, [i0; i1; M_idx])]);
    [apply touches_store_gap_norm|]. intros _.
  destruct adiabatic; [|apply touches_ret].
  apply (touches_bind _ _ [] _); [apply touches_lift|]. intros H_mix.
  apply (touches_bind _ _ [] _); [apply touches_lift|]. intros gm.
  apply (touches_bind _ _ [(Fgap_minimal, [i0; i1; M_idx])] []);
    [apply touches_store_gap_minimal|]. intros _. apply touches_ret.
Qed.

Lemma touches_strategy_step p c_res bvars M_strategies i0 i1 a b c M_idx loc :
  touches (strategy_step initial_hamiltonian_adiabatic eigvalsh p c_res bvars
             M_strategies i0 i1 a b c M_idx loc)
    (strategy_writes i0 i1 M_idx).
Proof.
  unfold strategy_step, strategy_writes.
  apply (touches_bind _ _ [] _); [apply touches_lift|]. intros strategy.
  destruct (Problem.solve_quantum p strategy) as [[q_res M] t].
  apply (touches_bind _ _ [_] _); [apply touches_store_fval|]. intros _.
  apply (touches_bind _ _ [_] _); [apply touches_store_fval|]. intros _.
  apply (touches_bind _ _ [_] _); [apply touches_store_M|]. intros _.
  apply (touches_bind _ _ [_] _); [apply touches_store_time|]. intros _.
  apply (touches_bind _ _ [] _); [apply touches_lift|]. intros xs'.
  destruct a; [|apply touches_ret].
  apply touches_bind_last; [apply touches_analyze|]. intros b'. apply touches_ret.
Qed.

Lemma touches_run_instance filename M_strategies i0 i1 a b c :
  touches (run_instance read_problem initial_hamiltonian_adiabatic eigvalsh
             filename M_strategies (i0, i1) a b c)
    (instance_writes (length M_strategies) i0 i1).
Proof.
  unfold run_instance, instance_writes.
  apply (touches_bind _ _ [] _);
    [apply (touches_pure (fun st => item (Datas.bvars (data st)) i0))|].
  intros bvars.
  apply touches_bind_last; [|intros loc; apply touches_ret].
  apply touches_for_acc. intros k acc _. apply touches_strategy_step.
Qed.

Lemma touches_sample_step M_strategies a b c i folder files sample :
  touches (sample_step read_problem initial_hamiltonian_adiabatic eigvalsh
             M_strategies a b c i folder files sample)
    (sample_writes (length M_strategies) i sample).
Proof.
  unfold sample_step, sample_writes.
  apply (touches_bind _ _ [] _); [apply touches_lift|]. intros file.
  apply touches_bind; [apply touches_run_instance|]. intros [p xs].
  apply touches_for_range. intros k _.
  apply (touches_bind _ _ [] _); [apply touches_lift|]. intros x.
  apply touches_evaluate_feasibility.
Qed.

Lemma touches_size_step test_set bvars n_samples M_strategies a b c i :
  touches (size_step read_problem initial_hamiltonian_adiabatic eigvalsh listdir
             test_set bvars n_samples M_strategies a b c i)
    (size_writes n_samples (length M_strategies) i).
Proof.
  unfold size_step, size_writes.
  apply (touches_bind _ _ [] _); [apply touches_lift|]. intros n_qubs.
  apply (touches_bind _ _ [] _); [apply touches_lift|]. intros listed.
  destruct (_ <? _)%nat; [apply touches_raise|].
  apply touches_for_range. intros sample _. apply touches_sample_step.
Qed.

Lemma touches_size_loop test_set bvars n_samples M_strategies a b c :
  touches (size_loop read_problem initial_hamiltonian_adiabatic eigvalsh listdir
             test_set bvars n_samples M_strategies a b c)
    (batch_writes (length bvars) n_samples (length M_strategies)).
Proof.
  unfold size_loop, batch_writes.
  apply touches_for_range. intros i _. apply touches_size_step.
Qed.

End ScriptTouches.

(** ** Every write of a batch has an index of its own *)

Lemma strategy_writes_slot i0 i1 M_idx w :
  w ∈ strategy_writes i0 i1 M_idx ->
  addressed w = Some (i0, i1, M_idx) /\ feasibility_field w.1 = false.
Proof.
  unfold strategy_writes. rewrite !elem_of_cons, elem_of_nil.
  intros [->|[->|[->|[->|[->|[->|[->|[]]]]]]]]; by split.
Qed.

Lemma feasibility_writes_slot i0 i1 i2 w :
  w ∈ feasibility_writes i0 i1 i2 ->
  addressed w = Some (i0, i1, i2) /\ feasibility_field w.1 = true.
Proof.
  unfold feasibility_writes. rewrite !elem_of_cons, elem_of_nil.
  intros [->|[->|[->|[]]]]; by split.
Qed.

Lemma NoDup_strategy_writes i0 i1 M_idx : NoDup (strategy_writes i0 i1 M_idx).
Proof.
  unfold strategy_writes.
  repeat (apply NoDup_cons; split;
          [intros H; repeat (apply elem_of_cons in H as [H|H]; [done|]);
           by apply elem_of_nil in H|]).
  apply NoDup_nil_2.
Qed.

Lemma NoDup_feasibility_writes i0 i1 i2 : NoDup (feasibility_writes i0 i1 i2).
Proof.
  unfold feasibility_writes.
  repeat (apply NoDup_cons; split;
          [intros H; repeat (apply elem_of_cons in H as [H|H]; [done|]);
           by apply elem_of_nil in H|]).
  apply NoDup_nil_2.
Qed.

Lemma sample_writes_slot n i sample w :
  w ∈ sample_writes n i sample -> exists k, addressed w = Some (i, sample, k).
Proof.
  unfold sample_writes, instance_writes.
  intros [Hw|Hw]%elem_of_app; apply list_elem_of_bind in Hw as (k & Hw & _); exists k.
  - by apply strategy_writes_slot in Hw as [? _].
  - by apply feasibility_writes_slot in Hw as [? _].
Qed.

Lemma size_writes_slot n_samples n i w :
  w ∈ size_writes n_samples n i -> exists s k, addressed w = Some (i, s, k).
Proof.
  unfold size_writes. intros (s & Hw & _)%list_elem_of_bind.
  exists s. by eapply sample_writes_slot.
Qed.

Lemma NoDup_sample_writes n i sample : NoDup (sample_writes n i sample).
Proof.
  unfold sample_writes, instance_writes. apply NoDup_app. split; [|split].
  - apply NoDup_bind; [|intros; apply NoDup_strategy_writes | apply NoDup_seq].
    intros k1 k2 w _ _ [H1 _]%strategy_writes_slot [H2 _]%strategy_writes_slot.
    congruence.
  - intros w (k1 & [_ H1]%strategy_writes_slot & _)%list_elem_of_bind
             (k2 & [_ H2]%feasibility_writes_slot & _)%list_elem_of_bind.
    congruence.
  - apply NoDup_bind; [|intros; apply NoDup_feasibility_writes | apply NoDup_seq].
    intros k1 k2 w _ _ [H1 _]%feasibility_writes_slot [H2 _]%feasibility_writes_slot.
    congruence.
Qed.

Lemma NoDup_size_writes n_samples n i : NoDup (size_writes n_samples n i).
Proof.
  unfold size_writes.
  apply NoDup_bind; [|intros; apply NoDup_sample_writes | apply NoDup_seq].
  intros s1 s2 w _ _ [k1 H1]%sample_writes_slot [k2 H2]%sample_writes_slot.
  congruence.
Qed.

Lemma NoDup_batch_writes n_sizes n_samples n :
  NoDup (batch_writes n_sizes n_samples n).
Proof.
  unfold batch_writes.
  apply NoDup_bind; [|intros; apply NoDup_size_writes | apply NoDup_seq].
  intros i1 i2 w _ _ (s1 & k1 & H1)%size_writes_slot (s2 & k2 & H2)%size_writes_slot.
  congruence.
Qed.

Section Batch.

Variable read_problem : string -> Problem.t.
Variable initial_hamiltonian_adiabatic : nat -> matrix.
Variable eigvalsh : matrix -> list Q.
Variable listdir : string -> result (list string).

Lemma run_test_state test_set bvars n_samples M_strategies a b c :
  (run_test read_problem initial_hamiltonian_adiabatic eigvalsh listdir
     test_set bvars n_samples M_strategies a b c).2
  = (size_loop read_problem initial_hamiltonian_adiabatic eigvalsh listdir
       test_set bvars n_samples M_strategies a b c
       {| data := Datas_new bvars n_samples (length M_strategies); written := [] |}).2.
Proof. unfold run_test. by destruct (size_loop _ _ _ _ _ _ _ _ _ _ _ _) as [[?|?] ?]. Qed.

(** C8: over a whole batch run, whether it ends with the collection or
    with an exception, no position of a results array is written twice:
    the list of the writes made, each an array with an index, has no
    repetition. *)
Theorem run_test_writes_once test_set bvars n_samples M_strategies
    analyze_gaps analyze_gaps_qite analyze_gaps_adiabatic :
  NoDup (written (run_test read_problem initial_hamiltonian_adiabatic eigvalsh listdir
                    test_set bvars n_samples M_strategies
                    analyze_gaps analyze_gaps_qite analyze_gaps_adiabatic).2).
Proof.
  rewrite run_test_state.
  destruct (touches_size_loop read_problem initial_hamiltonian_adiabatic eigvalsh
              listdir test_set bvars n_samples M_strategies
              analyze_gaps analyze_gaps_qite analyze_gaps_adiabatic
              {| data := Datas_new bvars n_samples (length M_strategies);
                 written := [] |}) as ((evs & -> & Hsub) & _).
  simpl. eapply sublist_NoDup; [apply NoDup_batch_writes | done].
Qed.

End Batch.

(** ** The feasibility evaluator *)

(** C5: a call of the evaluator at an index inside the arrays returns
    normally; when the solution is feasible the flag of the slot is set to
    true; otherwise the violation count of the slot is the number of
    violated constraints and its maximum violation is the maximum over the
    violated constraints of |cons.evaluate(x) - cons.rhs|: it bounds all of
    them and is one of them.  With two violations of 0.3 and 0.7, in either
    order, the count is 2 and the maximum is 0.7. *)
Theorem evaluate_feasibility_records p x i0 i1 i2 st :
  in_bounds (shape (Datas.is_feasible (data st))) [i0; i1; i2] = true ->
  in_bounds (shape (Datas.n_violations (data st))) [i0; i1; i2] = true ->
  in_bounds (shape (Datas.max_violation (data st))) [i0; i1; i2] = true ->
  let out := evaluate_feasibility p x (i0, i1, i2) st in
  let V := (QuadraticProgram.get_feasibility_info (Problem.qp p) x).2 in
  out.1 = Ok tt
  /\ (QuadraticProgram.is_feasible (Problem.qp p) x = true ->
      cells (Datas.is_feasible (data out.2)) !! [i0; i1; i2] = Some true)
  /\ (QuadraticProgram.is_feasible (Problem.qp p) x = false ->
      cells (Datas.n_violations (data out.2)) !! [i0; i1; i2] = Some (length V)
      /\ cells (Datas.max_violation (data out.2)) !! [i0; i1; i2]
         = Some (max_viol_loop x V)
      /\ (forall c, c ∈ V -> violation_of x c <= max_viol_loop x V)
      /\ (V <> [] -> exists c, c ∈ V /\ max_viol_loop x V == violation_of x c)
      /\ (forall c1 c2, V = [c1; c2] \/ V = [c2; c1] ->
          violation_of x c1 == 0.3 -> violation_of x c2 == 0.7 ->
          length V = 2%nat /\ max_viol_loop x V == 0.7)).
Proof.
  intros Hb1 Hb2 Hb3 out V. subst out. unfold evaluate_feasibility.
  destruct (QuadraticProgram.is_feasible (Problem.qp p) x) eqn:Hfeas.
  - unfold store_is_feasible. rewrite store_in_bounds by done. simpl.
    split; [done|]. split; [|done]. intros _. apply lookup_insert_eq.
  - unfold bind, store_n_violations, store_max_violation.
    rewrite store_in_bounds by done. rewrite store_in_bounds by done. simpl.
    split; [done|]. split; [done|]. intros _. fold V.
    destruct (max_viol_loop_max x V) as (Hall & Hone & Hnil).
    split; [apply lookup_insert_eq|]. split; [apply lookup_insert_eq|].
    split; [done|]. split; [done|].
    intros c1 c2 HV H1 H2.
    assert (c1 ∈ V /\ c2 ∈ V /\ forall c, c ∈ V -> c = c1 \/ c = c2) as (Hc1 & Hc2 & Hcs).
    { destruct HV as [-> | ->]; rewrite !elem_of_cons; repeat split; auto;
        intros c; rewrite !elem_of_cons, elem_of_nil; tauto. }
    split; [by destruct HV as [-> | ->]|].
    destruct Hone as (c & Hc & Hm); [by destruct HV as [-> | ->]|].
    pose proof (Hall c2 Hc2) as Hge.
    destruct (Hcs c Hc) as [-> | ->]; lra.
Qed.

(** C9: the evaluator leaves every array it has no business with as it
    was.  On a feasible solution the only write it can make is the flag of
    the slot: the counts and the maximum violations are unchanged.  On an
    infeasible solution the only writes it can make are the count and the
    maximum violation of the slot: the flags are unchanged, none is set to
    false.  No other array changes in either case. *)
Theorem evaluate_feasibility_frame p x i0 i1 i2 st :
  let d := data st in
  let st' := (evaluate_feasibility p x (i0, i1, i2) st).2 in
  let d' := data st' in
  Datas.bvars d' = Datas.bvars d /\ Datas.fval d' = Datas.fval d
  /\ Datas.M d' = Datas.M d /\ Datas.time d' = Datas.time d
  /\ Datas.gap d' = Datas.gap d /\ Datas.gap_norm d' = Datas.gap_norm d
  /\ Datas.gap_minimal d' = Datas.gap_minimal d
  /\ (if QuadraticProgram.is_feasible (Problem.qp p) x
      then Datas.n_violations d' = Datas.n_violations d
           /\ Datas.max_violation d' = Datas.max_violation d
           /\ (forall idx, idx <> [i0; i1; i2] ->
               cells (Datas.is_feasible d') !! idx = cells (Datas.is_feasible d) !! idx)
           /\ (written st' = written st
               \/ written st' = written st ++ [(Fis_feasible, [i0; i1; i2])])
      else Datas.is_feasible d' = Datas.is_feasible d
           /\ (forall idx, idx <> [i0; i1; i2] ->
               cells (Datas.n_violations d') !! idx = cells (Datas.n_violations d) !! idx
               /\ cells (Datas.max_violation d') !! idx
                  = cells (Datas.max_violation d) !! idx)
           /\ (written st' = written st
               \/ written st' = written st ++ [(Fn_violations, [i0; i1; i2])]
               \/ written st' = written st ++ [(Fn_violations, [i0; i1; i2]);
                                               (Fmax_violation, [i0; i1; i2])])).
Proof.
  unfold evaluate_feasibility.
  destruct (QuadraticProgram.is_feasible (Problem.qp p) x).
  - unfold store_is_feasible, store, nd_set.
    destruct (in_bounds _ _); simpl; repeat (split; [done|]).
    + split; [|by right]. intros idx Hne. by rewrite lookup_insert_ne.
    + by left.
  - unfold bind, store_n_violations, store_max_violation, store, nd_set.
    destruct (in_bounds (shape (Datas.n_violations (data st))) _); simpl;
      [destruct (in_bounds (shape (Datas.max_violation (data st))) _); simpl|];
      repeat (split; [done|]).
    + split.
      * intros idx Hne. by rewrite !lookup_insert_ne.
      * right; right. by rewrite <- app_assoc.
    + split; [|by right; left].
      intros idx Hne. by rewrite lookup_insert_ne.
    + by left.
Qed.

(** ** What a successful store leaves in its cell *)

Ltac store_peek :=
  unfold store_fval, store_M, store_time, store_gap, store_gap_norm, store_gap_minimal,
    store_is_feasible, store_n_violations, store_max_violation;
  intros [_ ->]%store_Ok; unfold peek; simpl; by rewrite lookup_insert_eq.

Lemma store_fval_peek idx v st u st' :
  store_fval idx v st = (Ok u, st') -> peek (data st') (Ffval, idx) = Some (CNum v).
Proof. store_peek. Qed.
Lemma store_M_peek idx v st u st' :
  store_M idx v st = (Ok u, st') -> peek (data st') (FM, idx) = Some (CNum v).
Proof. store_peek. Qed.
Lemma store_time_peek idx v st u st' :
  store_time idx v st = (Ok u, st') -> peek (data st') (Ftime, idx) = Some (CNum v).
Proof. store_peek. Qed.
Lemma store_gap_peek idx v st u st' :
  store_gap idx v st = (Ok u, st') -> peek (data st') (Fgap, idx) = Some (CNum v).
Proof. store_peek. Qed.
Lemma store_gap_norm_peek idx v st u st' :
  store_gap_norm idx v st = (Ok u, st') -> peek (data st') (Fgap_norm, idx) = Some (CFloat v).
Proof. store_peek. Qed.
Lemma store_gap_minimal_peek idx v st u st' :
  store_gap_minimal idx v st = (Ok u, st') ->
  peek (data st') (Fgap_minimal, idx) = Some (CNum v).
Proof. store_peek. Qed.

Lemma touches_frame {A} (c : Exec A) ws st r st' :
  touches c ws -> c st = (r, st') ->
  forall w, w ∉ ws -> peek (data st') w = peek (data st) w.
Proof. intros Hc Heq. destruct (Hc st) as (_ & _ & Hfr). by rewrite Heq in Hfr. Qed.

Lemma touches_layout {A} (c : Exec A) ws st r st' :
  touches c ws -> c st = (r, st') -> same_layout (data st) (data st').
Proof. intros Hc Heq. destruct (Hc st) as (_ & Hl & _). by rewrite Heq in Hl. Qed.

Lemma load_gap_Ok idx st g st' v :
  load Datas.gap idx st = (Ok g, st') ->
  peek (data st) (Fgap, idx) = Some (CNum v) -> g = v /\ st' = st.
Proof.
  unfold load, nd_get, peek. simpl.
  destruct (in_bounds _ _); [|discriminate]. intros [= <- <-].
  destruct (cells (Datas.gap (data st)) !! idx); simpl; [|discriminate].
  by intros [= ->].
Qed.

Ltac is_written :=
  unfold strategy_writes, feasibility_writes;
  repeat first [apply list_elem_of_here | apply list_elem_of_further].

Ltac not_written :=
  let H := fresh in
  intros H; repeat (apply elem_of_cons in H as [H|H]; [discriminate H|]);
  by apply elem_of_nil in H.

Section Slots.

Variable read_problem : string -> Problem.t.
Variable initial_hamiltonian_adiabatic : nat -> matrix.
Variable eigvalsh : matrix -> list Q.

Lemma analyze_Ok p bvars i0 i1 k M b c beta_in st beta st' :
  analyze initial_hamiltonian_adiabatic eigvalsh p bvars i0 i1 k M b c beta_in st
  = (Ok beta, st') ->
  (k <> 0%nat -> beta = beta_in)
  /\ peek (data st') (Fgap, [i0; i1; k]) = Some (CNum (raw_gap p M))
  /\ (b = true ->
      exists H' min_e max_e,
        combined_hamiltonian p M = Ok H'
        /\ np_min H' = Ok min_e /\ np_max H' = Ok max_e
        /\ peek (data st') (Fgap_norm, [i0; i1; k])
           = Some (CFloat (np_divide (raw_gap p M) (max_e - min_e)))
        /\ (c = true ->
            exists H_mix gm,
              (k = 0%nat -> beta = coupling min_e max_e bvars)
              /\ mixed_hamiltonian initial_hamiltonian_adiabatic beta bvars H' = Ok H_mix
              /\ squeezed_gap (np_unique (eigvalsh H_mix)) = Ok gm
              /\ peek (data st') (Fgap_minimal, [i0; i1; k]) = Some (CNum gm))).
Proof.
  unfold analyze. intros Hrun.
  apply bind_Ok in Hrun as ([] & st1 & Hgap & Hrun).
  pose proof (store_gap_peek _ _ _ _ _ Hgap) as Pgap.
  fold (raw_gap p M) in Pgap.
  destruct b.
  2:{ apply ret_Ok in Hrun as [-> ->]. by repeat split. }
  apply bind_Ok in Hrun as (H' & ? & [HH' ->]%lift_Ok & Hrun).
  apply bind_Ok in Hrun as (min_e & ? & [Hmin ->]%lift_Ok & Hrun).
  apply bind_Ok in Hrun as (max_e & ? & [Hmax ->]%lift_Ok & Hrun).
  apply bind_Ok in Hrun as (g & ? & Hload & Hrun).
  destruct (load_gap_Ok _ _ _ _ _ Hload Pgap) as [-> ->].
  apply bind_Ok in Hrun as ([] & st2 & Hnorm & Hrun).
  pose proof (store_gap_norm_peek _ _ _ _ _ Hnorm) as Pnorm.
  pose proof (touches_frame _ _ _ _ _ (touches_store_gap_norm _ _) Hnorm) as F2.
  destruct c.
  2:{ apply ret_Ok in Hrun as [-> ->]. split; [done|]. split.
      - rewrite F2; [done | not_written].
      - intros _. exists H', min_e, max_e. by repeat split. }
  apply bind_Ok in Hrun as (H_mix & ? & [Hmix ->]%lift_Ok & Hrun).
  apply bind_Ok in Hrun as (gm & ? & [Hgm ->]%lift_Ok & Hrun).
  apply bind_Ok in Hrun as ([] & st3 & Hminimal & Hrun).
  apply ret_Ok in Hrun as [-> ->].
  pose proof (store_gap_minimal_peek _ _ _ _ _ Hminimal) as Pmin.
  pose proof (touches_frame _ _ _ _ _ (touches_store_gap_minimal _ _) Hminimal) as F3.
  split.
  { intros Hk. by destruct k. }
  split.
  { rewrite F3, F2; [done | not_written | not_written]. }
  intros _. exists H', min_e, max_e. repeat (split; [done|]). split.
  { rewrite F3; [done | not_written]. }
  intros _. exists H_mix, gm. split; [by intros ->|]. by repeat split.
Qed.

Lemma item_Ok {A} (l : list A) k a : item l k = Ok a -> l !! k = Some a.
Proof. unfold item. destruct (l !! k); [by intros [= ->] | discriminate]. Qed.

Lemma broadcast_row_Ok bvars row row' :
  broadcast_row bvars row = Ok row' ->
  length row' = bvars
  /\ (length row = bvars /\ row' = row
      \/ exists v, row = [v] /\ row' = replicate bvars v).
Proof.
  unfold broadcast_row. destruct row as [|v [|w r]].
  - destruct (Nat.eqb_spec (length (@nil Z)) bvars) as [He|]; [|discriminate].
    intros [= <-]. split; [done|]. by left.
  - intros [= <-]. split; [apply length_replicate|]. right. by exists v.
  - destruct (Nat.eqb_spec (length (v :: w :: r)) bvars) as [He|]; [|discriminate].
    intros [= <-]. split; [done|]. by left.
Qed.

Lemma broadcast_row_fits bvars row :
  length row = bvars -> broadcast_row bvars row = Ok row.
Proof.
  intros Hlen. unfold broadcast_row. rewrite (proj2 (Nat.eqb_eq _ _) Hlen).
  destruct row as [|v [|w r]]; [done| |done]. by rewrite <- Hlen.
Qed.

Lemma broadcast_row_raise bvars row :
  length row <> bvars -> length row <> 1%nat ->
  broadcast_row bvars row = Raise (ValueError "could not broadcast input array").
Proof.
  intros Hlen Hone. unfold broadcast_row. rewrite (proj2 (Nat.eqb_neq _ _) Hlen).
  by destruct row as [|v [|w r]].
Qed.

Lemma solution_row_Ok bvars p strategy row :
  broadcast_row bvars (rounded_solution p strategy) = Ok row ->
  row = solution_row bvars p strategy.
Proof.
  unfold solution_row, broadcast_row.
  destruct (rounded_solution p strategy) as [|v [|w r]].
  - destruct (_ =? _)%nat; [by intros [= <-] | discriminate].
  - by intros [= <-].
  - destruct (_ =? _)%nat; [by intros [= <-] | discriminate].
Qed.

Lemma assign_row_Ok bvars xs k row xs' :
  assign_row bvars xs k row = Ok xs' ->
  exists row',
    broadcast_row bvars row = Ok row' /\ (k < length xs)%nat /\ xs' = <[k := row']> xs.
Proof.
  unfold assign_row.
  destruct (Nat.ltb_spec k (length xs)); [|discriminate].
  destruct (broadcast_row bvars row) as [row'|e]; [|discriminate].
  intros [= <-]. by exists row'.
Qed.

Lemma strategy_post_frame p c_res bvars a b c i0 i1 k strategy beta d d' :
  (forall w, w ∈ strategy_writes i0 i1 k -> peek d' w = peek d w) ->
  strategy_post initial_hamiltonian_adiabatic eigvalsh p c_res bvars a b c
    i0 i1 k strategy beta d ->
  strategy_post initial_hamiltonian_adiabatic eigvalsh p c_res bvars a b c
    i0 i1 k strategy beta d'.
Proof.
  intros Hfr. unfold strategy_post.
  assert (forall w v, w ∈ strategy_writes i0 i1 k -> peek d w = v -> peek d' w = v)
    as Hmove by (intros w v Hw <-; by apply Hfr).
  intros (P1 & P2 & P3 & P4 & Pa).
  split; [eapply Hmove, P1; is_written|].
  split; [eapply Hmove, P2; is_written|].
  split; [eapply Hmove, P3; is_written|].
  split; [eapply Hmove, P4; is_written|].
  intros Ha. destruct (Pa Ha) as (P5 & Pb).
  split; [eapply Hmove, P5; is_written|].
  intros Hb. destruct (Pb Hb) as (H' & min_e & max_e & HH' & Hmin & Hmax & P6 & Pc).
  exists H', min_e, max_e. repeat (split; [done|]).
  split; [eapply Hmove, P6; is_written|].
  intros Hc. destruct (Pc Hc) as (H_mix & gm & Hbeta & Hmix & Hgm & P7).
  exists H_mix, gm. repeat (split; [done|]).
  eapply Hmove, P7; is_written.
Qed.

Lemma strategy_writes_apart i0 i1 k l w :
  w ∈ strategy_writes i0 i1 k -> k ∉ l -> w ∉ l ≫= strategy_writes i0 i1.
Proof.
  intros [Hw _]%strategy_writes_slot Hk (k' & [Hw' _]%strategy_writes_slot & Hk')
    %list_elem_of_bind.
  apply Hk. congruence.
Qed.

Lemma strategy_step_Ok p c_res bvars M_strategies i0 i1 a b c k loc st loc' st' :
  strategy_step initial_hamiltonian_adiabatic eigvalsh p c_res bvars M_strategies
    i0 i1 a b c k loc st = (Ok loc', st') ->
  exists strategy,
    M_strategies !! k = Some strategy
    /\ strategy_post initial_hamiltonian_adiabatic eigvalsh p c_res bvars a b c
         i0 i1 k strategy (beta_fixed loc') (data st')
    /\ (k <> 0%nat -> beta_fixed loc' = beta_fixed loc)
    /\ (k < length (xs loc))%nat
    /\ broadcast_row bvars (rounded_solution p strategy)
       = Ok (solution_row bvars p strategy)
    /\ xs loc' = <[k := solution_row bvars p strategy]> (xs loc).
Proof.
  unfold strategy_step. intros Hrun.
  apply bind_Ok in Hrun as (strategy & ? & [Hstrat%item_Ok ->]%lift_Ok & Hrun).
  exists strategy. split; [done|]. unfold strategy_post.
  assert (forall row,
            broadcast_row bvars
              (rint_astype_int
                 (OptimizationResult.x (Problem.solve_quantum p strategy).1.1)) = Ok row ->
            broadcast_row bvars (rounded_solution p strategy)
            = Ok (solution_row bvars p strategy)
            /\ row = solution_row bvars p strategy) as Hsol.
  { intros row Hrow. fold (rounded_solution p strategy) in Hrow.
    pose proof (solution_row_Ok _ _ _ _ Hrow) as ->. by split. }
  destruct (Problem.solve_quantum p strategy) as [[q_res M] t]. simpl in Hsol |- *.
  apply bind_Ok in Hrun as ([] & st1 & H1 & Hrun).
  apply bind_Ok in Hrun as ([] & st2 & H2 & Hrun).
  apply bind_Ok in Hrun as ([] & st3 & H3 & Hrun).
  apply bind_Ok in Hrun as ([] & st4 & H4 & Hrun).
  apply bind_Ok in Hrun as (xs' & ? & [Hrow%assign_row_Ok ->]%lift_Ok & Hrun).
  destruct Hrow as (row' & Hlen%Hsol & Hk & ->). destruct Hlen as [Hlen ->].
  pose proof (store_fval_peek _ _ _ _ _ H1) as P1.
  pose proof (store_fval_peek _ _ _ _ _ H2) as P2.
  pose proof (store_M_peek _ _ _ _ _ H3) as P3.
  pose proof (store_time_peek _ _ _ _ _ H4) as P4.
  pose proof (touches_frame _ _ _ _ _ (touches_store_fval _ _) H2) as F2.
  pose proof (touches_frame _ _ _ _ _ (touches_store_M _ _) H3) as F3.
  pose proof (touches_frame _ _ _ _ _ (touches_store_time _ _) H4) as F4.
  assert (peek (data st4) (Ffval, [i0; i1; 0%nat; k])
          = Some (CNum (rintQ (OptimizationResult.fval c_res)))) as Q1.
  { rewrite F4, F3, F2; [done | not_written..]. }
  assert (peek (data st4) (Ffval, [i0; i1; 1%nat; k])
          = Some (CNum (rintQ (OptimizationResult.fval q_res)))) as Q2.
  { rewrite F4, F3; [done | not_written..]. }
  assert (peek (data st4) (FM, [i0; i1; k]) = Some (CNum M)) as Q3.
  { rewrite F4; [done | not_written]. }
  destruct a.
  - apply bind_Ok in Hrun as (beta & st5 & Han & Hrun).
    apply ret_Ok in Hrun as [-> ->]. simpl.
    pose proof (touches_frame _ _ _ _ _
                  (touches_analyze initial_hamiltonian_adiabatic eigvalsh
                     p bvars i0 i1 k M b c (beta_fixed loc)) Han) as F5.
    apply analyze_Ok in Han as (Hbeta & P5 & Pb).
    split; [|by repeat split].
    split; [rewrite F5; [done | not_written]|].
    split; [rewrite F5; [done | not_written]|].
    split; [rewrite F5; [done | not_written]|].
    split; [rewrite F5; [done | not_written]|].
    intros _. by split.
  - apply ret_Ok in Hrun as [-> ->]. simpl. by repeat split.
Qed.

Lemma strategy_loop_Ok p c_res bvars M_strategies i0 i1 a b c n :
  forall k0 loc st loc' st',
    for_acc (seq k0 n)
      (strategy_step initial_hamiltonian_adiabatic eigvalsh p c_res bvars M_strategies
         i0 i1 a b c) loc st = (Ok loc', st') ->
    ((0 < k0)%nat -> beta_fixed loc' = beta_fixed loc)
    /\ length (xs loc') = length (xs loc)
    /\ (forall j, (j < k0)%nat -> xs loc' !! j = xs loc !! j)
    /\ forall k, (k0 <= k < k0 + n)%nat ->
         exists strategy,
           M_strategies !! k = Some strategy
           /\ strategy_post initial_hamiltonian_adiabatic eigvalsh p c_res bvars a b c
                i0 i1 k strategy (beta_fixed loc') (data st')
           /\ broadcast_row bvars (rounded_solution p strategy)
              = Ok (solution_row bvars p strategy)
           /\ xs loc' !! k = Some (solution_row bvars p strategy).
Proof.
  induction n as [|n IH]; intros k0 loc st loc' st' Hrun.
  - apply ret_Ok in Hrun as [-> ->]. repeat split; try done. intros k Hk. lia.
  - simpl in Hrun. apply bind_Ok in Hrun as (loc1 & st1 & Hstep & Hloop).
    pose proof (touches_frame _ _ _ _ _
                  (touches_for_acc (seq (S k0) n) _ (strategy_writes i0 i1)
                     (fun k acc _ =>
                        touches_strategy_step initial_hamiltonian_adiabatic eigvalsh
                          p c_res bvars M_strategies i0 i1 a b c k acc) loc1)
                  Hloop) as Fr.
    apply IH in Hloop as (Hbeta & Hlen & Hbelow & Hslots).
    apply strategy_step_Ok in Hstep
      as (strategy & Hstrat & Hpost & Hbeta0 & Hk0 & Hx & Hxs).
    split; [intros Hpos; rewrite Hbeta by lia; apply Hbeta0; lia|].
    split; [by rewrite Hlen, Hxs, length_insert|].
    split.
    { intros j Hj. rewrite Hbelow by lia. rewrite Hxs.
      apply list_lookup_insert_ne. lia. }
    intros k Hk. destruct (decide (k = k0)) as [->|Hne].
    + exists strategy. split; [done|]. split; [|split; [done|]].
      * rewrite Hbeta by lia.
        eapply strategy_post_frame; [|exact Hpost].
        intros w Hw. apply Fr. eapply strategy_writes_apart; [done|].
        rewrite elem_of_seq. lia.
      * rewrite Hbelow by lia. rewrite Hxs. by apply list_lookup_insert_eq.
    + apply Hslots. lia.
Qed.

Lemma run_instance_Ok filename M_strategies i0 i1 a b c st p xs st' :
  run_instance read_problem initial_hamiltonian_adiabatic eigvalsh
    filename M_strategies (i0, i1) a b c st = (Ok (p, xs), st') ->
  exists bvars beta,
    Datas.bvars (data st) !! i0 = Some bvars
    /\ p = Problem.with_qp (read_problem filename)
             (QuadraticProgram.with_name (Problem.qp (read_problem filename)) filename)
    /\ length xs = length M_strategies
    /\ forall k strategy,
         M_strategies !! k = Some strategy ->
         strategy_post initial_hamiltonian_adiabatic eigvalsh p (Problem.solve_exact p)
           bvars a b c i0 i1 k strategy beta (data st')
         /\ broadcast_row bvars (rounded_solution p strategy)
            = Ok (solution_row bvars p strategy)
         /\ xs !! k = Some (solution_row bvars p strategy).
Proof.
  unfold run_instance. intros Hrun.
  apply bind_Ok in Hrun as (bvars & ? & [Hb%item_Ok ->]%pair_equal_spec & Hrun).
  simpl in Hb.
  apply bind_Ok in Hrun as (loc & st1 & Hloop & Hrun).
  apply ret_Ok in Hrun as [[= -> ->] ->].
  apply strategy_loop_Ok in Hloop as (_ & Hlen & _ & Hslots).
  exists bvars, (beta_fixed loc). split; [done|]. split; [done|].
  split; [by rewrite Hlen; simpl; rewrite length_replicate|].
  intros k strategy Hk.
  destruct (Hslots k) as (strategy' & Hk' & Hpost & Hx & Hrow).
  { apply lookup_lt_Some in Hk. lia. }
  rewrite Hk in Hk'. by injection Hk' as <-.
Qed.

End Slots.

(** ** Loops whose iterations own disjoint cells *)

Lemma for_acc_unit_Ok (body : nat -> Exec unit) (ws : nat -> list write)
    (Post : nat -> Datas.t -> Prop) (B : list nat) (n : nat) :
  (forall k, touches (body k) (ws k)) ->
  (forall k k' w, k <> k' -> w ∈ ws k -> w ∉ ws k') ->
  (forall k d d', (forall w, w ∈ ws k -> peek d' w = peek d w) -> Post k d -> Post k d') ->
  (forall k st u st',
     Datas.bvars (data st) = B -> body k st = (Ok u, st') -> Post k (data st')) ->
  forall k0 st u st',
    Datas.bvars (data st) = B ->
    for_acc (seq k0 n) (fun k _ => body k) tt st = (Ok u, st') ->
    forall k, (k0 <= k < k0 + n)%nat -> Post k (data st').
Proof.
  intros Htouch Hapart Hframe Hbody.
  induction n as [|n IH]; intros k0 st u st' HB Hrun k Hk; [lia|].
  simpl in Hrun. apply bind_Ok in Hrun as ([] & st1 & Hstep & Hloop).
  pose proof (touches_layout _ _ _ _ _ (Htouch k0) Hstep) as [HB1 _].
  destruct (decide (k = k0)) as [->|Hne].
  - eapply Hframe; [|by eapply Hbody].
    intros w Hw.
    eapply (touches_frame _ (seq (S k0) n ≫= ws)); [|exact Hloop|].
    + apply (touches_for_acc (seq (S k0) n) (fun k _ => body k) ws).
      intros; apply Htouch.
    + intros (k' & Hw' & Hk')%list_elem_of_bind.
      apply elem_of_seq in Hk'. eapply (Hapart k0 k'); [lia | done..].
  - eapply (IH (S k0)); [|exact Hloop|lia]. congruence.
Qed.

Lemma for_range_Ok (body : nat -> Exec unit) (ws : nat -> list write)
    (Post : nat -> Datas.t -> Prop) (B : list nat) (n : nat) :
  (forall k, touches (body k) (ws k)) ->
  (forall k k' w, k <> k' -> w ∈ ws k -> w ∉ ws k') ->
  (forall k d d', (forall w, w ∈ ws k -> peek d' w = peek d w) -> Post k d -> Post k d') ->
  (forall k st u st',
     Datas.bvars (data st) = B -> body k st = (Ok u, st') -> Post k (data st')) ->
  forall st u st',
    Datas.bvars (data st) = B ->
    for_range n body st = (Ok u, st') ->
    forall k, (k < n)%nat -> Post k (data st').
Proof.
  intros Htouch Hapart Hframe Hbody st u st' HB Hrun k Hk.
  eapply (for_acc_unit_Ok body ws Post B n Htouch Hapart Hframe Hbody 0); [done..|lia].
Qed.

Lemma store_is_feasible_peek idx v st u st' :
  store_is_feasible idx v st = (Ok u, st') ->
  peek (data st') (Fis_feasible, idx) = Some (CFlag v).
Proof. store_peek. Qed.
Lemma store_n_violations_peek idx v st u st' :
  store_n_violations idx v st = (Ok u, st') ->
  peek (data st') (Fn_violations, idx) = Some (CCount v).
Proof. store_peek. Qed.
Lemma store_max_violation_peek idx v st u st' :
  store_max_violation idx v st = (Ok u, st') ->
  peek (data st') (Fmax_violation, idx) = Some (CNum v).
Proof. store_peek. Qed.

Lemma evaluate_feasibility_Ok p x i0 i1 i2 st u st' :
  evaluate_feasibility p x (i0, i1, i2) st = (Ok u, st') ->
  feasibility_post p x i0 i1 i2 (data st').
Proof.
  unfold evaluate_feasibility, feasibility_post.
  destruct (QuadraticProgram.is_feasible (Problem.qp p) x).
  - apply store_is_feasible_peek.
  - intros ([] & st1 & Hn & Hm)%bind_Ok.
    split; [|by eapply store_max_violation_peek].
    rewrite (touches_frame _ _ _ _ _ (touches_store_max_violation _ _) Hm);
      [by eapply store_n_violations_peek | not_written].
Qed.

Lemma feasibility_post_frame p x i0 i1 i2 d d' :
  (forall w, w ∈ feasibility_writes i0 i1 i2 -> peek d' w = peek d w) ->
  feasibility_post p x i0 i1 i2 d -> feasibility_post p x i0 i1 i2 d'.
Proof.
  intros Hfr. unfold feasibility_post.
  destruct (QuadraticProgram.is_feasible (Problem.qp p) x).
  - intros <-. apply Hfr. is_written.
  - intros [<- <-]. split; apply Hfr; is_written.
Qed.

Lemma feasibility_writes_apart i0 i1 k l w :
  w ∈ feasibility_writes i0 i1 k -> k ∉ l -> w ∉ l ≫= feasibility_writes i0 i1.
Proof.
  intros [Hw _]%feasibility_writes_slot Hk
    (k' & [Hw' _]%feasibility_writes_slot & Hk')%list_elem_of_bind.
  apply Hk. congruence.
Qed.

Lemma strategy_writes_in_sample n i sample k w :
  (k < n)%nat -> w ∈ strategy_writes i sample k -> w ∈ sample_writes n i sample.
Proof.
  intros Hk Hw. unfold sample_writes, instance_writes.
  apply elem_of_app. left. apply list_elem_of_bind. exists k.
  split; [done|]. apply elem_of_seq. lia.
Qed.

Lemma feasibility_writes_in_sample n i sample k w :
  (k < n)%nat -> w ∈ feasibility_writes i sample k -> w ∈ sample_writes n i sample.
Proof.
  intros Hk Hw. unfold sample_writes.
  apply elem_of_app. right. apply list_elem_of_bind. exists k.
  split; [done|]. apply elem_of_seq. lia.
Qed.

Section BatchSlots.

Variable read_problem : string -> Problem.t.
Variable initial_hamiltonian_adiabatic : nat -> matrix.
Variable eigvalsh : matrix -> list Q.
Variable listdir : string -> result (list string).

Lemma sample_post_frame M_strategies a b c bvars filename i sample d d' :
  (forall w, w ∈ sample_writes (length M_strategies) i sample -> peek d' w = peek d w) ->
  sample_post read_problem initial_hamiltonian_adiabatic eigvalsh
    M_strategies a b c bvars filename i sample d ->
  sample_post read_problem initial_hamiltonian_adiabatic eigvalsh
    M_strategies a b c bvars filename i sample d'.
Proof.
  intros Hfr [beta Hpost]. exists beta. intros k strategy Hk.
  destruct (Hpost k strategy Hk) as (Hs & Hlen & Hf).
  pose proof (lookup_lt_Some _ _ _ Hk) as Hlt.
  split; [|split; [done|]].
  - eapply strategy_post_frame; [|exact Hs].
    intros w Hw. apply Hfr. by eapply strategy_writes_in_sample.
  - eapply feasibility_post_frame; [|exact Hf].
    intros w Hw. apply Hfr. by eapply feasibility_writes_in_sample.
Qed.

Lemma size_post_frame test_set n_samples M_strategies a b c n_qubs i d d' :
  (forall w, w ∈ size_writes n_samples (length M_strategies) i ->
             peek d' w = peek d w) ->
  size_post read_problem initial_hamiltonian_adiabatic eigvalsh listdir
    test_set n_samples M_strategies a b c n_qubs i d ->
  size_post read_problem initial_hamiltonian_adiabatic eigvalsh listdir
    test_set n_samples M_strategies a b c n_qubs i d'.
Proof.
  intros Hfr (listed & Hls & Hlen & Hpost). exists listed.
  split; [done|]. split; [done|]. intros sample file Hs Hfile.
  eapply sample_post_frame; [|by apply Hpost].
  intros w Hw. apply Hfr. unfold size_writes. apply list_elem_of_bind.
  exists sample. split; [done|]. apply elem_of_seq. lia.
Qed.

Lemma sample_step_Ok M_strategies a b c i folder files sample n_qubs st u st' :
  Datas.bvars (data st) !! i = Some n_qubs ->
  sample_step read_problem initial_hamiltonian_adiabatic eigvalsh
    M_strategies a b c i folder files sample st = (Ok u, st') ->
  exists file,
    files !! sample = Some file
    /\ sample_post read_problem initial_hamiltonian_adiabatic eigvalsh
         M_strategies a b c n_qubs (folder +:+ file) i sample (data st').
Proof.
  intros Hi. unfold sample_step. intros Hrun.
  apply bind_Ok in Hrun as (file & ? & [Hfile%item_Ok ->]%lift_Ok & Hrun).
  apply bind_Ok in Hrun as ([p xs] & st1 & Hinst & Hloop).
  exists file. split; [done|].
  apply run_instance_Ok in Hinst as (bvars & beta & Hb & Hp & Hlen & Hslots).
  rewrite Hi in Hb. injection Hb as <-.
  fold (instance_of read_problem (folder +:+ file)) in Hp. subst p.
  pose proof (touches_frame _ _ _ _ _
                (touches_for_range (length M_strategies) _
                   (feasibility_writes i sample)
                   (fun k _ =>
                      touches_bind (lift (item xs k)) _ [] _
                        (touches_lift _ _)
                        (fun x => touches_evaluate_feasibility
                                    (instance_of read_problem (folder +:+ file))
                                    x i sample k)))
                Hloop) as Fr.
  exists beta. intros k strategy Hk.
  destruct (Hslots k strategy Hk) as (Hs & Hx & Hrow).
  split; [|split; [done|]].
  - eapply strategy_post_frame; [|exact Hs].
    intros w [_ Hw]%strategy_writes_slot. apply Fr.
    intros (k' & [_ Hw']%feasibility_writes_slot & _)%list_elem_of_bind.
    congruence.
  - eapply (for_range_Ok _ (feasibility_writes i sample)
              (fun k d => forall x, xs !! k = Some x ->
                 feasibility_post (instance_of read_problem (folder +:+ file))
                   x i sample k d)
              (Datas.bvars (data st1))); [..|exact Hloop| |exact Hrow].
    + intros k'. apply (touches_bind _ _ [] _); [apply touches_lift|].
      intros x. apply touches_evaluate_feasibility.
    + intros k1 k2 w Hne [H1 _]%feasibility_writes_slot
        [H2 _]%feasibility_writes_slot. congruence.
    + intros k' d d' Hfr Hd x Hx'. eapply feasibility_post_frame; [done|]. by apply Hd.
    + intros k' st2 u2 st2' _ Hbody x Hx'.
      apply bind_Ok in Hbody as (x' & ? & [Hit%item_Ok ->]%lift_Ok & Hbody).
      rewrite Hx' in Hit. injection Hit as <-.
      by eapply evaluate_feasibility_Ok.
    + done.
    + apply lookup_lt_Some in Hk. lia.
Qed.

Lemma size_step_Ok test_set bvars n_samples M_strategies a b c i st u st' :
  Datas.bvars (data st) = bvars ->
  size_step read_problem initial_hamiltonian_adiabatic eigvalsh listdir
    test_set bvars n_samples M_strategies a b c i st = (Ok u, st') ->
  exists n_qubs,
    bvars !! i = Some n_qubs
    /\ size_post read_problem initial_hamiltonian_adiabatic eigvalsh listdir
         test_set n_samples M_strategies a b c n_qubs i (data st').
Proof.
  intros HB. unfold size_step. intros Hrun.
  apply bind_Ok in Hrun as (n_qubs & ? & [Hq%item_Ok ->]%lift_Ok & Hrun).
  apply bind_Ok in Hrun as (listed & ? & [Hls ->]%lift_Ok & Hrun).
  exists n_qubs. split; [done|].
  destruct (Nat.ltb_spec (length (sorted listed)) n_samples) as [|Hlen];
    [discriminate|].
  exists listed. split; [done|]. split; [done|].
  intros sample file Hs Hfile.
  eapply (for_range_Ok _ (sample_writes (length M_strategies) i)
            (fun s d => forall file, sorted listed !! s = Some file ->
               sample_post read_problem initial_hamiltonian_adiabatic eigvalsh
                 M_strategies a b c n_qubs (folder_of test_set n_qubs +:+ file) i s d)
            bvars); [..|exact Hrun|exact Hs|exact Hfile].
  - intros s. apply touches_sample_step.
  - intros s1 s2 w Hne [k1 H1]%sample_writes_slot [k2 H2]%sample_writes_slot.
    congruence.
  - intros s d d' Hfr Hd f Hf. eapply sample_post_frame; [done|]. by apply Hd.
  - intros s st2 u2 st2' HB2 Hbody f Hf.
    apply sample_step_Ok with (n_qubs := n_qubs) in Hbody as (f' & Hf' & Hpost);
      [|by rewrite HB2].
    rewrite Hf in Hf'. by injection Hf' as <-.
  - done.
Qed.

Lemma run_test_Ok test_set bvars n_samples M_strategies a b c d st :
  run_test read_problem initial_hamiltonian_adiabatic eigvalsh listdir
    test_set bvars n_samples M_strategies a b c = (Ok d, st) ->
  d = data st
  /\ forall i n_qubs,
       bvars !! i = Some n_qubs ->
       size_post read_problem initial_hamiltonian_adiabatic eigvalsh listdir
         test_set n_samples M_strategies a b c n_qubs i d.
Proof.
  unfold run_test.
  destruct (size_loop _ _ _ _ _ _ _ _ _ _ _ _) as [[[]|e] st1] eqn:Hloop;
    [|discriminate].
  intros [= <- <-]. split; [done|]. intros i n_qubs Hi.
  unfold size_loop in Hloop.
  eapply (for_range_Ok _ (size_writes n_samples (length M_strategies))
            (fun i d => forall n_qubs, bvars !! i = Some n_qubs ->
               size_post read_problem initial_hamiltonian_adiabatic eigvalsh listdir
                 test_set n_samples M_strategies a b c n_qubs i d)
            bvars); [..|exact Hloop| |exact Hi].
  - intros i'. apply touches_size_step.
  - intros i1 i2 w Hne (s1 & k1 & H1)%size_writes_slot (s2 & k2 & H2)%size_writes_slot.
    congruence.
  - intros i' d d' Hfr Hd q Hq. eapply size_post_frame; [done|]. by apply Hd.
  - intros i' st2 u2 st2' HB2 Hbody q Hq.
    apply size_step_Ok in Hbody as (q' & Hq' & Hpost); [|done].
    rewrite Hq in Hq'. by injection Hq' as <-.
  - done.
  - by apply lookup_lt_Some in Hi.
Qed.

End BatchSlots.

(** ** The slots after a run *)

Lemma peek_num (o : option Q) (v : Q) : CNum <$> o = Some (CNum v) -> o = Some v.
Proof. destruct o; simpl; [by intros [= ->] | discriminate]. Qed.

Lemma peek_float (o : option float64) (v : float64) :
  CFloat <$> o = Some (CFloat v) -> o = Some v.
Proof. destruct o; simpl; [by intros [= ->] | discriminate]. Qed.

Lemma np_divide_finite (x y : Q) : ~ y == 0 -> np_divide x y = Finite (x / y).
Proof.
  intros Hy. unfold np_divide.
  destruct (Qeq_bool y 0) eqn:Hb; [|done]. by apply Qeq_bool_eq in Hb.
Qed.

Lemma np_divide_zero (x y : Q) :
  y == 0 ->
  np_divide x y = (match Qcompare x 0 with Gt => Inf | Lt => NegInf | Eq => NaN end).
Proof. intros Hy. unfold np_divide. by rewrite (Qeq_eq_bool _ _ Hy). Qed.

Section Claims.

Variable read_problem : string -> Problem.t.
Variable initial_hamiltonian_adiabatic : nat -> matrix.
Variable eigvalsh : matrix -> list Q.
Variable listdir : string -> result (list string).

Lemma run_instance_post filename M_strategies i0 i1 a b c st :
  let out := run_instance read_problem initial_hamiltonian_adiabatic eigvalsh
               filename M_strategies (i0, i1) a b c st in
  let p := instance_of read_problem filename in
  is_ok out.1 = true ->
  exists bvars beta xs,
    Datas.bvars (data st) !! i0 = Some bvars
    /\ out.1 = Ok (p, xs)
    /\ length xs = length M_strategies
    /\ forall k strategy,
         M_strategies !! k = Some strategy ->
         strategy_post initial_hamiltonian_adiabatic eigvalsh p (Problem.solve_exact p)
           bvars a b c i0 i1 k strategy beta (data out.2)
         /\ broadcast_row bvars (rounded_solution p strategy)
            = Ok (solution_row bvars p strategy)
         /\ xs !! k = Some (solution_row bvars p strategy).
Proof.
  intros out p. subst out.
  destruct (run_instance _ _ _ _ _ _ _ _ _ _) as [[[p' xs]|e] st'] eqn:Hrun;
    [|discriminate].
  intros _. apply run_instance_Ok in Hrun as (bvars & beta & Hb & -> & Hlen & Hslots).
  by exists bvars, beta, xs.
Qed.

Lemma batch_sample_post test_set bvars n_samples M_strategies a b c i sample n_qubs p :
  let out := run_test read_problem initial_hamiltonian_adiabatic eigvalsh listdir
               test_set bvars n_samples M_strategies a b c in
  is_ok out.1 = true ->
  batch_sample read_problem listdir test_set bvars n_samples i sample n_qubs p ->
  exists beta,
    forall k strategy,
      M_strategies !! k = Some strategy ->
      strategy_post initial_hamiltonian_adiabatic eigvalsh p (Problem.solve_exact p)
        n_qubs a b c i sample k strategy beta (data out.2)
      /\ broadcast_row n_qubs (rounded_solution p strategy)
         = Ok (solution_row n_qubs p strategy)
      /\ feasibility_post p (solution_row n_qubs p strategy) i sample k (data out.2).
Proof.
  intros out. subst out.
  destruct (run_test _ _ _ _ _ _ _ _ _ _ _) as [[d|e] st] eqn:Hrun; [|discriminate].
  intros _ (Hi & Hs & listed & file & Hls & Hfile & ->).
  apply run_test_Ok in Hrun as [-> Hsizes].
  destruct (Hsizes i n_qubs Hi) as (listed' & Hls' & _ & Hsamples).
  rewrite Hls in Hls'. injection Hls' as <-.
  exact (Hsamples sample file Hs Hfile).
Qed.

(** C10: when [run_instance] returns for a sample, the classical slot
    (size, sample, classical, j) of every strategy j holds one and the
    same value, the rounded objective value of the exact solve of the
    problem, which is made once; the loop over the strategies stores it
    again for each of them. *)
Theorem classical_value_in_every_column filename M_strategies i0 i1
    analyze_gaps analyze_gaps_qite analyze_gaps_adiabatic st :
  let out := run_instance read_problem initial_hamiltonian_adiabatic eigvalsh
               filename M_strategies (i0, i1)
               analyze_gaps analyze_gaps_qite analyze_gaps_adiabatic st in
  let c_res := Problem.solve_exact (instance_of read_problem filename) in
  is_ok out.1 = true ->
  forall j, (j < length M_strategies)%nat ->
    cells (Datas.fval (data out.2)) !! [i0; i1; 0%nat; j]
    = Some (inject_Z (rint (OptimizationResult.fval c_res))).
Proof.
  intros out c_res Hok j Hj.
  destruct (run_instance_post filename M_strategies i0 i1 analyze_gaps
              analyze_gaps_qite analyze_gaps_adiabatic st Hok)
    as (bvars & beta & xs & _ & _ & _ & Hslots).
  destruct (lookup_lt_is_Some_2 M_strategies j Hj) as [strategy Hs].
  destruct (Hslots j strategy Hs) as ((P1 & _) & _).
  by apply peek_num.
Qed.

(** C7: when [run_instance] returns, for every strategy the classical
    and the quantum objective value stored are the values the solvers
    returned, rounded to the nearest integer: they are integers, at most
    one half away from the value returned.  The solution handed over for
    the feasibility check is the solver's vector with every entry rounded to
    the nearest integer and cast to a 64-bit integer: an entry whose nearest
    integer fits 64 bits is that integer, at most one half away from the
    solver's entry, and any other is the least 64-bit integer.  The row
    handed over is that vector when it has one entry for each variable; a
    vector of a single entry is stretched over the row. *)
Theorem stored_objectives_are_rounded filename M_strategies i0 i1
    analyze_gaps analyze_gaps_qite analyze_gaps_adiabatic st :
  let out := run_instance read_problem initial_hamiltonian_adiabatic eigvalsh
               filename M_strategies (i0, i1)
               analyze_gaps analyze_gaps_qite analyze_gaps_adiabatic st in
  let p := instance_of read_problem filename in
  is_ok out.1 = true ->
  exists (bvars : nat) (xs : list (list Z)),
    Datas.bvars (data st) !! i0 = Some bvars
    /\ out.1 = Ok (p, xs)
    /\ forall k strategy,
         M_strategies !! k = Some strategy ->
         let c_res := Problem.solve_exact p in
         let q_res := (Problem.solve_quantum p strategy).1.1 in
         let rounded :=
           map (fun v => astype_int (rint v)) (OptimizationResult.x q_res) in
         exists zc zq : Z,
           cells (Datas.fval (data out.2)) !! [i0; i1; 0%nat; k] = Some (inject_Z zc)
           /\ cells (Datas.fval (data out.2)) !! [i0; i1; 1%nat; k] = Some (inject_Z zq)
           /\ zc = rint (OptimizationResult.fval c_res)
           /\ zq = rint (OptimizationResult.fval q_res)
           /\ Qabs (OptimizationResult.fval c_res - inject_Z zc) <= 1 # 2
           /\ Qabs (OptimizationResult.fval q_res - inject_Z zq) <= 1 # 2
           /\ Forall2 (fun (v : Q) (z : Z) =>
                         z = astype_int (rint v)
                         /\ (int64_min <= z < 2 ^ 63)%Z
                         /\ ((int64_min <= rint v < 2 ^ 63)%Z ->
                             z = rint v /\ Qabs (v - inject_Z z) <= 1 # 2))
                (OptimizationResult.x q_res) rounded
           /\ exists x : list Z,
                xs !! k = Some x
                /\ broadcast_row bvars rounded = Ok x
                /\ length x = bvars
                /\ (length (OptimizationResult.x q_res) = bvars -> x = rounded)
                /\ (forall v, OptimizationResult.x q_res = [v] ->
                      x = replicate bvars (astype_int (rint v))).
Proof.
  intros out p Hok.
  destruct (run_instance_post filename M_strategies i0 i1 analyze_gaps
              analyze_gaps_qite analyze_gaps_adiabatic st Hok)
    as (bvars & beta & xs & Hb & Hout & _ & Hslots).
  exists bvars, xs. split; [done|]. split; [done|].
  intros k strategy Hs c_res q_res rounded.
  destruct (Hslots k strategy Hs) as ((P1 & P2 & _) & Hfit & Hrow).
  exists (rint (OptimizationResult.fval c_res)), (rint (OptimizationResult.fval q_res)).
  split; [by apply peek_num|]. split; [by apply peek_num|].
  split; [done|]. split; [done|].
  split; [apply rint_nearest|]. split; [apply rint_nearest|].
  split.
  { subst rounded.
    induction (OptimizationResult.x q_res) as [|v l IH]; simpl; constructor; [|done].
    split; [done|]. split; [apply astype_int_range|].
    intros Hin. rewrite (astype_int_fits _ Hin). split; [done | apply rint_nearest]. }
  exists (solution_row bvars p strategy). split; [done|].
  change (broadcast_row bvars rounded = Ok (solution_row bvars p strategy)
          /\ length (solution_row bvars p strategy) = bvars
          /\ (length (OptimizationResult.x q_res) = bvars ->
              solution_row bvars p strategy = rounded)
          /\ (forall v, OptimizationResult.x q_res = [v] ->
                solution_row bvars p strategy = replicate bvars (astype_int (rint v)))).
  change (broadcast_row bvars rounded = Ok (solution_row bvars p strategy)) in Hfit.
  split; [done|].
  destruct (broadcast_row_Ok _ _ _ Hfit) as [Hlen _]. split; [done|]. split.
  - intros Hx. assert (length rounded = bvars) as Hr
      by (subst rounded; by rewrite length_map).
    rewrite (broadcast_row_fits _ _ Hr) in Hfit. by injection Hfit as <-.
  - intros v Hv. unfold solution_row, rounded_solution, rint_astype_int.
    fold q_res. by rewrite Hv.
Qed.

(** C3: after a batch run with gap and normalized-gap analysis, for
    every slot (size, sample, strategy) the normalized gap stored is the
    raw gap stored, which is the gap metric of the problem on H, Hc and M,
    divided by max(H') - min(H'), where H' = H + M*Hc and M is the penalty
    of the strategy, stored in the slot as well.  The division is numpy's:
    the quotient of the two numbers when the width is not zero, [inf],
    [-inf] or [nan] when it is. *)
Theorem normalized_gap_stored test_set bvars n_samples M_strategies
    analyze_gaps_adiabatic i sample n_qubs p k strategy :
  let out := run_test read_problem initial_hamiltonian_adiabatic eigvalsh listdir
               test_set bvars n_samples M_strategies true true analyze_gaps_adiabatic in
  let d := data out.2 in
  let H := Problem.get_obj_hamiltonian p in
  let Hc := Problem.get_constraint_hamiltonian p in
  is_ok out.1 = true ->
  batch_sample read_problem listdir test_set bvars n_samples i sample n_qubs p ->
  M_strategies !! k = Some strategy ->
  exists (M raw : Q) (H' : list Q) (min_e max_e : Q),
    M = (Problem.solve_quantum p strategy).1.2
    /\ cells (Datas.M d) !! [i; sample; k] = Some M
    /\ np_add H (np_scale M Hc) = Ok H'
    /\ H' = zip_with Qplus H (map (Qmult M) Hc)
    /\ np_min H' = Ok min_e /\ np_max H' = Ok max_e
    /\ min_e ∈ H' /\ max_e ∈ H'
    /\ (forall e, e ∈ H' -> min_e <= e /\ e <= max_e)
    /\ raw = Problem.get_gap_total p H Hc M
    /\ cells (Datas.gap d) !! [i; sample; k] = Some raw
    /\ cells (Datas.gap_norm d) !! [i; sample; k]
       = Some (np_divide raw (max_e - min_e))
    /\ (~ max_e - min_e == 0 ->
        np_divide raw (max_e - min_e) = Finite (raw / (max_e - min_e)))
    /\ (max_e - min_e == 0 ->
        np_divide raw (max_e - min_e)
        = match Qcompare raw 0 with Gt => Inf | Lt => NegInf | Eq => NaN end).
Proof.
  intros out d H Hc Hok Hsample Hs.
  destruct (batch_sample_post _ _ _ _ _ _ _ _ _ _ _ Hok Hsample) as (beta & Hslots).
  destruct (Hslots k strategy Hs) as ((_ & _ & P3 & _ & Pa) & _).
  destruct (Pa eq_refl) as (P5 & Pb).
  destruct (Pb eq_refl) as (H' & min_e & max_e & HH' & Hmin & Hmax & P6 & _).
  exists (Problem.solve_quantum p strategy).1.2, (raw_gap p (Problem.solve_quantum p strategy).1.2),
    H', min_e, max_e.
  split; [done|]. split; [by apply peek_num|]. split; [exact HH'|].
  split.
  { unfold combined_hamiltonian, np_add in HH'.
    destruct (_ =? _)%nat; [by injection HH' as <- | discriminate]. }
  split; [done|]. split; [done|].
  destruct (np_min_spec _ _ Hmin) as [Hin_min Hle_min].
  destruct (np_max_spec _ _ Hmax) as [Hin_max Hle_max].
  split; [done|]. split; [done|]. split; [by split; auto|].
  split; [done|]. split; [by apply peek_num|]. split; [by apply peek_float|].
  split; [apply np_divide_finite | apply np_divide_zero].
Qed.

(** C1: after a batch run with gap, normalized-gap and adiabatic-gap
    analysis, for every slot (size, sample, strategy) the minimal gap
    stored is computed thus: H_mix = (1-0.98)*H_0 + 0.98*diag(H'), with
    H' = H + M*Hc and H_0 the initial Hamiltonian scaled by the fixed beta;
    the eigenvalues of H_mix, without repetition and in ascending order;
    the stored value is (second smallest - smallest) / (largest -
    smallest).  For the eigenvalues 0, 0, 1, 2 the distinct values are
    0, 1, 2 and the stored value is one half. *)
Theorem minimal_gap_stored test_set bvars n_samples M_strategies
    i sample n_qubs p k strategy :
  let out := run_test read_problem initial_hamiltonian_adiabatic eigvalsh listdir
               test_set bvars n_samples M_strategies true true true in
  let d := data out.2 in
  let H := Problem.get_obj_hamiltonian p in
  let Hc := Problem.get_constraint_hamiltonian p in
  let M := (Problem.solve_quantum p strategy).1.2 in
  is_ok out.1 = true ->
  batch_sample read_problem listdir test_set bvars n_samples i sample n_qubs p ->
  M_strategies !! k = Some strategy ->
  exists (beta : Q) (H' : list Q) (H_mix : matrix) (e0 e1 elast : Q),
    np_add H (np_scale M Hc) = Ok H'
    /\ mat_add (mat_scale (1 - 0.98)
                  (mat_scale beta (initial_hamiltonian_adiabatic n_qubs)))
               (mat_scale 0.98 (np_diag H')) = Ok H_mix
    /\ StronglySorted Qlt (np_unique (eigvalsh H_mix))
    /\ (forall e, has_value (np_unique (eigvalsh H_mix)) e
                  <-> has_value (eigvalsh H_mix) e)
    /\ np_unique (eigvalsh H_mix) !! 0%nat = Some e0
    /\ np_unique (eigvalsh H_mix) !! 1%nat = Some e1
    /\ last (np_unique (eigvalsh H_mix)) = Some elast
    /\ (forall e, e ∈ eigvalsh H_mix -> e0 <= e /\ e <= elast)
    /\ e0 < e1
    /\ (forall e, e ∈ eigvalsh H_mix -> e0 < e -> e1 <= e)
    /\ cells (Datas.gap_minimal d) !! [i; sample; k] = Some ((e1 - e0) / (elast - e0))
    /\ (eigvalsh H_mix = [0; 0; 1; 2] ->
        np_unique (eigvalsh H_mix) = [0; 1; 2]
        /\ cells (Datas.gap_minimal d) !! [i; sample; k] = Some (1 # 2)
        /\ 1 # 2 == 0.5).
Proof.
  intros out d H Hc M Hok Hsample Hs.
  destruct (batch_sample_post _ _ _ _ _ _ _ _ _ _ _ Hok Hsample) as (beta & Hslots).
  destruct (Hslots k strategy Hs) as ((_ & _ & _ & _ & Pa) & _).
  destruct (Pa eq_refl) as (_ & Pb).
  destruct (Pb eq_refl) as (H' & min_e & max_e & HH' & _ & _ & _ & Pc).
  destruct (Pc eq_refl) as (H_mix & gm & _ & Hmix & Hgm & P7).
  apply peek_num in P7.
  destruct (squeezed_gap_Ok _ _ Hgm) as (e0 & e1 & elast & H0 & H1 & Hlast & ->).
  destruct (np_unique_extremes _ _ _ _ H0 H1 Hlast)
    as (_ & _ & _ & Hbounds & Hlt & Hsecond).
  exists beta, H', H_mix, e0, e1, elast.
  split; [exact HH'|]. split; [exact Hmix|].
  split; [apply np_unique_sorted|]. split; [apply np_unique_values|].
  repeat (split; [done|]).
  intros Heig. rewrite Heig in H0, H1, Hlast |- *.
  split; [reflexivity|].
  injection H0 as <-. injection H1 as <-. injection Hlast as <-.
  split; [exact P7 | reflexivity].
Qed.

(** C2: after a batch run with the three analyses, in every sample the
    initial Hamiltonian H_0 of every strategy is scaled by the beta of
    the first strategy, beta = max(|min(H')|, |max(H')|) / bvars taken on
    the H' of strategy number 0: the minimal gap stored for any strategy
    is the squeezed gap of (1-alpha)*beta*H_init + alpha*diag(H') with that
    beta and the strategy's own H'. *)
Theorem first_beta_for_every_strategy test_set bvars n_samples M_strategies
    i sample n_qubs p strategy0 :
  let out := run_test read_problem initial_hamiltonian_adiabatic eigvalsh listdir
               test_set bvars n_samples M_strategies true true true in
  let d := data out.2 in
  is_ok out.1 = true ->
  batch_sample read_problem listdir test_set bvars n_samples i sample n_qubs p ->
  M_strategies !! 0%nat = Some strategy0 ->
  exists (H'0 : list Q) (min0 max0 : Q),
    combined_hamiltonian p (Problem.solve_quantum p strategy0).1.2 = Ok H'0
    /\ np_min H'0 = Ok min0 /\ np_max H'0 = Ok max0
    /\ let beta := Qmax (Qabs min0) (Qabs max0) / inject_Z (Z.of_nat n_qubs) in
       forall k strategy,
         M_strategies !! k = Some strategy ->
         exists (H' : list Q) (H_mix : matrix) (gm : Q),
           combined_hamiltonian p (Problem.solve_quantum p strategy).1.2 = Ok H'
           /\ mat_add (mat_scale (1 - alpha)
                         (mat_scale beta (initial_hamiltonian_adiabatic n_qubs)))
                      (mat_scale alpha (np_diag H')) = Ok H_mix
           /\ squeezed_gap (np_unique (eigvalsh H_mix)) = Ok gm
           /\ cells (Datas.gap_minimal d) !! [i; sample; k] = Some gm.
Proof.
  intros out d Hok Hsample Hs0.
  destruct (batch_sample_post _ _ _ _ _ _ _ _ _ _ _ Hok Hsample) as (beta & Hslots).
  destruct (Hslots 0%nat strategy0 Hs0) as ((_ & _ & _ & _ & Pa) & _).
  destruct (Pa eq_refl) as (_ & Pb).
  destruct (Pb eq_refl) as (H'0 & min0 & max0 & HH'0 & Hmin0 & Hmax0 & _ & Pc).
  destruct (Pc eq_refl) as (_ & _ & Hbeta & _).
  specialize (Hbeta eq_refl). subst beta.
  exists H'0, min0, max0. repeat (split; [done|]).
  intros beta k strategy Hs.
  destruct (Hslots k strategy Hs) as ((_ & _ & _ & _ & Pa') & _).
  destruct (Pa' eq_refl) as (_ & Pb').
  destruct (Pb' eq_refl) as (H' & min_e & max_e & HH' & _ & _ & _ & Pc').
  destruct (Pc' eq_refl) as (H_mix & gm & _ & Hmix & Hgm & P7).
  exists H', H_mix, gm. split; [done|]. split; [exact Hmix|].
  split; [done | by apply peek_num].
Qed.

End Claims.

(** ** The range of the normalized gap *)

Lemma bind_step {A B} (c : Exec A) (k : A -> Exec B) st a st1 :
  c st = (Ok a, st1) -> bind c k st = k a st1.
Proof. unfold bind. by intros ->. Qed.







Section Range.

Variable initial_hamiltonian_adiabatic : nat -> matrix.
Variable eigvalsh : matrix -> list Q.


End Range.

(** ** Too few files for a size *)

Lemma sorted_insert_length (s : string) (l : list string) :
  length (sorted_insert s l) = S (length l).
Proof.
  induction l as [|t r IH]; simpl; [done|].
  destruct (String.leb s t); simpl; [done | by rewrite IH].
Qed.

Lemma sorted_length (l : list string) : length (sorted l) = length l.
Proof.
  induction l as [|s l IH]; simpl; [done|]. by rewrite sorted_insert_length, IH.
Qed.

Lemma sorted_insert_Permutation (s : string) (l : list string) :
  sorted_insert s l ≡ₚ s :: l.
Proof.
  induction l as [|t r IH]; simpl; [done|].
  destruct (String.leb s t); [done|]. rewrite IH. apply Permutation_swap.
Qed.

(** [sorted] keeps the files it is given. *)
Lemma sorted_Permutation (l : list string) : sorted l ≡ₚ l.
Proof.
  induction l as [|s l IH]; simpl; [done|].
  by rewrite sorted_insert_Permutation, IH.
Qed.

Example sorted_b_a : sorted ["b.lp"; "a.lp"] = ["a.lp"; "b.lp"].
Proof. reflexivity. Qed.

Lemma append_assoc (s t u : string) : (s +:+ t) +:+ u = s +:+ t +:+ u.
Proof.
  induction s as [|a s IH]; [done|].
  change (String a ((s +:+ t) +:+ u) = String a (s +:+ t +:+ u)). by f_equal.
Qed.

Lemma contains_here (needle post : string) : contains needle (needle +:+ post).
Proof. by exists "", post. Qed.

Lemma contains_later (needle pre hay : string) :
  contains needle hay -> contains needle (pre +:+ hay).
Proof.
  intros (pre' & post & ->). exists (pre +:+ pre'), post.
  by rewrite append_assoc.
Qed.

Lemma too_few_instances_contains (folder : string) (n_files n_samples : nat) :
  contains folder (too_few_instances folder n_files n_samples)
  /\ contains (pretty n_files) (too_few_instances folder n_files n_samples)
  /\ contains (pretty n_samples) (too_few_instances folder n_files n_samples).
Proof.
  unfold too_few_instances. split; [|split].
  - apply contains_later, contains_here.
  - do 3 apply contains_later. apply contains_here.
  - do 5 apply contains_later. apply contains_here.
Qed.

Lemma for_acc_app {A} (l1 l2 : list nat) (body : nat -> A -> Exec A) (acc : A) st :
  for_acc (l1 ++ l2) body acc st
  = bind (for_acc l1 body acc) (fun acc' => for_acc l2 body acc') st.
Proof.
  revert acc st. induction l1 as [|k l1 IH]; intros acc st; simpl; [done|].
  unfold bind in *. destruct (body k acc st) as [[acc'|e] st1]; [|done].
  by rewrite IH.
Qed.

Section TooFew.

Variable read_problem : string -> Problem.t.
Variable initial_hamiltonian_adiabatic : nat -> matrix.
Variable eigvalsh : matrix -> list Q.
Variable listdir : string -> result (list string).

Lemma size_step_too_few test_set bvars n_samples M_strategies a b c i n_qubs listed st :
  bvars !! i = Some n_qubs ->
  listdir (folder_of test_set n_qubs) = Ok listed ->
  (length listed < n_samples)%nat ->
  size_step read_problem initial_hamiltonian_adiabatic eigvalsh listdir
    test_set bvars n_samples M_strategies a b c i st
  = (Raise (ValueError (too_few_instances (folder_of test_set n_qubs)
                          (length listed) n_samples)), st).
Proof.
  intros Hi Hls Hlt. unfold size_step.
  erewrite bind_step; [|unfold lift, item; by rewrite Hi].
  erewrite bind_step; [|unfold lift; by rewrite Hls].
  rewrite sorted_length.
  by destruct (Nat.ltb_spec (length listed) n_samples); [|lia].
Qed.

(** C6: when the folder of a size of the batch holds fewer files than
    the samples requested, the batch driver does not return: it stops in
    the state the sizes before that one left, so that no sample of that
    size nor any later size is processed and nothing is written for that
    size.  Unless an earlier size has already raised, what it raises is
    the [ValueError] whose message contains the path of the folder, the
    number of files found and the number of samples requested. *)
Theorem too_few_files_aborts test_set bvars n_samples M_strategies
    analyze_gaps analyze_gaps_qite analyze_gaps_adiabatic i n_qubs listed :
  bvars !! i = Some n_qubs ->
  listdir (folder_of test_set n_qubs) = Ok listed ->
  (length listed < n_samples)%nat ->
  let folder := folder_of test_set n_qubs in
  let st0 := {| data := Datas_new bvars n_samples (length M_strategies);
                written := [] |} in
  let before :=
    for_range i
      (size_step read_problem initial_hamiltonian_adiabatic eigvalsh listdir
         test_set bvars n_samples M_strategies
         analyze_gaps analyze_gaps_qite analyze_gaps_adiabatic) st0 in
  let out := run_test read_problem initial_hamiltonian_adiabatic eigvalsh listdir
               test_set bvars n_samples M_strategies
               analyze_gaps analyze_gaps_qite analyze_gaps_adiabatic in
  let msg := "Folder " +:+ folder +:+ " contains only " +:+ pretty (length listed)
             +:+ " instances, " +:+ pretty n_samples +:+ " were requested" in
  is_ok out.1 = false
  /\ out.2 = before.2
  /\ match before.1 with
     | Ok _ => out.1 = Raise (ValueError msg)
     | Raise e => out.1 = Raise e
     end
  /\ contains folder msg
  /\ contains (pretty (length listed)) msg
  /\ contains (pretty n_samples) msg
  /\ forall w s k, w ∈ written out.2 -> addressed w <> Some (i, s, k).
Proof.
  intros Hi Hls Hlt folder st0 before out msg.
  assert (out.2 = before.2
          /\ match before.1 with
             | Ok _ => out.1 = Raise (ValueError msg)
             | Raise e => out.1 = Raise e
             end) as [Hstate Hout].
  { assert (size_loop read_problem initial_hamiltonian_adiabatic eigvalsh listdir
              test_set bvars n_samples M_strategies
              analyze_gaps analyze_gaps_qite analyze_gaps_adiabatic st0
            = match before.1 with
              | Ok _ => (Raise (ValueError msg), before.2)
              | Raise e => (Raise e, before.2)
              end) as Hloop.
    { subst before. unfold size_loop, for_range.
      pose proof (lookup_lt_Some _ _ _ Hi) as Hlen.
      replace (length bvars) with (i + S (length bvars - S i))%nat at 1 by lia.
      rewrite seq_app, for_acc_app. unfold bind at 1.
      destruct (for_acc (seq 0 i) _ tt st0) as [[[]|e] st_i]; [|done].
      simpl seq. cbn [for_acc]. unfold bind at 1.
      by rewrite (size_step_too_few _ _ _ _ _ _ _ _ _ _ _ Hi Hls Hlt). }
    subst out. unfold run_test. fold st0. rewrite Hloop.
    by destruct before.1. }
  split; [by destruct before.1; rewrite Hout|].
  split; [done|]. split; [done|].
  destruct (too_few_instances_contains folder (length listed) n_samples)
    as (C1 & C2 & C3).
  split; [done|]. split; [done|]. split; [done|].
  intros w s k Hw Haddr. rewrite Hstate in Hw. subst before.
  destruct (touches_for_range i _ (size_writes n_samples (length M_strategies))
              (fun i' _ => touches_size_step read_problem initial_hamiltonian_adiabatic
                             eigvalsh listdir test_set bvars n_samples M_strategies
                             analyze_gaps analyze_gaps_qite analyze_gaps_adiabatic i')
              st0) as ((evs & Hevs & Hsub) & _).
  rewrite Hevs in Hw. simpl in Hw.
  eapply elem_of_sublist in Hw; [|exact Hsub].
  apply list_elem_of_bind in Hw as (i' & Hw & Hi').
  apply size_writes_slot in Hw as (s' & k' & Hw).
  apply elem_of_seq in Hi'. rewrite Haddr in Hw. injection Hw as -> _ _. lia.
Qed.

End TooFew.

(** ** The theorems on the small test set *)

Lemma toy_first_sample :
  batch_sample Toy.read_problem Toy.listdir "toys" [2%nat] 2 0 0 2
    (instance_of Toy.read_problem "toys/2/a.lp").
Proof.
  split; [reflexivity|]. split; [repeat constructor|].
  exists ["b.lp"; "a.lp"], "a.lp". repeat split; reflexivity.
Defined.

Lemma minimal_gap_stored_witness :
  cells (Datas.gap_minimal (data Toy.batch.2)) !! [0; 0; 1]%nat = Some (1 # 2).
Proof.
  destruct (minimal_gap_stored Toy.read_problem Toy.initial_hamiltonian_adiabatic
              Toy.eigvalsh Toy.listdir "toys" [2%nat] 2 Toy.M_strategies
              0 0 2 (instance_of Toy.read_problem "toys/2/a.lp") 1 "qiskit_M")
    as (beta & H' & H_mix & e0 & e1 & elast & _ & _ & _ & _ & _ & _ & _ & _ & _ & _ & _
        & Hex);
    [vm_compute; reflexivity | exact toy_first_sample | reflexivity|].
  by destruct (Hex eq_refl) as (_ & Hcell & _).
Defined.

Lemma first_beta_for_every_strategy_witness :
  exists (H_mix : matrix) (gm : Q),
    mat_add (mat_scale (1 - alpha)
               (mat_scale (5 # 2) (Toy.initial_hamiltonian_adiabatic 2)))
            (mat_scale alpha (np_diag [0; 4; 2; 6])) = Ok H_mix
    /\ cells (Datas.gap_minimal (data Toy.batch.2)) !! [0; 0; 1]%nat = Some gm.
Proof.
  destruct (first_beta_for_every_strategy Toy.read_problem
              Toy.initial_hamiltonian_adiabatic Toy.eigvalsh Toy.listdir
              "toys" [2%nat] 2 Toy.M_strategies
              0 0 2 (instance_of Toy.read_problem "toys/2/a.lp") "our_M")
    as (H'0 & min0 & max0 & HH'0 & Hmin0 & Hmax0 & Hall);
    [vm_compute; reflexivity | exact toy_first_sample | reflexivity|].
  vm_compute in HH'0. injection HH'0 as <-.
  vm_compute in Hmin0. injection Hmin0 as <-.
  vm_compute in Hmax0. injection Hmax0 as <-.
  destruct (Hall 1%nat "qiskit_M" eq_refl) as (H' & H_mix & gm & HH' & Hmix & _ & Hcell).
  vm_compute in HH'. injection HH' as <-.
  exists H_mix, gm. split; [exact Hmix | exact Hcell].
Defined.

Lemma normalized_gap_stored_witness :
  cells (Datas.gap_norm (data Toy.batch.2)) !! [0; 0; 0]%nat
  = Some (Finite (1 / (5 - 0))).
Proof.
  destruct (normalized_gap_stored Toy.read_problem Toy.initial_hamiltonian_adiabatic
              Toy.eigvalsh Toy.listdir "toys" [2%nat] 2 Toy.M_strategies true
              0 0 2 (instance_of Toy.read_problem "toys/2/a.lp") 0 "our_M")
    as (M & raw & H' & min_e & max_e & -> & _ & HH' & _ & Hmin & Hmax & _ & _ & _ & ->
        & _ & Hcell & Hfin & _);
    [vm_compute; reflexivity | exact toy_first_sample | reflexivity|].
  vm_compute in HH'. injection HH' as <-.
  vm_compute in Hmin. injection Hmin as <-.
  vm_compute in Hmax. injection Hmax as <-.
  rewrite Hfin in Hcell; [exact Hcell | intros H; discriminate H].
Defined.


Lemma evaluate_feasibility_records_witness :
  let out := evaluate_feasibility (Toy.read_problem "toys/2/a.lp") [1; 1]%Z
               (0, 0, 1)%nat Toy.fresh in
  cells (Datas.n_violations (data out.2)) !! [0; 0; 1]%nat = Some 2%nat
  /\ cells (Datas.max_violation (data out.2)) !! [0; 0; 1]%nat = Some 0.7.
Proof.
  destruct (evaluate_feasibility_records (Toy.read_problem "toys/2/a.lp") [1; 1]%Z
              0 0 1 Toy.fresh) as (_ & _ & H); [reflexivity..|].
  destruct (H eq_refl) as (Hn & Hm & _). split; [exact Hn | exact Hm].
Defined.

Lemma too_few_files_aborts_witness :
  (run_test Toy.read_problem Toy.initial_hamiltonian_adiabatic Toy.eigvalsh Toy.listdir
     "few" [2%nat] 5 Toy.M_strategies true true true).1
  = Raise (ValueError "Folder few/2/ contains only 3 instances, 5 were requested").
Proof.
  destruct (too_few_files_aborts Toy.read_problem Toy.initial_hamiltonian_adiabatic
              Toy.eigvalsh Toy.listdir "few" [2%nat] 5 Toy.M_strategies true true true
              0 2 ["a.lp"; "b.lp"; "c.lp"]) as (_ & _ & H & _);
    [reflexivity | reflexivity | repeat constructor|].
  exact H.
Defined.

Lemma stored_objectives_are_rounded_witness :
  let out := run_instance Toy.read_problem Toy.initial_hamiltonian_adiabatic Toy.eigvalsh
               "toys/2/a.lp" Toy.M_strategies (0, 0)%nat true true true Toy.fresh in
  cells (Datas.fval (data out.2)) !! [0; 0; 1; 0]%nat = Some (inject_Z 4)
  /\ exists xs, out.1 = Ok (instance_of Toy.read_problem "toys/2/a.lp", xs)
                /\ xs !! 0%nat = Some [1; 0]%Z.
Proof.
  destruct (stored_objectives_are_rounded Toy.read_problem
              Toy.initial_hamiltonian_adiabatic Toy.eigvalsh
              "toys/2/a.lp" Toy.M_strategies 0 0 true true true Toy.fresh)
    as (bvars & xs & Hb & Hout & Hall); [vm_compute; reflexivity|].
  destruct (Hall 0%nat "our_M" eq_refl)
    as (zc & zq & _ & Hq & _ & -> & _ & _ & _ & x & Hx & Hrow & _).
  injection Hb as <-. vm_compute in Hrow. injection Hrow as <-.
  split; [exact Hq|]. exists xs. split; [exact Hout | exact Hx].
Defined.

Lemma classical_value_in_every_column_witness :
  let out := run_instance Toy.read_problem Toy.initial_hamiltonian_adiabatic Toy.eigvalsh
               "toys/2/a.lp" Toy.M_strategies (0, 0)%nat true true true Toy.fresh in
  cells (Datas.fval (data out.2)) !! [0; 0; 0; 0]%nat = Some (inject_Z 2)
  /\ cells (Datas.fval (data out.2)) !! [0; 0; 0; 1]%nat = Some (inject_Z 2).
Proof.
  pose proof (classical_value_in_every_column Toy.read_problem
                Toy.initial_hamiltonian_adiabatic Toy.eigvalsh
                "toys/2/a.lp" Toy.M_strategies 0 0 true true true Toy.fresh) as H.
  split; apply H; try (vm_compute; reflexivity); repeat constructor.
Defined.

(** * Further properties *)

(** ** Writes confined to a set *)

Lemma confined_of_touches {A} (c : Exec A) ws (P : write -> Prop) :
  touches c ws -> (forall w, w ∈ ws -> P w) -> confined c P.
Proof.
  intros Hc HP st. destruct (Hc st) as ((evs & Hw & Hsub) & Hl & Hfr).
  split; [|split; [done|]].
  - exists evs. split; [done|]. apply Forall_forall. intros w Hw'.
    apply HP. by eapply elem_of_sublist.
  - intros w Hw'. apply Hfr. intros Hin. by apply Hw', HP.
Qed.

Lemma confined_pure {A} (r : State -> result A) P : confined (fun st => (r st, st)) P.
Proof. eapply confined_of_touches; [apply (touches_pure r [])|]. by intros w ?%elem_of_nil. Qed.

Lemma confined_bind {A B} (c : Exec A) (k : A -> Exec B) P :
  confined c P ->
  (forall a st st1, c st = (Ok a, st1) -> confined (k a) P) ->
  confined (bind c k) P.
Proof.
  intros Hc Hk st. destruct (Hc st) as ((evs1 & Hw1 & Hs1) & Hl1 & Hfr1).
  unfold bind. destruct (c st) as [[a|e] st1] eqn:Hrun; simpl in *.
  - destruct (Hk a st st1 Hrun st1) as ((evs2 & Hw2 & Hs2) & Hl2 & Hfr2).
    split; [|split].
    + exists (evs1 ++ evs2). split; [by rewrite Hw2, Hw1, app_assoc|].
      by apply Forall_app.
    + by eapply same_layout_trans.
    + intros w Hw. by rewrite Hfr2, Hfr1.
  - split; [|done]. by exists evs1.
Qed.

Lemma confined_for_acc {A} (l : list nat) (body : nat -> A -> Exec A) P :
  (forall k acc, k ∈ l -> confined (body k acc) P) ->
  forall acc, confined (for_acc l body acc) P.
Proof.
  induction l as [|k l IH]; intros Hbody acc.
  - apply (confined_pure (fun _ => Ok acc)).
  - simpl. apply confined_bind.
    + apply Hbody. left.
    + intros acc' _ _ _. apply IH. intros k' acc'' Hk'. apply Hbody. by right.
Qed.

Lemma confined_for_range (n : nat) (body : nat -> Exec unit) P :
  (forall k, (k < n)%nat -> confined (body k) P) -> confined (for_range n body) P.
Proof.
  intros Hbody. apply confined_for_acc. intros k _ Hk. apply Hbody.
  apply elem_of_seq in Hk. lia.
Qed.

Lemma confined_store_one {A} (c : Exec A) (w : write) (P : write -> Prop) :
  touches c [w] -> P w -> confined c P.
Proof.
  intros Hc HP. eapply confined_of_touches; [exact Hc|].
  by intros w' ->%list_elem_of_singleton.
Qed.

(** ** The analysis flags gate the gap arrays *)

Section Gating.

Variable read_problem : string -> Problem.t.
Variable initial_hamiltonian_adiabatic : nat -> matrix.
Variable eigvalsh : matrix -> list Q.
Variable listdir : string -> result (list string).

Lemma confined_analyze p bvars i0 i1 k M b c beta :
  confined (analyze initial_hamiltonian_adiabatic eigvalsh p bvars i0 i1 k M b c beta)
    (allowed true b c).
Proof.
  unfold analyze.
  apply confined_bind;
    [by eapply confined_store_one; [apply touches_store_gap|]|]. intros _ _ _ _.
  destruct b; [|apply (confined_pure (fun _ => Ok beta))].
  apply confined_bind; [apply (confined_pure (fun _ => _))|]. intros H' _ _ _.
  apply confined_bind; [apply (confined_pure (fun _ => _))|]. intros min_e _ _ _.
  apply confined_bind; [apply (confined_pure (fun _ => _))|]. intros max_e _ _ _.
  apply confined_bind;
    [apply (confined_pure (fun st => nd_get (Datas.gap (data st)) [i0; i1; k]))|].
  intros g _ _ _.
  apply confined_bind;
    [by eapply confined_store_one; [apply touches_store_gap_norm|]|]. intros _ _ _ _.
  destruct c; [|apply (confined_pure (fun _ => Ok beta))].
  apply confined_bind; [apply (confined_pure (fun _ => _))|]. intros H_mix _ _ _.
  apply confined_bind; [apply (confined_pure (fun _ => _))|]. intros gm _ _ _.
  apply confined_bind;
    [by eapply confined_store_one; [apply touches_store_gap_minimal|]|].
  intros _ _ _ _. apply (confined_pure (fun _ => Ok _)).
Qed.

Lemma confined_strategy_step p c_res bvars M_strategies i0 i1 a b c k loc :
  confined (strategy_step initial_hamiltonian_adiabatic eigvalsh p c_res bvars
              M_strategies i0 i1 a b c k loc) (allowed a b c).
Proof.
  unfold strategy_step.
  apply confined_bind; [apply (confined_pure (fun _ => _))|]. intros strategy _ _ _.
  destruct (Problem.solve_quantum p strategy) as [[q_res M] t].
  apply confined_bind;
    [by eapply confined_store_one; [apply touches_store_fval|]|]. intros _ _ _ _.
  apply confined_bind;
    [by eapply confined_store_one; [apply touches_store_fval|]|]. intros _ _ _ _.
  apply confined_bind;
    [by eapply confined_store_one; [apply touches_store_M|]|]. intros _ _ _ _.
  apply confined_bind;
    [by eapply confined_store_one; [apply touches_store_time|]|]. intros _ _ _ _.
  apply confined_bind; [apply (confined_pure (fun _ => _))|]. intros xs' _ _ _.
  destruct a; [|apply (confined_pure (fun _ => Ok _))].
  apply confined_bind; [apply confined_analyze|]. intros b' _ _ _.
  apply (confined_pure (fun _ => Ok _)).
Qed.

Lemma confined_evaluate_feasibility p x i0 i1 i2 a b c :
  confined (evaluate_feasibility p x (i0, i1, i2)) (allowed a b c).
Proof.
  eapply confined_of_touches; [apply touches_evaluate_feasibility|].
  by intros w [_ Hw]%feasibility_writes_slot; unfold allowed; destruct w.1.
Qed.

Lemma confined_size_loop test_set bvars n_samples M_strategies a b c :
  confined (size_loop read_problem initial_hamiltonian_adiabatic eigvalsh listdir
              test_set bvars n_samples M_strategies a b c) (allowed a b c).
Proof.
  unfold size_loop. apply confined_for_range. intros i _. unfold size_step.
  apply confined_bind; [apply (confined_pure (fun _ => _))|]. intros n_qubs _ _ _.
  apply confined_bind; [apply (confined_pure (fun _ => _))|]. intros listed _ _ _.
  destruct (_ <? _)%nat; [apply (confined_pure (fun _ => Raise _))|].
  apply confined_for_range. intros sample _. unfold sample_step.
  apply confined_bind; [apply (confined_pure (fun _ => _))|]. intros file _ _ _.
  apply confined_bind.
  { unfold run_instance.
    apply confined_bind;
      [apply (confined_pure (fun st => item (Datas.bvars (data st)) i))|].
    intros bv _ _ _.
    apply confined_bind; [|intros; apply (confined_pure (fun _ => Ok _))].
    apply confined_for_acc. intros k acc _. apply confined_strategy_step. }
  intros [p xs] _ _ _. apply confined_for_range. intros k _.
  apply confined_bind; [apply (confined_pure (fun _ => _))|]. intros x _ _ _.
  apply confined_evaluate_feasibility.
Qed.

(** X1: whatever its outcome, a batch run writes a gap array only when its
    flag and the flags before it are set: without [analyze_gaps] the raw,
    normalized and minimal gaps stay as allocated, without
    [analyze_gaps_qite] the normalized and minimal gaps do, without
    [analyze_gaps_adiabatic] the minimal gaps do. *)
Theorem flags_gate_gap_arrays test_set bvars n_samples M_strategies
    analyze_gaps analyze_gaps_qite analyze_gaps_adiabatic :
  let out := run_test read_problem initial_hamiltonian_adiabatic eigvalsh listdir
               test_set bvars n_samples M_strategies
               analyze_gaps analyze_gaps_qite analyze_gaps_adiabatic in
  let d := data out.2 in
  Forall (allowed analyze_gaps analyze_gaps_qite analyze_gaps_adiabatic) (written out.2)
  /\ (analyze_gaps = false -> cells (Datas.gap d) = ∅)
  /\ (analyze_gaps = false \/ analyze_gaps_qite = false -> cells (Datas.gap_norm d) = ∅)
  /\ (analyze_gaps = false \/ analyze_gaps_qite = false \/ analyze_gaps_adiabatic = false ->
      cells (Datas.gap_minimal d) = ∅).
Proof.
  intros out d. subst d out. rewrite run_test_state.
  destruct (confined_size_loop test_set bvars n_samples M_strategies
              analyze_gaps analyze_gaps_qite analyze_gaps_adiabatic
              {| data := Datas_new bvars n_samples (length M_strategies);
                 written := [] |}) as ((evs & -> & Hevs) & _ & Hfr).
  split; [done|].
  assert (forall (f : field) (idx : list nat),
            ~ allowed analyze_gaps analyze_gaps_qite analyze_gaps_adiabatic (f, idx) ->
            peek (data (size_loop read_problem initial_hamiltonian_adiabatic eigvalsh
                          listdir test_set bvars n_samples M_strategies
                          analyze_gaps analyze_gaps_qite analyze_gaps_adiabatic
                          {| data := Datas_new bvars n_samples (length M_strategies);
                             written := [] |}).2) (f, idx) = None) as Hnone.
  { intros f idx Hno. rewrite (Hfr (f, idx) Hno). unfold peek. by destruct f. }
  split; [|split].
  - intros ->. apply map_eq. intros idx. rewrite lookup_empty.
    specialize (Hnone Fgap idx). unfold peek, allowed in Hnone. simpl in Hnone.
    apply fmap_None in Hnone; [done | by intros ?].
  - intros Hoff. apply map_eq. intros idx. rewrite lookup_empty.
    specialize (Hnone Fgap_norm idx). unfold peek, allowed in Hnone. simpl in Hnone.
    apply fmap_None in Hnone; [done|]. intros [-> ->]. by destruct Hoff.
  - intros Hoff. apply map_eq. intros idx. rewrite lookup_empty.
    specialize (Hnone Fgap_minimal idx). unfold peek, allowed in Hnone. simpl in Hnone.
    apply fmap_None in Hnone; [done|]. intros (-> & -> & ->).
    by destruct Hoff as [|[|]].
Qed.

End Gating.

(** ** Writes stay inside the arrays; a completed batch fills every slot *)

Lemma in_bounds_3 n m q i s k :
  (i < n)%nat -> (s < m)%nat -> (k < q)%nat -> in_bounds [n; m; q] [i; s; k] = true.
Proof.
  intros Hi Hs Hk. simpl.
  by rewrite (proj2 (Nat.ltb_lt _ _) Hi), (proj2 (Nat.ltb_lt _ _) Hs),
    (proj2 (Nat.ltb_lt _ _) Hk).
Qed.

Lemma in_bounds_4 n m q i s j k :
  (i < n)%nat -> (s < m)%nat -> (j < 2)%nat -> (k < q)%nat ->
  in_bounds [n; m; 2%nat; q] [i; s; j; k] = true.
Proof.
  intros Hi Hs Hj Hk. simpl.
  by rewrite (proj2 (Nat.ltb_lt _ _) Hi), (proj2 (Nat.ltb_lt _ _) Hs),
    (proj2 (Nat.ltb_lt _ _) Hj), (proj2 (Nat.ltb_lt _ _) Hk).
Qed.


Section Coverage.

Variable read_problem : string -> Problem.t.
Variable initial_hamiltonian_adiabatic : nat -> matrix.
Variable eigvalsh : matrix -> list Q.
Variable listdir : string -> result (list string).


Lemma run_test_slot test_set bvars n_samples M_strategies a b c i sample :
  is_ok (run_test read_problem initial_hamiltonian_adiabatic eigvalsh listdir
           test_set bvars n_samples M_strategies a b c).1 = true ->
  (i < length bvars)%nat -> (sample < n_samples)%nat ->
  exists n_qubs p,
    batch_sample read_problem listdir test_set bvars n_samples i sample n_qubs p.
Proof.
  destruct (run_test _ _ _ _ _ _ _ _ _ _ _) as [[d|e] st] eqn:Hrun; [|discriminate].
  intros _ Hi Hs. apply run_test_Ok in Hrun as [_ Hsizes].
  destruct (lookup_lt_is_Some_2 bvars i Hi) as [n_qubs Hq].
  destruct (Hsizes i n_qubs Hq) as (listed & Hls & Hlen & _).
  destruct (lookup_lt_is_Some_2 (sorted listed) sample) as [file Hfile]; [lia|].
  exists n_qubs, (instance_of read_problem (folder_of test_set n_qubs +:+ file)).
  split; [done|]. split; [done|]. by exists listed, file.
Qed.

(** X3: a batch run that returns has filled every slot: for every size,
    sample and strategy in range the two objective values, the penalty and
    the time are written, so are the gaps the flags ask for, and either the
    feasibility flag or the violation count with the maximum violation. *)
Theorem completed_batch_fills_every_slot test_set bvars n_samples M_strategies
    analyze_gaps analyze_gaps_qite analyze_gaps_adiabatic i sample k :
  let out := run_test read_problem initial_hamiltonian_adiabatic eigvalsh listdir
               test_set bvars n_samples M_strategies
               analyze_gaps analyze_gaps_qite analyze_gaps_adiabatic in
  let d := data out.2 in
  is_ok out.1 = true ->
  (i < length bvars)%nat -> (sample < n_samples)%nat -> (k < length M_strategies)%nat ->
  is_Some (cells (Datas.fval d) !! [i; sample; 0%nat; k])
  /\ is_Some (cells (Datas.fval d) !! [i; sample; 1%nat; k])
  /\ is_Some (cells (Datas.M d) !! [i; sample; k])
  /\ is_Some (cells (Datas.time d) !! [i; sample; k])
  /\ (analyze_gaps = true -> is_Some (cells (Datas.gap d) !! [i; sample; k]))
  /\ (analyze_gaps = true -> analyze_gaps_qite = true ->
      is_Some (cells (Datas.gap_norm d) !! [i; sample; k]))
  /\ (analyze_gaps = true -> analyze_gaps_qite = true -> analyze_gaps_adiabatic = true ->
      is_Some (cells (Datas.gap_minimal d) !! [i; sample; k]))
  /\ (is_Some (cells (Datas.is_feasible d) !! [i; sample; k])
      \/ is_Some (cells (Datas.n_violations d) !! [i; sample; k])
         /\ is_Some (cells (Datas.max_violation d) !! [i; sample; k])).
Proof.
  intros out d Hok Hi Hs Hk.
  destruct (run_test_slot _ _ _ _ _ _ _ _ _ Hok Hi Hs) as (n_qubs & p & Hsample).
  destruct (batch_sample_post _ _ _ _ _ _ _ _ _ _ _ _ _ _ _ Hok Hsample) as (beta & Hslots).
  destruct (lookup_lt_is_Some_2 M_strategies k Hk) as [strategy Hstrat].
  destruct (Hslots k strategy Hstrat) as ((P1 & P2 & P3 & P4 & Pa) & _ & Pf).
  assert (forall (o : option Q) v, CNum <$> o = Some (CNum v) -> is_Some o) as Hnum.
  { intros o v Ho. apply peek_num in Ho. by eexists. }
  split; [by eapply Hnum|]. split; [by eapply Hnum|].
  split; [by eapply Hnum|]. split; [by eapply Hnum|].
  split; [intros Ha; destruct (Pa Ha) as [P5 _]; by eapply Hnum|].
  split.
  { intros Ha Hb. destruct (Pa Ha) as [_ Pb].
    destruct (Pb Hb) as (? & ? & ? & _ & _ & _ & P6 & _).
    apply peek_float in P6. by eexists. }
  split.
  { intros Ha Hb Hc. destruct (Pa Ha) as [_ Pb].
    destruct (Pb Hb) as (? & ? & ? & _ & _ & _ & _ & Pc).
    destruct (Pc Hc) as (? & ? & _ & _ & _ & P7). by eapply Hnum. }
  unfold feasibility_post in Pf.
  destruct (QuadraticProgram.is_feasible _ _).
  - left. unfold peek in Pf. simpl in Pf.
    destruct (cells (Datas.is_feasible _) !! _); [by eexists | discriminate].
  - right. destruct Pf as [Pn Pm]. unfold peek in Pn, Pm. simpl in Pn, Pm. split.
    + destruct (cells (Datas.n_violations _) !! _); [by eexists | discriminate].
    + by eapply Hnum.
Qed.

(** X4: after a batch run with the three analyses that returns, every minimal
    gap stored is positive and at most 1: the second smallest distinct
    eigenvalue lies strictly above the smallest and not above the largest. *)
Theorem minimal_gap_in_unit_interval test_set bvars n_samples M_strategies i sample k :
  let out := run_test read_problem initial_hamiltonian_adiabatic eigvalsh listdir
               test_set bvars n_samples M_strategies true true true in
  is_ok out.1 = true ->
  (i < length bvars)%nat -> (sample < n_samples)%nat -> (k < length M_strategies)%nat ->
  exists g, cells (Datas.gap_minimal (data out.2)) !! [i; sample; k] = Some g
            /\ 0 < g /\ g <= 1.
Proof.
  intros out Hok Hi Hs Hk.
  destruct (run_test_slot _ _ _ _ _ _ _ _ _ Hok Hi Hs) as (n_qubs & p & Hsample).
  destruct (batch_sample_post _ _ _ _ _ _ _ _ _ _ _ _ _ _ _ Hok Hsample) as (beta & Hslots).
  destruct (lookup_lt_is_Some_2 M_strategies k Hk) as [strategy Hstrat].
  destruct (Hslots k strategy Hstrat) as ((_ & _ & _ & _ & Pa) & _).
  destruct (Pa eq_refl) as (_ & Pb).
  destruct (Pb eq_refl) as (H' & min_e & max_e & _ & _ & _ & _ & Pc).
  destruct (Pc eq_refl) as (H_mix & gm & _ & _ & Hgm & P7).
  apply peek_num in P7. exists gm. split; [exact P7|].
  destruct (squeezed_gap_Ok _ _ Hgm) as (e0 & e1 & elast & H0 & H1 & Hlast & ->).
  destruct (np_unique_extremes _ _ _ _ H0 H1 Hlast)
    as (_ & (e' & He' & Hee) & _ & Hbounds & Hlt & _).
  destruct (Hbounds e' He') as [_ Hup].
  assert (0 < elast - e0) as Hpos by lra.
  split.
  - apply Qlt_shift_div_l; [done|]. lra.
  - apply Qle_shift_div_r; [done|]. lra.
Qed.

End Coverage.

(** ** Edge behaviour of the analysis and of the strategy loop *)

Lemma squeezed_gap_degenerate (v : list Q) :
  (forall e e', e ∈ v -> e' ∈ v -> e == e') ->
  squeezed_gap (np_unique v) = Raise IndexError.
Proof.
  intros Hall. destruct (np_unique v) as [|a [|b r]] eqn:Hu; [done..|].
  exfalso.
  destruct (last (a :: b :: r)) as [elast|] eqn:Hlast;
    [|by apply last_None in Hlast].
  rewrite <- Hu in Hlast.
  destruct (np_unique_extremes v a b elast) as ((x & Hx & Hxa) & (y & Hy & Hyb) & _ & _
                                               & Hlt & _);
    [by rewrite Hu..|done|].
  pose proof (Hall x y Hx Hy). lra.
Qed.

Lemma max_viol_loop_nonneg (x : list Z) (V : list Constraint.t) : 0 <= max_viol_loop x V.
Proof. by destruct (max_viol_from x V 0) as (Hge & _). Qed.

(** X5: the maximum violation recorded does not depend on the order in which
    the violated constraints come, and it is never negative. *)
Theorem max_violation_order_independent (x : list Z) (V V' : list Constraint.t) :
  V ≡ₚ V' ->
  max_viol_loop x V == max_viol_loop x V' /\ 0 <= max_viol_loop x V.
Proof.
  intros HP. split; [|apply max_viol_loop_nonneg].
  destruct (max_viol_loop_max x V) as (Hall & Hone & Hnil).
  destruct (max_viol_loop_max x V') as (Hall' & Hone' & Hnil').
  destruct V as [|c V].
  - apply Permutation_nil_l in HP as ->. reflexivity.
  - assert (V' <> []) as Hne'.
    { intros ->. by apply Permutation_nil_r in HP. }
    destruct Hone as (c1 & Hc1 & H1); [done|].
    destruct (Hone' Hne') as (c2 & Hc2 & H2).
    rewrite HP in Hc1. rewrite <- HP in Hc2.
    pose proof (Hall' c1 Hc1). pose proof (Hall c2 Hc2). lra.
Qed.

Lemma rint_integer (q : Q) (z : Z) : q == inject_Z z -> rint q = z.
Proof.
  intros Hq. assert (Qfloor q = z) as Hfl by (rewrite Hq; apply Qfloor_Z).
  unfold rint. rewrite Hfl.
  destruct (Qcompare_spec (q - inject_Z z) (1 # 2)) as [He|Hl|Hg]; [lra | done | lra].
Qed.

Lemma bind_raise {A B} (c : Exec A) (k : A -> Exec B) st e st1 :
  c st = (Raise e, st1) -> bind c k st = (Raise e, st1).
Proof. unfold bind. by intros ->. Qed.

Section Edges.

Variable read_problem : string -> Problem.t.
Variable initial_hamiltonian_adiabatic : nat -> matrix.
Variable eigvalsh : matrix -> list Q.

(** X6: when the eigenvalues of H_mix are all equal, there is no second
    distinct eigenvalue: the adiabatic analysis of the strategy raises
    [IndexError].  The raw and the normalized gap of the slot have been
    stored by then; the minimal gaps are as they were. *)
Theorem degenerate_spectrum_raises p bvars i0 i1 k M beta st H' min_e max_e H_mix :
  in_bounds (shape (Datas.gap (data st))) [i0; i1; k] = true ->
  in_bounds (shape (Datas.gap_norm (data st))) [i0; i1; k] = true ->
  combined_hamiltonian p M = Ok H' ->
  np_min H' = Ok min_e ->
  np_max H' = Ok max_e ->
  mixed_hamiltonian initial_hamiltonian_adiabatic
    (if (k =? 0)%nat then coupling min_e max_e bvars else beta) bvars H' = Ok H_mix ->
  (forall e e', e ∈ eigvalsh H_mix -> e' ∈ eigvalsh H_mix -> e == e') ->
  let out := analyze initial_hamiltonian_adiabatic eigvalsh p bvars i0 i1 k M
               true true beta st in
  out.1 = Raise IndexError
  /\ cells (Datas.gap (data out.2)) !! [i0; i1; k] = Some (raw_gap p M)
  /\ is_Some (cells (Datas.gap_norm (data out.2)) !! [i0; i1; k])
  /\ Datas.gap_minimal (data out.2) = Datas.gap_minimal (data st).
Proof.
  intros Hb1 Hb2 HH' Hmin Hmax Hmix Hall out.
  pose proof (squeezed_gap_degenerate _ Hall) as Hsq.
  assert (exists st2,
            out = (Raise IndexError, st2)
            /\ cells (Datas.gap (data st2)) !! [i0; i1; k] = Some (raw_gap p M)
            /\ is_Some (cells (Datas.gap_norm (data st2)) !! [i0; i1; k])
            /\ Datas.gap_minimal (data st2) = Datas.gap_minimal (data st))
    as (st2 & -> & Hrest); [|done].
  subst out. unfold analyze. eexists.
  erewrite bind_step; [|by apply store_in_bounds].
  unfold combined_hamiltonian in HH'.
  erewrite bind_step; [|unfold lift; by rewrite HH'].
  erewrite bind_step; [|unfold lift; by rewrite Hmin].
  erewrite bind_step; [|unfold lift; by rewrite Hmax].
  erewrite bind_step.
  2:{ unfold load, nd_get. cbn [data Datas.gap Datas.with_gap shape cells fill].
      rewrite Hb1, lookup_insert_eq. reflexivity. }
  erewrite bind_step; [|by apply store_in_bounds].
  erewrite bind_step; [|unfold lift; by rewrite Hmix].
  erewrite bind_raise; [|unfold lift; by rewrite Hsq].
  split; [reflexivity|].
  cbn [data Datas.gap Datas.gap_norm Datas.gap_minimal Datas.with_gap
         Datas.with_gap_norm cells].
  rewrite !lookup_insert_eq. by repeat split.
Qed.

(** X7: when the solver's solution vector has neither one entry per variable
    nor a single entry, the iteration of the strategy raises [ValueError] at
    the assignment of the row; the two objective values, the penalty and the
    time of the slot have been stored by then, no gap has. *)
Theorem wrong_solution_length_raises p c_res bvars M_strategies i0 i1 a b c k loc st
    strategy :
  M_strategies !! k = Some strategy ->
  in_bounds (shape (Datas.fval (data st))) [i0; i1; 0%nat; k] = true ->
  in_bounds (shape (Datas.fval (data st))) [i0; i1; 1%nat; k] = true ->
  in_bounds (shape (Datas.M (data st))) [i0; i1; k] = true ->
  in_bounds (shape (Datas.time (data st))) [i0; i1; k] = true ->
  (k < length (xs loc))%nat ->
  length (OptimizationResult.x (Problem.solve_quantum p strategy).1.1) <> bvars ->
  length (OptimizationResult.x (Problem.solve_quantum p strategy).1.1) <> 1%nat ->
  let out := strategy_step initial_hamiltonian_adiabatic eigvalsh p c_res bvars
               M_strategies i0 i1 a b c k loc st in
  let d := data out.2 in
  (exists msg, out.1 = Raise (ValueError msg))
  /\ cells (Datas.fval d) !! [i0; i1; 0%nat; k]
     = Some (rintQ (OptimizationResult.fval c_res))
  /\ cells (Datas.fval d) !! [i0; i1; 1%nat; k]
     = Some (rintQ (OptimizationResult.fval (Problem.solve_quantum p strategy).1.1))
  /\ cells (Datas.M d) !! [i0; i1; k] = Some (Problem.solve_quantum p strategy).1.2
  /\ cells (Datas.time d) !! [i0; i1; k] = Some (Problem.solve_quantum p strategy).2
  /\ Datas.gap d = Datas.gap (data st)
  /\ Datas.gap_norm d = Datas.gap_norm (data st)
  /\ Datas.gap_minimal d = Datas.gap_minimal (data st).
Proof.
  intros Hs Hb1 Hb2 Hb3 Hb4 Hk Hlen Hone out d. subst d.
  destruct (Problem.solve_quantum p strategy) as [[q_res M] t] eqn:Hsq.
  simpl in Hlen, Hone |- *.
  assert (exists msg st2,
            out = (Raise (ValueError msg), st2)
            /\ cells (Datas.fval (data st2)) !! [i0; i1; 0%nat; k]
               = Some (rintQ (OptimizationResult.fval c_res))
            /\ cells (Datas.fval (data st2)) !! [i0; i1; 1%nat; k]
               = Some (rintQ (OptimizationResult.fval q_res))
            /\ cells (Datas.M (data st2)) !! [i0; i1; k] = Some M
            /\ cells (Datas.time (data st2)) !! [i0; i1; k] = Some t
            /\ Datas.gap (data st2) = Datas.gap (data st)
            /\ Datas.gap_norm (data st2) = Datas.gap_norm (data st)
            /\ Datas.gap_minimal (data st2) = Datas.gap_minimal (data st))
    as (msg & st2 & -> & Hrest); [|split; [by exists msg | done]].
  subst out. unfold strategy_step. do 2 eexists.
  erewrite bind_step; [|unfold lift, item; by rewrite Hs].
  rewrite Hsq.
  erewrite bind_step; [|by apply store_in_bounds].
  erewrite bind_step; [|by apply store_in_bounds].
  erewrite bind_step; [|by apply store_in_bounds].
  erewrite bind_step; [|by apply store_in_bounds].
  erewrite bind_raise.
  2:{ unfold lift, assign_row. rewrite (proj2 (Nat.ltb_lt _ _) Hk).
      rewrite broadcast_row_raise; [reflexivity|..];
        unfold rint_astype_int; by rewrite length_map. }
  split; [reflexivity|].
  cbn [data Datas.fval Datas.M Datas.time Datas.gap Datas.gap_norm
         Datas.gap_minimal Datas.with_fval Datas.with_M Datas.with_time cells].
  split; [rewrite lookup_insert_ne by done; apply lookup_insert_eq|].
  split; [apply lookup_insert_eq|].
  split; [apply lookup_insert_eq|].
  split; [apply lookup_insert_eq|]. done.
Qed.

(** X8: [run_instance] keeps to the slots of its sample: whatever its outcome,
    each write it makes is to a slot (i0, i1, k) of one of its strategies and
    to none of the feasibility arrays, and every cell of another sample or of
    a feasibility array is after the call what it was before; so are the
    sizes, the shapes and the initial values. *)
Theorem run_instance_frame filename M_strategies i0 i1
    analyze_gaps analyze_gaps_qite analyze_gaps_adiabatic st :
  let out := run_instance read_problem initial_hamiltonian_adiabatic eigvalsh
               filename M_strategies (i0, i1)
               analyze_gaps analyze_gaps_qite analyze_gaps_adiabatic st in
  (exists evs,
     written out.2 = written st ++ evs
     /\ Forall (fun w => feasibility_field w.1 = false
                         /\ exists k, (k < length M_strategies)%nat
                                      /\ addressed w = Some (i0, i1, k)) evs)
  /\ Datas.bvars (data out.2) = Datas.bvars (data st)
  /\ (forall f, layout (data out.2) f = layout (data st) f)
  /\ forall w,
       feasibility_field w.1 = true \/ (forall k, addressed w <> Some (i0, i1, k)) ->
       peek (data out.2) w = peek (data st) w.
Proof.
  intros out. subst out.
  destruct (touches_run_instance read_problem initial_hamiltonian_adiabatic eigvalsh
              filename M_strategies i0 i1
              analyze_gaps analyze_gaps_qite analyze_gaps_adiabatic st)
    as ((evs & Hw & Hsub) & [Hb Hl] & Hfr).
  split; [|split; [done|split; [done|]]].
  - exists evs. split; [done|]. apply Forall_forall. intros w Hin.
    eapply elem_of_sublist in Hin; [|exact Hsub].
    apply list_elem_of_bind in Hin as (k & Hin & Hk%elem_of_seq).
    apply strategy_writes_slot in Hin as [Ha Hf].
    split; [done|]. exists k. split; [lia | done].
  - intros w Hcond. apply Hfr.
    intros (k & [Ha Hf]%strategy_writes_slot & _)%list_elem_of_bind.
    destruct Hcond as [Hfeas|Hother]; [congruence | by eapply Hother].
Qed.

(** X9: when [run_instance] returns, the problem it returns is the one read
    from the file and bears the file's path as its name, and the array of
    solutions has one row for each strategy, each row with one entry for each
    of the [data.bvars[i0]] variables. *)
Theorem run_instance_returns_shape filename M_strategies i0 i1
    analyze_gaps analyze_gaps_qite analyze_gaps_adiabatic st :
  let out := run_instance read_problem initial_hamiltonian_adiabatic eigvalsh
               filename M_strategies (i0, i1)
               analyze_gaps analyze_gaps_qite analyze_gaps_adiabatic st in
  is_ok out.1 = true ->
  exists p xs bvars,
    out.1 = Ok (p, xs)
    /\ QuadraticProgram.name (Problem.qp p) = filename
    /\ Problem.solve_exact p = Problem.solve_exact (read_problem filename)
    /\ Problem.solve_quantum p = Problem.solve_quantum (read_problem filename)
    /\ Datas.bvars (data st) !! i0 = Some bvars
    /\ length xs = length M_strategies
    /\ Forall (fun row => length row = bvars) xs.
Proof.
  intros out Hok.
  destruct (run_instance_post read_problem initial_hamiltonian_adiabatic eigvalsh
              filename M_strategies i0 i1 analyze_gaps
              analyze_gaps_qite analyze_gaps_adiabatic st Hok)
    as (bvars & beta & xs & Hb & Hout & Hlen & Hslots).
  exists (instance_of read_problem filename), xs, bvars.
  repeat (split; [done|]).
  apply Forall_lookup. intros k row Hrow.
  destruct (lookup_lt_is_Some_2 M_strategies k) as [strategy Hs].
  { rewrite <- Hlen. by eapply lookup_lt_Some. }
  destruct (Hslots k strategy Hs) as (_ & Hx & Hrow').
  rewrite Hrow in Hrow'. injection Hrow' as ->.
  by destruct (broadcast_row_Ok _ _ _ Hx) as [Hfit _].
Qed.

(** X10: rounding leaves an integral objective value alone: when
    [run_instance] returns and a solver's objective value is an integer, the
    value stored for it is that integer. *)
Theorem integral_objectives_stored_unchanged filename M_strategies i0 i1
    analyze_gaps analyze_gaps_qite analyze_gaps_adiabatic st k strategy :
  let out := run_instance read_problem initial_hamiltonian_adiabatic eigvalsh
               filename M_strategies (i0, i1)
               analyze_gaps analyze_gaps_qite analyze_gaps_adiabatic st in
  let p := instance_of read_problem filename in
  let c_res := Problem.solve_exact p in
  let q_res := (Problem.solve_quantum p strategy).1.1 in
  is_ok out.1 = true ->
  M_strategies !! k = Some strategy ->
  (forall z : Z, OptimizationResult.fval c_res == inject_Z z ->
     cells (Datas.fval (data out.2)) !! [i0; i1; 0%nat; k] = Some (inject_Z z))
  /\ (forall z : Z, OptimizationResult.fval q_res == inject_Z z ->
        cells (Datas.fval (data out.2)) !! [i0; i1; 1%nat; k] = Some (inject_Z z)).
Proof.
  intros out p c_res q_res Hok Hs.
  destruct (run_instance_post read_problem initial_hamiltonian_adiabatic eigvalsh
              filename M_strategies i0 i1 analyze_gaps
              analyze_gaps_qite analyze_gaps_adiabatic st Hok)
    as (bvars & beta & xs & _ & _ & _ & Hslots).
  destruct (Hslots k strategy Hs) as ((P1 & P2 & _) & _).
  apply peek_num in P1, P2. unfold rintQ in P1, P2.
  split; intros z Hz.
  - by rewrite <- (rint_integer _ _ Hz).
  - by rewrite <- (rint_integer _ _ Hz).
Qed.

End Edges.

(** ** The files of a folder *)

Lemma sorted_insert_elem (s t : string) (l : list string) :
  t ∈ sorted_insert s l -> t = s \/ t ∈ l.
Proof.
  intros Ht. rewrite sorted_insert_Permutation in Ht.
  by apply elem_of_cons in Ht.
Qed.

Lemma sorted_insert_sorted (s : string) (l : list string) :
  StronglySorted String.le l -> StronglySorted String.le (sorted_insert s l).
Proof.
  induction 1 as [|t r Hr IH Ht]; simpl.
  - repeat constructor.
  - destruct (String.leb s t) eqn:Hst.
    + constructor; [by constructor|]. constructor.
      * unfold String.le. by rewrite Hst.
      * eapply Forall_impl; [exact Ht|]. intros u Hu. simpl in Hu.
        etrans; [|exact Hu]. unfold String.le. by rewrite Hst.
    + constructor; [done|]. apply Forall_forall. intros u Hu.
      apply sorted_insert_elem in Hu as [->|Hu].
      * destruct (String.leb_total s t) as [H1|H1]; [congruence|].
        unfold String.le. by rewrite H1.
      * eapply Forall_forall in Ht; [exact Ht | done].
Qed.

(** [sorted] returns the names in ascending order. *)
Lemma sorted_ascending (l : list string) : StronglySorted String.le (sorted l).
Proof.
  induction l as [|s l IH]; simpl; [constructor | by apply sorted_insert_sorted].
Qed.

Lemma sorted_of_Permutation (l l' : list string) : l ≡ₚ l' -> sorted l = sorted l'.
Proof.
  intros HP. apply (StronglySorted_unique String.le); [apply sorted_ascending..|].
  by rewrite !sorted_Permutation.
Qed.

Lemma for_acc_ext {A} (l : list nat) (body1 body2 : nat -> A -> Exec A) :
  (forall k acc st, k ∈ l -> body1 k acc st = body2 k acc st) ->
  forall acc st, for_acc l body1 acc st = for_acc l body2 acc st.
Proof.
  induction l as [|k l IH]; intros Hbody acc st; simpl; [done|].
  unfold bind. rewrite Hbody by left.
  destruct (body2 k acc st) as [[acc'|e] st1]; [|done].
  apply IH. intros k' acc'' st' Hk'. apply Hbody. by right.
Qed.

Section Files.

Variable read_problem : string -> Problem.t.
Variable initial_hamiltonian_adiabatic : nat -> matrix.
Variable eigvalsh : matrix -> list Q.

(** X11: the order in which the file system lists a folder does not matter:
    two file systems whose listings of every folder hold the same names, in
    whatever order, or fail alike, give the same batch run, outcome and
    collection. *)
Theorem listing_order_irrelevant (listdir1 listdir2 : string -> result (list string))
    test_set bvars n_samples M_strategies
    analyze_gaps analyze_gaps_qite analyze_gaps_adiabatic :
  (forall folder,
     match listdir1 folder, listdir2 folder with
     | Ok l1, Ok l2 => l1 ≡ₚ l2
     | Raise e1, Raise e2 => e1 = e2
     | _, _ => False
     end) ->
  run_test read_problem initial_hamiltonian_adiabatic eigvalsh listdir1
    test_set bvars n_samples M_strategies
    analyze_gaps analyze_gaps_qite analyze_gaps_adiabatic
  = run_test read_problem initial_hamiltonian_adiabatic eigvalsh listdir2
      test_set bvars n_samples M_strategies
      analyze_gaps analyze_gaps_qite analyze_gaps_adiabatic.
Proof.
  intros Hls. unfold run_test, size_loop, for_range.
  erewrite for_acc_ext; [reflexivity|].
  intros i [] st _. unfold size_step, bind, lift.
  destruct (item bvars i) as [n_qubs|e]; [|done].
  specialize (Hls (folder_of test_set n_qubs)).
  destruct (listdir1 _) as [l1|e1], (listdir2 _) as [l2|e2]; try done.
  - by rewrite (sorted_of_Permutation _ _ Hls).
  - by subst.
Qed.

(** X12: the files of a folder beyond the first [n_samples] in ascending order
    are never used: two file systems that list at least [n_samples] files for
    every size of the batch, with the same [n_samples] first names, give the
    same batch run. *)
Theorem surplus_files_ignored (listdir1 listdir2 : string -> result (list string))
    test_set bvars n_samples M_strategies
    analyze_gaps analyze_gaps_qite analyze_gaps_adiabatic :
  (forall i n_qubs,
     bvars !! i = Some n_qubs ->
     exists l1 l2,
       listdir1 (folder_of test_set n_qubs) = Ok l1
       /\ listdir2 (folder_of test_set n_qubs) = Ok l2
       /\ (n_samples <= length l1)%nat /\ (n_samples <= length l2)%nat
       /\ take n_samples (sorted l1) = take n_samples (sorted l2)) ->
  run_test read_problem initial_hamiltonian_adiabatic eigvalsh listdir1
    test_set bvars n_samples M_strategies
    analyze_gaps analyze_gaps_qite analyze_gaps_adiabatic
  = run_test read_problem initial_hamiltonian_adiabatic eigvalsh listdir2
      test_set bvars n_samples M_strategies
      analyze_gaps analyze_gaps_qite analyze_gaps_adiabatic.
Proof.
  intros Hls. unfold run_test, size_loop, for_range.
  erewrite for_acc_ext; [reflexivity|].
  intros i [] st _. unfold size_step, bind, lift.
  destruct (item bvars i) as [n_qubs|e] eqn:Hq; [|done].
  apply item_Ok in Hq.
  destruct (Hls i n_qubs Hq) as (l1 & l2 & -> & -> & Hn1 & Hn2 & Htake).
  destruct (Nat.ltb_spec (length (sorted l1)) n_samples) as [Hlt|_];
    [rewrite sorted_length in Hlt; lia|].
  destruct (Nat.ltb_spec (length (sorted l2)) n_samples) as [Hlt|_];
    [rewrite sorted_length in Hlt; lia|].
  unfold for_range. apply for_acc_ext.
  intros sample [] st' Hs%elem_of_seq. unfold sample_step, bind, lift, item.
  assert (sorted l1 !! sample = sorted l2 !! sample) as ->; [|done].
  rewrite <- (lookup_take_lt (sorted l1) n_samples sample) by lia.
  rewrite <- (lookup_take_lt (sorted l2) n_samples sample) by lia.
  by rewrite Htake.
Qed.

End Files.

(** ** When a batch stops and when it completes *)

Lemma for_acc_progress {A} (l : list nat) (body : nat -> A -> Exec A)
    (I : A -> State -> Prop) :
  (forall k acc st, k ∈ l -> I acc st ->
     exists acc' st', body k acc st = (Ok acc', st') /\ I acc' st') ->
  forall acc st, I acc st ->
    exists acc' st', for_acc l body acc st = (Ok acc', st') /\ I acc' st'.
Proof.
  induction l as [|k l IH]; intros Hbody acc st HI.
  - by exists acc, st.
  - destruct (Hbody k acc st) as (acc1 & st1 & Hstep & HI1); [left | done|].
    simpl. erewrite bind_step; [|exact Hstep].
    apply IH; [|done]. intros k' acc' st' Hk'. apply Hbody. by right.
Qed.

Lemma layout_shapes bvars n_samples q d :
  (forall f, layout d f = layout (Datas_new bvars n_samples q) f) ->
  shape (Datas.fval d) = [length bvars; n_samples; 2%nat; q]
  /\ shape (Datas.M d) = [length bvars; n_samples; q]
  /\ shape (Datas.time d) = [length bvars; n_samples; q]
  /\ shape (Datas.gap d) = [length bvars; n_samples; q]
  /\ shape (Datas.is_feasible d) = [length bvars; n_samples; q]
  /\ shape (Datas.n_violations d) = [length bvars; n_samples; q]
  /\ shape (Datas.max_violation d) = [length bvars; n_samples; q].
Proof.
  intros Hl.
  pose proof (f_equal fst (Hl Ffval)). pose proof (f_equal fst (Hl FM)).
  pose proof (f_equal fst (Hl Ftime)). pose proof (f_equal fst (Hl Fgap)).
  pose proof (f_equal fst (Hl Fis_feasible)). pose proof (f_equal fst (Hl Fn_violations)).
  pose proof (f_equal fst (Hl Fmax_violation)). done.
Qed.

Section Completion.

Variable read_problem : string -> Problem.t.
Variable initial_hamiltonian_adiabatic : nat -> matrix.
Variable eigvalsh : matrix -> list Q.
Variable listdir : string -> result (list string).

Lemma size_loop_stops_at test_set bvars n_samples M_strategies a b c i e st0 :
  (i < length bvars)%nat ->
  (forall st, size_step read_problem initial_hamiltonian_adiabatic eigvalsh listdir
                test_set bvars n_samples M_strategies a b c i st = (Raise e, st)) ->
  let before :=
    for_range i (size_step read_problem initial_hamiltonian_adiabatic eigvalsh listdir
                   test_set bvars n_samples M_strategies a b c) st0 in
  size_loop read_problem initial_hamiltonian_adiabatic eigvalsh listdir
    test_set bvars n_samples M_strategies a b c st0
  = match before.1 with
    | Ok _ => (Raise e, before.2)
    | Raise e' => (Raise e', before.2)
    end.
Proof.
  intros Hlen Hstep before. subst before. unfold size_loop, for_range.
  replace (length bvars) with (i + S (length bvars - S i))%nat at 1 by lia.
  rewrite seq_app, for_acc_app. unfold bind at 1.
  destruct (for_acc (seq 0 i) _ tt st0) as [[[]|e'] st_i]; [|done].
  simpl seq. cbn [for_acc]. unfold bind at 1. by rewrite Hstep.
Qed.

(** X13: when the folder of a size cannot be listed, the batch driver does not
    return, even if no sample is requested: it stops in the state the sizes
    before that one left, with nothing written for that size, and unless an
    earlier size has raised, it raises what the listing raised. *)
Theorem unlistable_folder_aborts test_set bvars n_samples M_strategies
    analyze_gaps analyze_gaps_qite analyze_gaps_adiabatic i n_qubs e :
  bvars !! i = Some n_qubs ->
  listdir (folder_of test_set n_qubs) = Raise e ->
  let st0 := {| data := Datas_new bvars n_samples (length M_strategies);
                written := [] |} in
  let before :=
    for_range i
      (size_step read_problem initial_hamiltonian_adiabatic eigvalsh listdir
         test_set bvars n_samples M_strategies
         analyze_gaps analyze_gaps_qite analyze_gaps_adiabatic) st0 in
  let out := run_test read_problem initial_hamiltonian_adiabatic eigvalsh listdir
               test_set bvars n_samples M_strategies
               analyze_gaps analyze_gaps_qite analyze_gaps_adiabatic in
  is_ok out.1 = false
  /\ out.2 = before.2
  /\ match before.1 with
     | Ok _ => out.1 = Raise e
     | Raise e' => out.1 = Raise e'
     end
  /\ forall w s k, w ∈ written out.2 -> addressed w <> Some (i, s, k).
Proof.
  intros Hi Hls st0 before out.
  assert (out.2 = before.2
          /\ match before.1 with
             | Ok _ => out.1 = Raise e
             | Raise e' => out.1 = Raise e'
             end) as [Hstate Hout].
  { subst out. unfold run_test. fold st0.
    rewrite (size_loop_stops_at test_set bvars n_samples M_strategies
               analyze_gaps analyze_gaps_qite analyze_gaps_adiabatic i e st0).
    - fold before. by destruct before.1.
    - by eapply lookup_lt_Some.
    - intros st. unfold size_step.
      erewrite bind_step; [|unfold lift, item; by rewrite Hi].
      erewrite bind_raise; [done|]. unfold lift. by rewrite Hls. }
  split; [by destruct before.1; rewrite Hout|].
  split; [done|]. split; [done|].
  intros w s k Hw Haddr. rewrite Hstate in Hw. subst before.
  destruct (touches_for_range i _ (size_writes n_samples (length M_strategies))
              (fun i' _ => touches_size_step read_problem initial_hamiltonian_adiabatic
                             eigvalsh listdir test_set bvars n_samples M_strategies
                             analyze_gaps analyze_gaps_qite analyze_gaps_adiabatic i')
              st0) as ((evs & Hevs & Hsub) & _).
  rewrite Hevs in Hw. simpl in Hw.
  eapply elem_of_sublist in Hw; [|exact Hsub].
  apply list_elem_of_bind in Hw as (i' & Hw & Hi').
  apply size_writes_slot in Hw as (s' & k' & Hw).
  apply elem_of_seq in Hi'. rewrite Haddr in Hw. injection Hw as -> _ _. lia.
Qed.

End Completion.

Lemma allocated_after {A} (c : Exec A) ws bvars n_samples q st r st' :
  touches c ws -> c st = (r, st') ->
  allocated bvars n_samples q (data st) -> allocated bvars n_samples q (data st').
Proof.
  intros Hc Hrun [Hb Hl]. destruct (touches_layout _ _ _ _ _ Hc Hrun) as [Hb' Hl'].
  split; [congruence|]. intros f. by rewrite Hl', Hl.
Qed.

Section Progress.

Variable read_problem : string -> Problem.t.
Variable initial_hamiltonian_adiabatic : nat -> matrix.
Variable eigvalsh : matrix -> list Q.
Variable listdir : string -> result (list string).

Lemma strategy_step_progress bvars0 n_samples p c_res bv M_strategies i s a c k loc st
    strategy :
  allocated bvars0 n_samples (length M_strategies) (data st) ->
  (i < length bvars0)%nat -> (s < n_samples)%nat ->
  M_strategies !! k = Some strategy ->
  length (xs loc) = length M_strategies ->
  length (OptimizationResult.x (Problem.solve_quantum p strategy).1.1) = bv ->
  exists loc' st',
    strategy_step initial_hamiltonian_adiabatic eigvalsh p c_res bv M_strategies
      i s a false c k loc st = (Ok loc', st')
    /\ allocated bvars0 n_samples (length M_strategies) (data st')
    /\ length (xs loc') = length M_strategies.
Proof.
  intros Hal Hi Hs Hstrat Hxs Hx.
  pose proof (lookup_lt_Some _ _ _ Hstrat) as Hk.
  destruct (layout_shapes _ _ _ _ (proj2 Hal)) as (S1 & S2 & S3 & S4 & _).
  assert (in_bounds (shape (Datas.fval (data st))) [i; s; 0%nat; k] = true) as Hb1
    by (rewrite S1; apply in_bounds_4; lia).
  assert (in_bounds (shape (Datas.fval (data st))) [i; s; 1%nat; k] = true) as Hb2
    by (rewrite S1; apply in_bounds_4; lia).
  assert (in_bounds (shape (Datas.M (data st))) [i; s; k] = true) as Hb3
    by (rewrite S2; by apply in_bounds_3).
  assert (in_bounds (shape (Datas.time (data st))) [i; s; k] = true) as Hb4
    by (rewrite S3; by apply in_bounds_3).
  assert (in_bounds (shape (Datas.gap (data st))) [i; s; k] = true) as Hb5
    by (rewrite S4; by apply in_bounds_3).
  assert (exists loc' st',
            strategy_step initial_hamiltonian_adiabatic eigvalsh p c_res bv M_strategies
              i s a false c k loc st = (Ok loc', st')
            /\ length (xs loc') = length M_strategies) as (loc' & st' & Hrun & Hlen).
  { destruct (Problem.solve_quantum p strategy) as [[q_res M] t] eqn:Hsq.
    simpl in Hx. unfold strategy_step.
    destruct a; do 2 eexists;
      (erewrite bind_step; [|unfold lift, item; by rewrite Hstrat]);
      rewrite Hsq;
      do 4 (erewrite bind_step; [|by apply store_in_bounds]);
      (erewrite bind_step;
       [|unfold lift, assign_row;
         rewrite Hxs, (proj2 (Nat.ltb_lt _ _) Hk);
         rewrite broadcast_row_fits by (unfold rint_astype_int; by rewrite length_map);
         reflexivity]).
    - unfold analyze. erewrite bind_step.
      2:{ erewrite bind_step; [|by apply store_in_bounds]. reflexivity. }
      unfold ret. split; [reflexivity|]. simpl. by rewrite length_insert.
    - unfold ret. split; [reflexivity|]. simpl. by rewrite length_insert. }
  exists loc', st'. split; [done|]. split; [|done].
  by eapply allocated_after; [apply touches_strategy_step | exact Hrun|].
Qed.

Lemma run_instance_progress bvars0 n_samples filename M_strategies i s a c st n_qubs :
  allocated bvars0 n_samples (length M_strategies) (data st) ->
  bvars0 !! i = Some n_qubs -> (s < n_samples)%nat ->
  (forall k strategy,
     M_strategies !! k = Some strategy ->
     length (OptimizationResult.x
               (Problem.solve_quantum (instance_of read_problem filename) strategy).1.1)
     = n_qubs) ->
  exists xs st',
    run_instance read_problem initial_hamiltonian_adiabatic eigvalsh
      filename M_strategies (i, s) a false c st
    = (Ok (instance_of read_problem filename, xs), st')
    /\ allocated bvars0 n_samples (length M_strategies) (data st')
    /\ length xs = length M_strategies.
Proof.
  intros Hal Hi Hs Hfit.
  pose proof (lookup_lt_Some _ _ _ Hi) as Hilt.
  unfold run_instance.
  erewrite bind_step.
  2:{ unfold load_bvars, item. destruct Hal as [-> _]. by rewrite Hi. }
  fold (instance_of read_problem filename).
  destruct (for_acc_progress (seq 0 (length M_strategies))
              (strategy_step initial_hamiltonian_adiabatic eigvalsh
                 (instance_of read_problem filename)
                 (Problem.solve_exact (instance_of read_problem filename))
                 n_qubs M_strategies i s a false c)
              (fun loc st => allocated bvars0 n_samples (length M_strategies) (data st)
                             /\ length (xs loc) = length M_strategies))
    with (acc := {| xs := replicate (length M_strategies) (replicate n_qubs 0%Z);
                    beta_fixed := 0 |}) (st := st)
    as (loc' & st' & Hloop & Hal' & Hlen').
  - intros k loc st1 Hk%elem_of_seq [Hal1 Hlen1].
    destruct (lookup_lt_is_Some_2 M_strategies k) as [strategy Hstrat]; [lia|].
    by eapply strategy_step_progress; eauto.
  - split; [done|]. simpl. by rewrite length_replicate.
  - exists (xs loc'), st'. erewrite bind_step; [|exact Hloop]. by split.
Qed.

Lemma evaluate_feasibility_progress bvars0 n_samples q p x i s k st :
  allocated bvars0 n_samples q (data st) ->
  (i < length bvars0)%nat -> (s < n_samples)%nat -> (k < q)%nat ->
  exists st',
    evaluate_feasibility p x (i, s, k) st = (Ok tt, st')
    /\ allocated bvars0 n_samples q (data st').
Proof.
  intros Hal Hi Hs Hk.
  destruct (layout_shapes _ _ _ _ (proj2 Hal)) as (_ & _ & _ & _ & S5 & S6 & S7).
  assert (in_bounds (shape (Datas.is_feasible (data st))) [i; s; k] = true) as Hb1
    by (rewrite S5; by apply in_bounds_3).
  assert (in_bounds (shape (Datas.n_violations (data st))) [i; s; k] = true) as Hb2
    by (rewrite S6; by apply in_bounds_3).
  assert (in_bounds (shape (Datas.max_violation (data st))) [i; s; k] = true) as Hb3
    by (rewrite S7; by apply in_bounds_3).
  assert (exists st', evaluate_feasibility p x (i, s, k) st = (Ok tt, st'))
    as (st' & Hrun).
  { unfold evaluate_feasibility. destruct (QuadraticProgram.is_feasible _ _).
    - eexists. by apply store_in_bounds.
    - eexists. erewrite bind_step; [|by apply store_in_bounds].
      by apply store_in_bounds. }
  exists st'. split; [done|].
  by eapply allocated_after; [apply touches_evaluate_feasibility | exact Hrun|].
Qed.

Lemma sample_step_progress bvars0 n_samples M_strategies a c i folder files sample st
    n_qubs file :
  allocated bvars0 n_samples (length M_strategies) (data st) ->
  bvars0 !! i = Some n_qubs -> (sample < n_samples)%nat ->
  files !! sample = Some file ->
  (forall k strategy,
     M_strategies !! k = Some strategy ->
     length (OptimizationResult.x
               (Problem.solve_quantum (instance_of read_problem (folder +:+ file))
                  strategy).1.1) = n_qubs) ->
  exists st',
    sample_step read_problem initial_hamiltonian_adiabatic eigvalsh
      M_strategies a false c i folder files sample st = (Ok tt, st')
    /\ allocated bvars0 n_samples (length M_strategies) (data st').
Proof.
  intros Hal Hi Hs Hfile Hfit.
  pose proof (lookup_lt_Some _ _ _ Hi) as Hilt.
  destruct (run_instance_progress bvars0 n_samples (folder +:+ file) M_strategies
              i sample a c st n_qubs Hal Hi Hs Hfit) as (xs & st1 & Hinst & Hal1 & Hlen).
  unfold sample_step.
  erewrite bind_step; [|unfold lift, item; by rewrite Hfile].
  erewrite bind_step; [|exact Hinst].
  unfold for_range.
  destruct (for_acc_progress (seq 0 (length M_strategies))
              (fun bigM_idx (_ : unit) =>
                 x <- lift (item xs bigM_idx) ;;
                 evaluate_feasibility (instance_of read_problem (folder +:+ file)) x
                   (i, sample, bigM_idx))
              (fun _ st => allocated bvars0 n_samples (length M_strategies) (data st)))
    with (acc := tt) (st := st1) as ([] & st' & Hloop & Hal'); [|done|by exists st'].
  intros k [] st2 Hk%elem_of_seq Hal2.
  destruct (lookup_lt_is_Some_2 xs k) as [x Hx]; [lia|].
  destruct (evaluate_feasibility_progress bvars0 n_samples (length M_strategies)
              (instance_of read_problem (folder +:+ file)) x i sample k st2)
    as (st3 & Hev & Hal3); [done | done | done | lia|].
  exists tt, st3. split; [|done].
  erewrite bind_step; [exact Hev|]. unfold lift, item. by rewrite Hx.
Qed.

Lemma size_loop_progress test_set bvars n_samples M_strategies a c st :
  allocated bvars n_samples (length M_strategies) (data st) ->
  (forall i n_qubs,
     bvars !! i = Some n_qubs ->
     exists listed,
       listdir (folder_of test_set n_qubs) = Ok listed
       /\ (n_samples <= length listed)%nat
       /\ forall sample file k strategy,
            (sample < n_samples)%nat ->
            sorted listed !! sample = Some file ->
            M_strategies !! k = Some strategy ->
            length (OptimizationResult.x
                      (Problem.solve_quantum
                         (instance_of read_problem (folder_of test_set n_qubs +:+ file))
                         strategy).1.1) = n_qubs) ->
  exists st',
    size_loop read_problem initial_hamiltonian_adiabatic eigvalsh listdir
      test_set bvars n_samples M_strategies a false c st = (Ok tt, st').
Proof.
  intros Hal0 Hready. unfold size_loop, for_range.
  destruct (for_acc_progress (seq 0 (length bvars))
              (fun i (_ : unit) =>
                 size_step read_problem initial_hamiltonian_adiabatic eigvalsh listdir
                   test_set bvars n_samples M_strategies a false c i)
              (fun _ st => allocated bvars n_samples (length M_strategies) (data st)))
    with (acc := tt) (st := st) as ([] & st' & Hloop & _); [|done|by exists st'].
  intros i [] st0 Hi%elem_of_seq Hal.
  destruct (lookup_lt_is_Some_2 bvars i) as [n_qubs Hq]; [lia|].
  destruct (Hready i n_qubs Hq) as (listed & Hls & Hlen & Hfit).
  unfold size_step.
  erewrite bind_step; [|unfold lift, item; by rewrite Hq].
  erewrite bind_step; [|unfold lift; by rewrite Hls].
  destruct (Nat.ltb_spec (length (sorted listed)) n_samples) as [Hlt|_];
    [rewrite sorted_length in Hlt; lia|].
  unfold for_range.
  destruct (for_acc_progress (seq 0 n_samples)
              (fun sample (_ : unit) =>
                 sample_step read_problem initial_hamiltonian_adiabatic eigvalsh
                   M_strategies a false c
                   i (folder_of test_set n_qubs) (sorted listed) sample)
              (fun _ st => allocated bvars n_samples (length M_strategies) (data st)))
    with (acc := tt) (st := st0) as ([] & st' & Hloop & Hal'); [|done|by exists tt, st'].
  intros sample [] st1 Hs%elem_of_seq Hal1.
  destruct (lookup_lt_is_Some_2 (sorted listed) sample) as [file Hfile];
    [rewrite sorted_length; lia|].
  destruct (sample_step_progress bvars n_samples M_strategies a
              c i (folder_of test_set n_qubs) (sorted listed)
              sample st1 n_qubs file) as (st2 & Hstep & Hal2); try done; [lia|..].
  - intros k strategy Hstrat. eapply Hfit; [|done..]. lia.
  - by exists tt, st2.
Qed.

(** X14: a batch without the normalized-gap analysis completes, provided the
    collaborators return: when the folder of every size lists at least
    [n_samples] files and every solver vector of a sample processed has as
    many entries as the size has variables, none of the script's own
    operations raises and the batch driver returns the collection. *)
Theorem batch_completes test_set bvars n_samples M_strategies
    analyze_gaps analyze_gaps_adiabatic :
  (forall i n_qubs,
     bvars !! i = Some n_qubs ->
     exists listed,
       listdir (folder_of test_set n_qubs) = Ok listed
       /\ (n_samples <= length listed)%nat
       /\ forall sample file k strategy,
            (sample < n_samples)%nat ->
            sorted listed !! sample = Some file ->
            M_strategies !! k = Some strategy ->
            length (OptimizationResult.x
                      (Problem.solve_quantum
                         (instance_of read_problem (folder_of test_set n_qubs +:+ file))
                         strategy).1.1) = n_qubs) ->
  let out := run_test read_problem initial_hamiltonian_adiabatic eigvalsh listdir
               test_set bvars n_samples M_strategies
               analyze_gaps false analyze_gaps_adiabatic in
  is_ok out.1 = true /\ out.1 = Ok (data out.2).
Proof.
  intros Hready out. subst out. unfold run_test.
  destruct (size_loop_progress test_set bvars n_samples M_strategies
              analyze_gaps analyze_gaps_adiabatic
              {| data := Datas_new bvars n_samples (length M_strategies);
                 written := [] |}) as (st' & Hloop); [by split | done|].
  by rewrite Hloop.
Qed.

End Progress.

(** ** The sweep over the mixing weights *)

Lemma np_linspace_length (start stop : Q) (num : nat) :
  length (np_linspace start stop num) = num.
Proof.
  destruct num as [|[|div]]; [done..|].
  unfold np_linspace. rewrite length_app, length_map, length_seq. simpl. lia.
Qed.

Lemma np_linspace_bounds (start stop : Q) (num : nat) (a : Q) :
  start <= stop -> a ∈ np_linspace start stop num -> start <= a /\ a <= stop.
Proof.
  intros Hle. destruct num as [|[|div]].
  - by intros ?%elem_of_nil.
  - intros ->%list_elem_of_singleton. split; lra.
  - unfold np_linspace. intros [Ha| ->%list_elem_of_singleton]%elem_of_app; [|split; lra].
    apply list_elem_of_fmap in Ha as (i & -> & Hi%elem_of_seq).
    set (D := inject_Z (Z.of_nat (S div))).
    set (I := inject_Z (Z.of_nat i)).
    assert (0 < D) as HD.
    { unfold D. change 0 with (inject_Z 0). rewrite <- Zlt_Qlt. lia. }
    assert (0 <= I) as HI0.
    { unfold I. change 0 with (inject_Z 0). rewrite <- Zle_Qle. lia. }
    assert (I <= D) as HID.
    { unfold I, D. rewrite <- Zle_Qle. lia. }
    assert (I * ((stop - start) / D) == (I * (stop - start)) / D) as ->
      by (field; lra).
    assert (0 <= I * (stop - start)) as Hnn by (apply Qmult_le_0_compat; lra).
    assert (I * (stop - start) <= (stop - start) * D) as Hup by nra.
    split.
    + assert (0 <= I * (stop - start) / D) by (apply Qle_shift_div_l; lra). lra.
    + assert (I * (stop - start) / D <= stop - start)
        by (apply Qle_shift_div_r; lra). lra.
Qed.

Lemma squeezed_gap_unit (v : list Q) (g : Q) :
  squeezed_gap (np_unique v) = Ok g -> 0 < g /\ g <= 1.
Proof.
  intros Hg.
  destruct (squeezed_gap_Ok _ _ Hg) as (e0 & e1 & elast & H0 & H1 & Hlast & ->).
  destruct (np_unique_extremes _ _ _ _ H0 H1 Hlast)
    as (_ & (e' & He' & Hee) & _ & Hbounds & Hlt & _).
  destruct (Hbounds e' He') as [_ Hup].
  assert (0 < elast - e0) as Hpos by lra.
  split.
  - apply Qlt_shift_div_l; [done|]. lra.
  - apply Qle_shift_div_r; [done|]. lra.
Qed.

Lemma result_bind_Ok {A B} (r : result A) (k : A -> result B) b :
  result_bind r k = Ok b -> exists a, r = Ok a /\ k a = Ok b.
Proof. destruct r as [a|e]; [by exists a | discriminate]. Qed.

Section SweepProperties.

Variable eigvalsh : matrix -> list Q.

Lemma sweep_step_Ok H_0 H alphas i gaps gaps' :
  sweep_step eigvalsh H_0 H alphas i gaps = Ok gaps' ->
  exists a g,
    alphas !! i = Some a /\ gap_at eigvalsh H_0 H a = Ok g
    /\ (i < length gaps)%nat /\ gaps' = <[i := g]> gaps.
Proof.
  unfold sweep_step.
  intros (a & Ha%item_Ok & (g & Hg & Hins)%result_bind_Ok)%result_bind_Ok.
  destruct (Nat.ltb_spec i (length gaps)); [|discriminate].
  injection Hins as <-. by exists a, g.
Qed.

Lemma sweep_loop_Ok H_0 H alphas m :
  forall k0 gaps gaps',
    for_result (seq k0 m) (sweep_step eigvalsh H_0 H alphas) gaps = Ok gaps' ->
    length gaps' = length gaps
    /\ (forall j, (j < k0)%nat -> gaps' !! j = gaps !! j)
    /\ forall i, (k0 <= i < k0 + m)%nat ->
         exists a g,
           alphas !! i = Some a /\ gap_at eigvalsh H_0 H a = Ok g
           /\ gaps' !! i = Some g.
Proof.
  induction m as [|m IH]; intros k0 gaps gaps' Hrun.
  - injection Hrun as <-. repeat split; try done. intros i Hi. lia.
  - simpl in Hrun. apply result_bind_Ok in Hrun as (gaps1 & Hstep & Hloop).
    apply sweep_step_Ok in Hstep as (a & g & Ha & Hg & Hk0 & ->).
    apply IH in Hloop as (Hlen & Hbelow & Hslots).
    rewrite length_insert in Hlen. split; [done|]. split.
    + intros j Hj. rewrite Hbelow by lia. apply list_lookup_insert_ne. lia.
    + intros i Hi. destruct (decide (i = k0)) as [->|Hne]; [|apply Hslots; lia].
      exists a, g. split; [done|]. split; [done|].
      rewrite Hbelow by lia. by apply list_lookup_insert_eq.
Qed.

Lemma sweep_loop_progress H_0 H alphas m :
  forall k0 gaps,
    (k0 + m <= length gaps)%nat ->
    (forall i, (k0 <= i < k0 + m)%nat ->
       exists a, alphas !! i = Some a /\ is_ok (gap_at eigvalsh H_0 H a) = true) ->
    is_ok (for_result (seq k0 m) (sweep_step eigvalsh H_0 H alphas) gaps) = true.
Proof.
  induction m as [|m IH]; intros k0 gaps Hlen Hall; [done|].
  simpl. destruct (Hall k0) as (a & Ha & Hok); [lia|].
  unfold sweep_step at 1. unfold item. rewrite Ha. simpl.
  destruct (gap_at eigvalsh H_0 H a) as [g|e]; [|discriminate]. simpl.
  destruct (Nat.ltb_spec k0 (length gaps)); [|lia]. simpl.
  apply IH; [rewrite length_insert; lia|]. intros i Hi. apply Hall. lia.
Qed.

(** X15: when the sweep returns, it returns one gap for each of the [n_alphas]
    weights of the grid, in the order of the grid: the weights lie between
    0.9 and 1, the entry of a weight is the squeezed gap of the mixture at
    that weight, and every entry is positive and at most 1. *)
Theorem sweep_returns_a_gap_per_weight (n_alphas : nat) H_0 H gaps :
  gaps_various_alphas eigvalsh n_alphas H_0 H = Ok gaps ->
  length gaps = n_alphas
  /\ forall i, (i < n_alphas)%nat ->
       exists a g,
         np_linspace 0.9 1 n_alphas !! i = Some a
         /\ 0.9 <= a /\ a <= 1
         /\ gap_at eigvalsh H_0 H a = Ok g
         /\ gaps !! i = Some g
         /\ 0 < g /\ g <= 1.
Proof.
  unfold gaps_various_alphas. intros (Hlen & _ & Hslots)%sweep_loop_Ok.
  rewrite length_replicate in Hlen. split; [done|]. intros i Hi.
  destruct (Hslots i) as (a & g & Ha & Hg & Hgi); [lia|].
  exists a, g. split; [done|].
  destruct (np_linspace_bounds 0.9 1 n_alphas a) as [Hlo Hhi];
    [lra | by eapply list_elem_of_lookup_2|].
  repeat (split; [done|]).
  unfold gap_at in Hg. apply result_bind_Ok in Hg as (H_mix & _ & Hsq).
  by apply squeezed_gap_unit in Hsq.
Qed.

(** X16: the sweep is all or nothing: it returns exactly when the gap can be
    computed at every weight of the grid; one weight at which the mixture
    cannot be formed or has a single distinct eigenvalue makes the whole
    sweep raise.  With no weight it returns the empty array. *)
Theorem sweep_all_or_nothing (n_alphas : nat) H_0 H :
  (is_ok (gaps_various_alphas eigvalsh n_alphas H_0 H) = true
   <-> forall a, a ∈ np_linspace 0.9 1 n_alphas ->
                 is_ok (gap_at eigvalsh H_0 H a) = true)
  /\ gaps_various_alphas eigvalsh 0 H_0 H = Ok [].
Proof.
  split; [|done]. split.
  - destruct (gaps_various_alphas eigvalsh n_alphas H_0 H) as [gaps|e] eqn:Hrun;
      [|discriminate].
    intros _ a (i & Ha)%list_elem_of_lookup_1.
    unfold gaps_various_alphas in Hrun. apply sweep_loop_Ok in Hrun as (_ & _ & Hslots).
    destruct (Hslots i) as (a' & g & Ha' & Hg & _).
    { apply lookup_lt_Some in Ha. rewrite np_linspace_length in Ha. lia. }
    rewrite Ha in Ha'. injection Ha' as <-. by rewrite Hg.
  - intros Hall. unfold gaps_various_alphas. apply sweep_loop_progress.
    + by rewrite length_replicate.
    + intros i Hi.
      destruct (lookup_lt_is_Some_2 (np_linspace 0.9 1 n_alphas) i) as [a Ha];
        [rewrite np_linspace_length; lia|].
      exists a. split; [done|]. apply Hall. by eapply list_elem_of_lookup_2.
Qed.

End SweepProperties.

(** ** The feasibility arrays tell the verdict *)

Lemma touches_evaluate_feasibility_branch p x i0 i1 i2 :
  touches (evaluate_feasibility p x (i0, i1, i2))
    (if QuadraticProgram.is_feasible (Problem.qp p) x
     then [(Fis_feasible, [i0; i1; i2])]
     else [(Fn_violations, [i0; i1; i2]); (Fmax_violation, [i0; i1; i2])]).
Proof.
  unfold evaluate_feasibility.
  destruct (QuadraticProgram.is_feasible (Problem.qp p) x).
  - apply touches_store_is_feasible.
  - apply (touches_bind _ _ [(Fn_violations, [i0; i1; i2])]
             [(Fmax_violation, [i0; i1; i2])]).
    + apply touches_store_n_violations.
    + intros _. apply touches_store_max_violation.
Qed.

Lemma peek_flag (o : option bool) (v : bool) : CFlag <$> o = Some (CFlag v) -> o = Some v.
Proof. destruct o; simpl; [by intros [= ->] | discriminate]. Qed.

Lemma peek_count (o : option nat) (v : nat) : CCount <$> o = Some (CCount v) -> o = Some v.
Proof. destruct o; simpl; [by intros [= ->] | discriminate]. Qed.

Section VerdictProperties.

Variable read_problem : string -> Problem.t.
Variable initial_hamiltonian_adiabatic : nat -> matrix.
Variable eigvalsh : matrix -> list Q.
Variable listdir : string -> result (list string).

Lemma confined_on_of_confined {A} (B : list nat) (c : Exec A) P :
  confined c P -> confined_on B c P.
Proof. intros Hc st _. apply Hc. Qed.

Lemma confined_on_bind {A B} (Bv : list nat) (c : Exec A) (k : A -> Exec B) P :
  confined_on Bv c P ->
  (forall a st st1,
     Datas.bvars (data st) = Bv -> c st = (Ok a, st1) -> confined_on Bv (k a) P) ->
  confined_on Bv (bind c k) P.
Proof.
  intros Hc Hk st Hst. destruct (Hc st Hst) as ((evs1 & Hw1 & Hs1) & Hl1 & Hfr1).
  unfold bind. destruct (c st) as [[a|e] st1] eqn:Hrun; simpl in *.
  - assert (Datas.bvars (data st1) = Bv) as Hst1 by (destruct Hl1; congruence).
    destruct (Hk a st st1 Hst Hrun st1 Hst1) as ((evs2 & Hw2 & Hs2) & Hl2 & Hfr2).
    split; [|split].
    + exists (evs1 ++ evs2). split; [by rewrite Hw2, Hw1, app_assoc|].
      by apply Forall_app.
    + by eapply same_layout_trans.
    + intros w Hw. by rewrite Hfr2, Hfr1.
  - split; [|done]. by exists evs1.
Qed.

Lemma confined_on_for_acc {A} (Bv : list nat) (l : list nat)
    (body : nat -> A -> Exec A) P :
  (forall k acc, k ∈ l -> confined_on Bv (body k acc) P) ->
  forall acc, confined_on Bv (for_acc l body acc) P.
Proof.
  induction l as [|k l IH]; intros Hbody acc.
  - apply confined_on_of_confined, (confined_pure (fun _ => Ok acc)).
  - simpl. apply confined_on_bind.
    + apply Hbody. left.
    + intros acc' _ _ _ _. apply IH. intros k' acc'' Hk'. apply Hbody. by right.
Qed.

Lemma confined_on_for_range (Bv : list nat) (n : nat) (body : nat -> Exec unit) P :
  (forall k, (k < n)%nat -> confined_on Bv (body k) P) ->
  confined_on Bv (for_range n body) P.
Proof.
  intros Hbody. apply confined_on_for_acc. intros k _ Hk. apply Hbody.
  apply elem_of_seq in Hk. lia.
Qed.

Lemma confined_size_loop_verdict test_set bvars n_samples M_strategies a b c :
  confined_on bvars
    (size_loop read_problem initial_hamiltonian_adiabatic eigvalsh listdir
       test_set bvars n_samples M_strategies a b c)
    (agrees_with_verdict read_problem listdir test_set bvars n_samples M_strategies).
Proof.
  unfold size_loop. apply confined_on_for_range. intros i _. unfold size_step.
  apply confined_on_bind;
    [apply confined_on_of_confined, (confined_pure (fun _ => _))|].
  intros n_qubs ? ? _ [Hq%item_Ok _]%lift_Ok.
  apply confined_on_bind;
    [apply confined_on_of_confined, (confined_pure (fun _ => _))|].
  intros listed ? ? _ [Hls _]%lift_Ok.
  destruct (_ <? _)%nat;
    [apply confined_on_of_confined, (confined_pure (fun _ => Raise _))|].
  apply confined_on_for_range. intros sample _. unfold sample_step.
  apply confined_on_bind;
    [apply confined_on_of_confined, (confined_pure (fun _ => _))|].
  intros file ? ? _ [Hfile%item_Ok _]%lift_Ok.
  apply confined_on_bind.
  { apply confined_on_of_confined.
    eapply confined_of_touches; [apply touches_run_instance|].
    intros w (k & [_ Hw]%strategy_writes_slot & _)%list_elem_of_bind.
    intros ? ? ? ? ? ? _ _ _. destruct w as [f idx]. simpl in Hw. by destruct f. }
  intros [p xs] sta stb Hsta Hinst.
  apply run_instance_Ok in Hinst as (bv & beta & Hbv & -> & _ & Hslots).
  rewrite Hsta, Hq in Hbv. injection Hbv as <-.
  apply confined_on_for_range. intros k _.
  apply confined_on_bind;
    [apply confined_on_of_confined, (confined_pure (fun _ => _))|].
  intros x ? ? _ [Hx%item_Ok _]%lift_Ok.
  apply confined_on_of_confined.
  eapply confined_of_touches; [apply touches_evaluate_feasibility_branch|].
  intros w Hw i' sample' k' n_qubs' p' strategy' Haddr (Hq' & _ & l' & file' & Hls' & Hfile' & ->)
    Hstrat'.
  assert (addressed w = Some (i, sample, k)
          /\ match w.1 with
             | Fis_feasible =>
                 QuadraticProgram.is_feasible
                   (Problem.qp (Problem.with_qp (read_problem (folder_of test_set n_qubs +:+ file))
                      (QuadraticProgram.with_name
                         (Problem.qp (read_problem (folder_of test_set n_qubs +:+ file)))
                         (folder_of test_set n_qubs +:+ file)))) x = true
             | Fn_violations | Fmax_violation =>
                 QuadraticProgram.is_feasible
                   (Problem.qp (Problem.with_qp (read_problem (folder_of test_set n_qubs +:+ file))
                      (QuadraticProgram.with_name
                         (Problem.qp (read_problem (folder_of test_set n_qubs +:+ file)))
                         (folder_of test_set n_qubs +:+ file)))) x = false
             | _ => True
             end) as [Haddr0 Hverdict].
  { destruct (QuadraticProgram.is_feasible _ x) eqn:Hfeas.
    - by apply list_elem_of_singleton in Hw as ->.
    - apply elem_of_cons in Hw as [->|Hw]; [done|].
      by apply list_elem_of_singleton in Hw as ->. }
  rewrite Haddr in Haddr0. injection Haddr0 as -> -> ->.
  rewrite Hq in Hq'. injection Hq' as <-.
  rewrite Hls in Hls'. injection Hls' as <-.
  rewrite Hfile in Hfile'. injection Hfile' as <-.
  destruct (Hslots k strategy' Hstrat') as (_ & _ & Hrow).
  rewrite Hx in Hrow. injection Hrow as ->.
  exact Hverdict.
Qed.

(** X17: after a batch run that returns, the feasibility arrays tell the
    verdict of every slot on the row handed over for it: for a feasible
    solution the flag is true and the violation count and maximum violation
    of the slot were never written; for an infeasible one the flag was never
    written and the count and the maximum are those of its violated
    constraints. *)
Theorem feasibility_arrays_tell_the_verdict test_set bvars n_samples M_strategies
    analyze_gaps analyze_gaps_qite analyze_gaps_adiabatic i sample n_qubs p k strategy :
  let out := run_test read_problem initial_hamiltonian_adiabatic eigvalsh listdir
               test_set bvars n_samples M_strategies
               analyze_gaps analyze_gaps_qite analyze_gaps_adiabatic in
  let d := data out.2 in
  let x := solution_row n_qubs p strategy in
  let V := (QuadraticProgram.get_feasibility_info (Problem.qp p) x).2 in
  is_ok out.1 = true ->
  batch_sample read_problem listdir test_set bvars n_samples i sample n_qubs p ->
  M_strategies !! k = Some strategy ->
  if QuadraticProgram.is_feasible (Problem.qp p) x
  then cells (Datas.is_feasible d) !! [i; sample; k] = Some true
       /\ cells (Datas.n_violations d) !! [i; sample; k] = None
       /\ cells (Datas.max_violation d) !! [i; sample; k] = None
  else cells (Datas.is_feasible d) !! [i; sample; k] = None
       /\ cells (Datas.n_violations d) !! [i; sample; k] = Some (length V)
       /\ cells (Datas.max_violation d) !! [i; sample; k] = Some (max_viol_loop x V).
Proof.
  intros out d x V Hok Hsample Hstrat.
  destruct (batch_sample_post _ _ _ _ _ _ _ _ _ _ _ _ _ _ _ Hok Hsample) as (beta & Hslots).
  destruct (Hslots k strategy Hstrat) as (_ & _ & Pf).
  assert (forall f,
            ~ agrees_with_verdict read_problem listdir test_set bvars n_samples
                M_strategies (f, [i; sample; k]) ->
            peek d (f, [i; sample; k]) = None) as Hnone.
  { intros f Hno. subst d out. rewrite run_test_state.
    destruct (confined_size_loop_verdict test_set bvars n_samples M_strategies
                analyze_gaps analyze_gaps_qite analyze_gaps_adiabatic
                {| data := Datas_new bvars n_samples (length M_strategies);
                   written := [] |} eq_refl) as (_ & _ & Hfr).
    rewrite (Hfr _ Hno). unfold peek. by destruct f. }
  unfold feasibility_post in Pf. fold x in Pf. fold V in Pf.
  destruct (QuadraticProgram.is_feasible (Problem.qp p) x) eqn:Hfeas.
  - unfold peek in Pf. simpl in Pf.
    split; [by apply peek_flag|].
    split.
    + specialize (Hnone Fn_violations). unfold peek in Hnone. simpl in Hnone.
      eapply fmap_None, Hnone. intros Hag.
      specialize (Hag i sample k n_qubs p strategy eq_refl Hsample Hstrat).
      simpl in Hag. fold x in Hag. congruence.
    + specialize (Hnone Fmax_violation). unfold peek in Hnone. simpl in Hnone.
      eapply fmap_None, Hnone. intros Hag.
      specialize (Hag i sample k n_qubs p strategy eq_refl Hsample Hstrat).
      simpl in Hag. fold x in Hag. congruence.
  - destruct Pf as [Pn Pm]. unfold peek in Pn, Pm. simpl in Pn, Pm.
    split.
    + specialize (Hnone Fis_feasible). unfold peek in Hnone. simpl in Hnone.
      eapply fmap_None, Hnone. intros Hag.
      specialize (Hag i sample k n_qubs p strategy eq_refl Hsample Hstrat).
      simpl in Hag. fold x in Hag. congruence.
    + split; [by apply peek_count | by apply peek_num].
Qed.

End VerdictProperties.

(** ** The script's own run *)

Lemma np_arange_6_17_10 : np_arange 6 17 10 = [6; 16]%nat.
Proof. reflexivity. Qed.

Section MainProperties.

Variable read_problem : string -> Problem.t.
Variable initial_hamiltonian_adiabatic : nat -> matrix.
Variable eigvalsh : matrix -> list Q.
Variable listdir : string -> result (list string).

(** X18: the run at the bottom of the script is a batch over the sizes 6 and
    16 of the folders [../../toys/NN_linear_deg5/6/] and
    [../../toys/NN_linear_deg5/16/].  When each of the two lists at least
    five files and the solver [improved_M] answers with 6 and with 16 entries
    on the first five files of each, the run returns the collection, whatever
    else the file system holds; the collection has the sizes 6 and 16 and
    none of its gap arrays has been written. *)
Theorem script_run_completes (l6 l16 : list string) :
  listdir "../../toys/NN_linear_deg5/6/" = Ok l6 ->
  listdir "../../toys/NN_linear_deg5/16/" = Ok l16 ->
  (5 <= length l6)%nat ->
  (5 <= length l16)%nat ->
  Forall (fun file =>
            length (OptimizationResult.x
                      (Problem.solve_quantum
                         (instance_of read_problem
                            ("../../toys/NN_linear_deg5/6/" +:+ file))
                         "improved_M").1.1) = 6%nat) (take 5 (sorted l6)) ->
  Forall (fun file =>
            length (OptimizationResult.x
                      (Problem.solve_quantum
                         (instance_of read_problem
                            ("../../toys/NN_linear_deg5/16/" +:+ file))
                         "improved_M").1.1) = 16%nat) (take 5 (sorted l16)) ->
  let out := main read_problem initial_hamiltonian_adiabatic eigvalsh listdir in
  out.1 = Ok (data out.2)
  /\ Datas.bvars (data out.2) = [6; 16]%nat
  /\ cells (Datas.gap (data out.2)) = ∅
  /\ cells (Datas.gap_norm (data out.2)) = ∅
  /\ cells (Datas.gap_minimal (data out.2)) = ∅.
Proof.
  intros H6 H16 Hn6 Hn16 Hx6 Hx16 out. subst out. unfold main.
  rewrite np_arange_6_17_10.
  set (st0 := {| data := Datas_new [6; 16]%nat 5 (length ["improved_M"]);
                 written := [] |}).
  destruct (size_loop_progress read_problem initial_hamiltonian_adiabatic eigvalsh
              listdir "../../toys/NN_linear_deg5" [6; 16]%nat 5 ["improved_M"]
              false false st0) as (st' & Hloop).
  { by split. }
  { intros [|[|i]] n_qubs [= <-].
    - exists l6. split; [exact H6|]. split; [done|].
      intros sample file [|k] strategy Hs Hfile [= <-].
      eapply (proj1 (Forall_forall _ _) Hx6), list_elem_of_lookup_2.
      by rewrite lookup_take_lt.
    - exists l16. split; [exact H16|]. split; [done|].
      intros sample file [|k] strategy Hs Hfile [= <-].
      eapply (proj1 (Forall_forall _ _) Hx16), list_elem_of_lookup_2.
      by rewrite lookup_take_lt. }
  destruct (confined_size_loop read_problem initial_hamiltonian_adiabatic eigvalsh
              listdir "../../toys/NN_linear_deg5" [6; 16]%nat 5 ["improved_M"]
              false false false st0) as (_ & [Hb _] & Hfr).
  unfold run_test. fold st0. rewrite Hloop in Hb, Hfr |- *. simpl in Hb, Hfr |- *.
  split; [done|]. split; [done|].
  assert (forall (f : field) (idx : list nat),
            ~ allowed false false false (f, idx) -> peek (data st') (f, idx) = None)
    as Hnone.
  { intros f idx Hno. rewrite (Hfr (f, idx) Hno). unfold peek. by destruct f. }
  repeat split; apply map_eq; intros idx; rewrite lookup_empty.
  - specialize (Hnone Fgap idx). unfold peek, allowed in Hnone. simpl in Hnone.
    apply fmap_None in Hnone; [done | by intros ?].
  - specialize (Hnone Fgap_norm idx). unfold peek, allowed in Hnone. simpl in Hnone.
    apply fmap_None in Hnone; [done | by intros [? ?]].
  - specialize (Hnone Fgap_minimal idx). unfold peek, allowed in Hnone. simpl in Hnone.
    apply fmap_None in Hnone; [done | by intros [? ?]].
Qed.

End MainProperties.

(** ** The further properties on the small test set *)

Lemma completed_batch_fills_every_slot_witness :
  is_Some (cells (Datas.fval (data Toy.batch.2)) !! [0; 0; 1; 1]%nat)
  /\ is_Some (cells (Datas.gap_minimal (data Toy.batch.2)) !! [0; 0; 1]%nat).
Proof.
  destruct (completed_batch_fills_every_slot Toy.read_problem
              Toy.initial_hamiltonian_adiabatic Toy.eigvalsh Toy.listdir
              "toys" [2%nat] 2 Toy.M_strategies true true true 0 0 1)
    as (_ & Hq & _ & _ & _ & _ & Hm & _);
    [vm_compute; reflexivity | simpl; lia..|].
  split; [exact Hq | exact (Hm eq_refl eq_refl eq_refl)].
Defined.

Lemma minimal_gap_in_unit_interval_witness :
  exists g, cells (Datas.gap_minimal (data Toy.batch.2)) !! [0; 1; 0]%nat = Some g
            /\ 0 < g /\ g <= 1.
Proof.
  apply (minimal_gap_in_unit_interval Toy.read_problem
           Toy.initial_hamiltonian_adiabatic Toy.eigvalsh Toy.listdir
           "toys" [2%nat] 2 Toy.M_strategies 0 1 0);
    [vm_compute; reflexivity | simpl; lia..].
Defined.

Lemma max_violation_order_independent_witness :
  max_viol_loop [1; 1]%Z [Toy.con_a; Toy.con_b]
  == max_viol_loop [1; 1]%Z [Toy.con_b; Toy.con_a]
  /\ 0 <= max_viol_loop [1; 1]%Z [Toy.con_a; Toy.con_b].
Proof.
  apply (max_violation_order_independent [1; 1]%Z
           [Toy.con_a; Toy.con_b] [Toy.con_b; Toy.con_a]).
  apply perm_swap.
Defined.

Lemma eigvalsh_flat_one (m : matrix) (e e' : Q) :
  e ∈ Cases.eigvalsh_flat m -> e' ∈ Cases.eigvalsh_flat m -> e == e'.
Proof.
  unfold Cases.eigvalsh_flat. intros He He'.
  assert (forall q : Q, q ∈ [1; 1] -> q = 1) as Hone.
  { intros q Hq. repeat (apply elem_of_cons in Hq as [Hq|Hq]; [done|]).
    by apply elem_of_nil in Hq. }
  by rewrite (Hone e He), (Hone e' He').
Qed.

Lemma degenerate_spectrum_raises_witness :
  let out := analyze Toy.initial_hamiltonian_adiabatic Cases.eigvalsh_flat
               (Toy.read_problem "toys/2/a.lp") 2 0 0 0 2 true true 0 Toy.fresh in
  out.1 = Raise IndexError
  /\ cells (Datas.gap (data out.2)) !! [0; 0; 0]%nat = Some 1.
Proof.
  edestruct (degenerate_spectrum_raises Toy.initial_hamiltonian_adiabatic
               Cases.eigvalsh_flat (Toy.read_problem "toys/2/a.lp") 2 0 0 0 2 0 Toy.fresh)
    as (Hout & Hgap & _); [reflexivity.. | intros e e'; apply eigvalsh_flat_one |].
  split; [exact Hout | exact Hgap].
Defined.

Lemma wrong_solution_length_raises_witness :
  exists msg,
    (strategy_step Toy.initial_hamiltonian_adiabatic Toy.eigvalsh Cases.long Toy.exact 2
       Toy.M_strategies 0 0 true true true 0
       {| xs := replicate 2 (replicate 2 0%Z); beta_fixed := 0 |} Toy.fresh).1
    = Raise (ValueError msg).
Proof.
  destruct (wrong_solution_length_raises Toy.initial_hamiltonian_adiabatic Toy.eigvalsh
              Cases.long Toy.exact 2 Toy.M_strategies 0 0 true true true 0
              {| xs := replicate 2 (replicate 2 0%Z); beta_fixed := 0 |} Toy.fresh
              "our_M") as (Hout & _);
    [reflexivity.. | simpl; lia | simpl; lia | simpl; lia |].
  exact Hout.
Defined.

Lemma run_instance_returns_shape_witness :
  exists p xs,
    (run_instance Toy.read_problem Toy.initial_hamiltonian_adiabatic Toy.eigvalsh
       "toys/2/a.lp" Toy.M_strategies (0, 0)%nat true true true Toy.fresh).1 = Ok (p, xs)
    /\ QuadraticProgram.name (Problem.qp p) = "toys/2/a.lp"
    /\ length xs = 2%nat
    /\ Forall (fun row => length row = 2%nat) xs.
Proof.
  destruct (run_instance_returns_shape Toy.read_problem
              Toy.initial_hamiltonian_adiabatic Toy.eigvalsh
              "toys/2/a.lp" Toy.M_strategies 0 0 true true true Toy.fresh)
    as (p & xs & bvars & Hout & Hname & _ & _ & Hb & Hlen & Hrows);
    [vm_compute; reflexivity|].
  injection Hb as <-. exists p, xs.
  split; [exact Hout|]. split; [exact Hname|]. split; [exact Hlen | exact Hrows].
Defined.

Lemma integral_objectives_stored_unchanged_witness :
  let out := run_instance Cases.read_whole Toy.initial_hamiltonian_adiabatic Toy.eigvalsh
               "toys/2/a.lp" Toy.M_strategies (0, 0)%nat true true true Toy.fresh in
  cells (Datas.fval (data out.2)) !! [0; 0; 0; 1]%nat = Some (inject_Z 3)
  /\ cells (Datas.fval (data out.2)) !! [0; 0; 1; 1]%nat = Some (inject_Z 4).
Proof.
  destruct (integral_objectives_stored_unchanged Cases.read_whole
              Toy.initial_hamiltonian_adiabatic Toy.eigvalsh
              "toys/2/a.lp" Toy.M_strategies 0 0 true true true Toy.fresh 1 "qiskit_M")
    as (Hc & Hq); [vm_compute; reflexivity | reflexivity|].
  split; [apply Hc | apply Hq]; reflexivity.
Defined.

Lemma listdir_reversed_same_names (folder : string) :
  match Toy.listdir folder, Cases.listdir_reversed folder with
  | Ok l1, Ok l2 => l1 ≡ₚ l2
  | Raise e1, Raise e2 => e1 = e2
  | _, _ => False
  end.
Proof.
  unfold Cases.listdir_reversed. destruct (Toy.listdir folder) as [l|e]; [|done].
  symmetry. apply reverse_Permutation.
Qed.

Lemma listing_order_irrelevant_witness :
  Toy.batch
  = run_test Toy.read_problem Toy.initial_hamiltonian_adiabatic Toy.eigvalsh
      Cases.listdir_reversed "toys" [2%nat] 2 Toy.M_strategies true true true.
Proof.
  apply (listing_order_irrelevant Toy.read_problem Toy.initial_hamiltonian_adiabatic
           Toy.eigvalsh Toy.listdir Cases.listdir_reversed).
  exact listdir_reversed_same_names.
Defined.

Lemma surplus_files_ignored_witness :
  run_test Toy.read_problem Toy.initial_hamiltonian_adiabatic Toy.eigvalsh
    Toy.listdir "few" [2%nat] 2 Toy.M_strategies true true true
  = run_test Toy.read_problem Toy.initial_hamiltonian_adiabatic Toy.eigvalsh
      Cases.listdir_surplus "few" [2%nat] 2 Toy.M_strategies true true true.
Proof.
  apply (surplus_files_ignored Toy.read_problem Toy.initial_hamiltonian_adiabatic
           Toy.eigvalsh Toy.listdir Cases.listdir_surplus).
  intros [|i] n_qubs [= <-].
  exists ["a.lp"; "b.lp"; "c.lp"], ["z.lp"; "b.lp"; "y.lp"; "a.lp"].
  repeat split; try reflexivity; simpl; lia.
Defined.

Lemma unlistable_folder_aborts_witness :
  let out := run_test Toy.read_problem Toy.initial_hamiltonian_adiabatic Toy.eigvalsh
               Toy.listdir "toys" [2; 3]%nat 2 Toy.M_strategies true true true in
  is_ok out.1 = false
  /\ forall w s k, w ∈ written out.2 -> addressed w <> Some (1%nat, s, k).
Proof.
  destruct (unlistable_folder_aborts Toy.read_problem Toy.initial_hamiltonian_adiabatic
              Toy.eigvalsh Toy.listdir "toys" [2; 3]%nat 2 Toy.M_strategies
              true true true 1 3 OSError) as (Hno & _ & _ & Hw); [reflexivity..|].
  split; [exact Hno | exact Hw].
Defined.

Lemma toy_solutions_fit (i n_qubs : nat) :
  [2%nat] !! i = Some n_qubs ->
  exists listed,
    Toy.listdir (folder_of "toys" n_qubs) = Ok listed
    /\ (2 <= length listed)%nat
    /\ forall sample file k strategy,
         (sample < 2)%nat ->
         sorted listed !! sample = Some file ->
         Toy.M_strategies !! k = Some strategy ->
         length (OptimizationResult.x
                   (Problem.solve_quantum
                      (instance_of Toy.read_problem (folder_of "toys" n_qubs +:+ file))
                      strategy).1.1) = n_qubs.
Proof.
  destruct i as [|i]; intros [= <-]. exists ["b.lp"; "a.lp"].
  split; [reflexivity|]. split; [simpl; lia|].
  intros sample file k strategy _ _ _. simpl. unfold Toy.quantum.
  by destruct (String.eqb strategy "our_M").
Qed.

Lemma batch_completes_witness :
  is_ok (run_test Toy.read_problem Toy.initial_hamiltonian_adiabatic Toy.eigvalsh
           Toy.listdir "toys" [2%nat] 2 Toy.M_strategies true false true).1 = true.
Proof.
  destruct (batch_completes Toy.read_problem Toy.initial_hamiltonian_adiabatic
              Toy.eigvalsh Toy.listdir "toys" [2%nat] 2 Toy.M_strategies true true)
    as (Hok & _); [exact toy_solutions_fit|].
  exact Hok.
Defined.

Lemma sweep_returns_a_gap_per_weight_witness :
  exists gaps,
    gaps_various_alphas Toy.eigvalsh 3 (Toy.initial_hamiltonian_adiabatic 2) [0; 1; 2; 3]
    = Ok gaps
    /\ length gaps = 3%nat.
Proof.
  eexists. split; [vm_compute; reflexivity|].
  eapply (sweep_returns_a_gap_per_weight Toy.eigvalsh 3
            (Toy.initial_hamiltonian_adiabatic 2) [0; 1; 2; 3]).
  vm_compute. reflexivity.
Defined.

Lemma feasibility_arrays_tell_the_verdict_witness :
  let d := data (run_test Toy.read_problem Toy.initial_hamiltonian_adiabatic Toy.eigvalsh
                   Toy.listdir "toys" [2%nat] 2 Toy.M_strategies true true true).2 in
  cells (Datas.is_feasible d) !! [0; 0; 1]%nat = None
  /\ cells (Datas.n_violations d) !! [0; 0; 1]%nat = Some 2%nat
  /\ cells (Datas.max_violation d) !! [0; 0; 1]%nat
     = Some (max_viol_loop [1; 1]%Z [Toy.con_a; Toy.con_b]).
Proof.
  exact (feasibility_arrays_tell_the_verdict Toy.read_problem
           Toy.initial_hamiltonian_adiabatic Toy.eigvalsh Toy.listdir
           "toys" [2%nat] 2 Toy.M_strategies true true true
           0 0 2 (instance_of Toy.read_problem "toys/2/a.lp") 1 "qiskit_M"
           eq_refl toy_first_sample eq_refl).
Defined.

Lemma script_run_completes_witness :
  let out := main Cases.read_sized Toy.initial_hamiltonian_adiabatic Toy.eigvalsh
               Cases.listdir_script in
  out.1 = Ok (data out.2) /\ Datas.bvars (data out.2) = [6; 16]%nat.
Proof.
  destruct (script_run_completes Cases.read_sized Toy.initial_hamiltonian_adiabatic
              Toy.eigvalsh Cases.listdir_script
              ["e.lp"; "d.lp"; "c.lp"; "b.lp"; "a.lp"]
              ["a.lp"; "b.lp"; "c.lp"; "d.lp"; "e.lp"; "f.lp"])
    as (Hout & Hb & _);
    [reflexivity | reflexivity | simpl; lia | simpl; lia
    | repeat constructor | repeat constructor |].
  split; [exact Hout | exact Hb].
Defined.
